(** * DAS4Whales: the f-k filter design and application core of [dsp.py]

    A shallow embedding of [src/das4whales/dsp.py] and the properties of
    its masks and of their application to a trace.

    Numbers.  The program computes in binary64; the embedding computes
    in the real numbers [R] of the Standard Library, so rounding,
    overflow and underflow are abstracted away.  The special values that
    numpy produces instead of raising (division by zero, logarithm of
    zero) are modelled where a property depends on them, in [xreal]
    (see [snr_tr_array]).  In [R] a division by zero has the value the
    library gives it ([/ 0 = 0]); the statements below are meant for
    inputs on which the program divides by non-zero numbers.  Where the
    rounding itself decides the outcome (the standard deviation of
    [snr_tr_array], which binary64 does not compute as zero on every
    constant channel) the computed number is a parameter of the
    embedding.

    Arrays.  One-dimensional numpy arrays are lists; two-dimensional
    arrays are a shape together with an entry function ([ndarray]).  *)

From Stdlib Require Import Reals Lra Lia List Bool Arith ZArith.
Import ListNotations.
Open Scope R_scope.

(** ** Comparisons of numbers as booleans, as numpy computes them *)

Definition Rleb (x y : R) : bool := if Rle_dec x y then true else false.
Definition Rltb (x y : R) : bool := if Rlt_dec x y then true else false.
Definition Rgeb (x y : R) : bool := Rleb y x.
Definition Rgtb (x y : R) : bool := Rltb y x.
Definition Reqb (x y : R) : bool := if Req_dec_T x y then true else false.

(** ** Errors *)

(** All are [ValueError] in numpy and scipy: operands that cannot be
    broadcast together, a transform over an axis with no data point, and
    an analytic signal of no sample. *)
Inductive error : Type :=
| BroadcastError
| FFTPointsError
| HilbertLengthError.

Inductive result (A : Type) : Type :=
| Ok (a : A)
| Err (e : error).
Arguments Ok {A} a.
Arguments Err {A} e.

Definition bind {A B : Type} (c : result A) (k : A -> result B) : result B :=
  match c with
  | Ok a => k a
  | Err e => Err e
  end.

Notation "x <- c ;; k" := (bind c (fun x => k))
  (at level 61, c at next level, right associativity).

(** ** Two-dimensional arrays *)

Record ndarray (A : Type) : Type := mk_ndarray {
  shape : nat * nat;
  item : nat -> nat -> A
}.
Arguments mk_ndarray {A} shape item.
Arguments shape {A} n.
Arguments item {A} n i j.

Definition nrows {A} (a : ndarray A) : nat := fst (shape a).
Definition ncols {A} (a : ndarray A) : nat := snd (shape a).

(** Two arrays are the same array when they have one shape and the same
    entry at every index inside it. *)
Definition array_eq {A} (a b : ndarray A) : Prop :=
  shape a = shape b /\
  forall i j, (i < nrows a)%nat -> (j < ncols a)%nat -> item a i j = item b i j.

(** [a[i, :] = row] *)
Definition set_row (a : ndarray R) (i : nat) (row : list R) : ndarray R :=
  mk_ndarray (shape a)
    (fun r c => if (r =? i)%nat then nth c row 0 else item a r c).

(** [a[:, i] *= col] *)
Definition mul_col (a : ndarray R) (i : nat) (col : list R) : ndarray R :=
  mk_ndarray (shape a)
    (fun r c => if (c =? i)%nat then item a r c * nth r col 0 else item a r c).

(** [a += b], for two arrays of one shape *)
Definition iadd (a b : ndarray R) : ndarray R :=
  mk_ndarray (shape a) (fun r c => item a r c + item b r c).

(** [range(a, b)] *)
Definition range (a b : nat) : list nat := seq a (b - a).

(** ** Complex numbers *)

Definition complex : Type := (R * R)%type.

Definition C0 : complex := (0, 0).
Definition C1 : complex := (1, 0).
Definition RtoC (x : R) : complex := (x, 0).
Definition Cre (z : complex) : R := fst z.
Definition Cim (z : complex) : R := snd z.
Definition Cadd (a b : complex) : complex := (fst a + fst b, snd a + snd b).
Definition Cmul (a b : complex) : complex :=
  (fst a * fst b - snd a * snd b, fst a * snd b + snd a * fst b).
Definition Cabs (z : complex) : R := sqrt (fst z * fst z + snd z * snd z).

(** [exp(i t)] *)
Definition cis (t : R) : complex := (cos t, sin t).

(** The sum of [f 0], ..., [f (n - 1)] *)
Fixpoint Csum (f : nat -> complex) (n : nat) : complex :=
  match n with
  | O => C0
  | S k => Cadd (Csum f k) (f k)
  end.

(** The sum of the discrete Fourier transform over [n] points:
    [sum_m x[m] exp(sign 2 pi i m k / n)]. *)
Definition dft (sign : R) (n : nat) (x : nat -> complex) (k : nat) : complex :=
  Csum (fun m => Cmul (x m) (cis (sign * (2 * PI * INR m * INR k / INR n)))) n.

(** ** Numbers with the special values of binary64 *)

(** A finite number, plus or minus infinity, or not-a-number.  The
    operations follow IEEE 754 on the special values; on finite numbers
    they are the operations of the reals (a zero is the positive
    zero). *)
Inductive xreal : Type :=
| Fin (x : R)
| PInf
| NInf
| NaN.

Definition xdiv (a b : xreal) : xreal :=
  match a, b with
  | NaN, _ | _, NaN => NaN
  | Fin x, Fin y =>
      if Reqb y 0 then
        if Reqb x 0 then NaN else if Rltb 0 x then PInf else NInf
      else Fin (x / y)
  | Fin _, (PInf | NInf) => Fin 0
  | PInf, Fin y => if Rltb y 0 then NInf else PInf
  | NInf, Fin y => if Rltb y 0 then PInf else NInf
  | (PInf | NInf), (PInf | NInf) => NaN
  end.

Definition xmul (a b : xreal) : xreal :=
  match a, b with
  | NaN, _ | _, NaN => NaN
  | Fin x, Fin y => Fin (x * y)
  | Fin x, PInf | PInf, Fin x =>
      if Reqb x 0 then NaN else if Rltb 0 x then PInf else NInf
  | Fin x, NInf | NInf, Fin x =>
      if Reqb x 0 then NaN else if Rltb 0 x then NInf else PInf
  | PInf, PInf | NInf, NInf => PInf
  | PInf, NInf | NInf, PInf => NaN
  end.


(** ** The numpy operations the program uses *)

Module np.

Definition zeros (n : nat) : list R := repeat 0 n.
Definition ones (n : nat) : list R := repeat 1 n.
Definition zeros_like (a : list R) : list R := zeros (length a).

(** [a[mask]] *)
Fixpoint compress {A} (mask : list bool) (a : list A) : list A :=
  match mask, a with
  | b :: mask', x :: a' =>
      if b then x :: compress mask' a' else compress mask' a'
  | _, _ => []
  end.

(** [a[mask] = vals]: the selected positions take the values in order *)
Fixpoint putmask {A} (a : list A) (mask : list bool) (vals : list A) : list A :=
  match a, mask with
  | x :: a', b :: mask' =>
      if b then
        match vals with
        | v :: vals' => v :: putmask a' mask' vals'
        | [] => x :: putmask a' mask' []
        end
      else x :: putmask a' mask' vals
  | _, _ => a
  end.

(** [a[mask] = v] for a scalar [v] *)
Fixpoint putmask_scalar {A} (a : list A) (mask : list bool) (v : A) : list A :=
  match a, mask with
  | x :: a', b :: mask' =>
      (if b then v else x) :: putmask_scalar a' mask' v
  | _, _ => a
  end.

(** [np.argmax] of a boolean array: the index of the first [True], and
    0 when there is none. *)
Fixpoint argmax (l : list bool) : nat :=
  match l with
  | [] => 0
  | b :: l' => if b then 0 else if existsb (fun x => x) l' then S (argmax l') else 0
  end.

(** [np.roll(a, shift)] for [0 <= shift <= len(a)] *)
Definition roll {A} (a : list A) (shift : nat) : list A :=
  skipn (length a - shift) a ++ firstn (length a - shift) a.

(** [np.tile(H, (n, 1))] *)
Definition tile (H : list R) (n : nat) : ndarray R :=
  mk_ndarray (n, length H) (fun _ c => nth c H 0).

Definition fliplr {A} (a : ndarray A) : ndarray A :=
  mk_ndarray (shape a) (fun r c => item a r (ncols a - 1 - c)).

Definition flipud {A} (a : ndarray A) : ndarray A :=
  mk_ndarray (shape a) (fun r c => item a (nrows a - 1 - r) c).

(** [np.fft.fftfreq(n, d)]:
    [val = 1.0 / (n * d)], [N = (n-1)//2 + 1],
    [results = [0 .. N-1] ++ [-(n//2) .. -1]], [return results * val].
    The quotient is that of the reals: the definition follows numpy
    where [n * d] is not 0.  (Where it is 0, numpy raises
    [ZeroDivisionError] on Python numbers and returns an axis of
    infinities and not-a-numbers on numpy scalars.) *)
Definition fftfreq (n : nat) (d : R) : list R :=
  let val := 1 / (INR n * d) in
  let N := Z.to_nat ((Z.of_nat n - 1) / 2 + 1) in
  let p1 := map (fun i => Z.of_nat i) (seq 0 N) in
  let p2 := map (fun i => (Z.of_nat i - Z.of_nat (n / 2))%Z) (seq 0 (n / 2)) in
  map (fun z => IZR z * val) (p1 ++ p2).

(** [np.fft.fftshift] of a one-dimensional array *)
Definition fftshift {A} (a : list A) : list A := roll a (length a / 2).

(** [np.fft.fft] and [np.fft.ifft] along one axis of a two-dimensional
    array.  A transform over an axis without data points raises
    [ValueError]. *)
Definition fft_axis1 (a : ndarray complex) : result (ndarray complex) :=
  if (ncols a =? 0)%nat then Err FFTPointsError
  else Ok (mk_ndarray (shape a)
             (fun i l => dft (-1) (ncols a) (fun n => item a i n) l)).

Definition fft_axis0 (a : ndarray complex) : result (ndarray complex) :=
  if (nrows a =? 0)%nat then Err FFTPointsError
  else Ok (mk_ndarray (shape a)
             (fun k j => dft (-1) (nrows a) (fun m => item a m j) k)).

Definition ifft_axis1 (a : ndarray complex) : result (ndarray complex) :=
  if (ncols a =? 0)%nat then Err FFTPointsError
  else Ok (mk_ndarray (shape a)
             (fun i n =>
                Cmul (RtoC (1 / INR (ncols a)))
                     (dft 1 (ncols a) (fun l => item a i l) n))).

Definition ifft_axis0 (a : ndarray complex) : result (ndarray complex) :=
  if (nrows a =? 0)%nat then Err FFTPointsError
  else Ok (mk_ndarray (shape a)
             (fun m j =>
                Cmul (RtoC (1 / INR (nrows a)))
                     (dft 1 (nrows a) (fun k => item a k j) m))).

(** [np.fft.fft2] and [np.fft.ifft2]: the one-dimensional transform
    along the last axis, then along the first. *)
Definition fft2 (a : ndarray complex) : result (ndarray complex) :=
  b <- fft_axis1 a ;; fft_axis0 b.

Definition ifft2 (a : ndarray complex) : result (ndarray complex) :=
  b <- ifft_axis1 a ;; ifft_axis0 b.

(** [np.fft.fftshift] and [np.fft.ifftshift] of a two-dimensional array:
    a roll of every axis, by [n // 2] and by [- (n // 2)]. *)
Definition fftshift2 {A} (a : ndarray A) : ndarray A :=
  mk_ndarray (shape a)
    (fun i j => item a ((i + (nrows a - nrows a / 2)) mod nrows a)
                       ((j + (ncols a - ncols a / 2)) mod ncols a)).

Definition ifftshift2 {A} (a : ndarray A) : ndarray A :=
  mk_ndarray (shape a)
    (fun i j => item a ((i + nrows a / 2) mod nrows a)
                       ((j + ncols a / 2) mod ncols a)).

(** Broadcasting of two shapes: on every axis the extents are equal or
    one of them is 1. *)
Definition broadcast_dim (a b : nat) : option nat :=
  if (a =? b)%nat then Some a
  else if (a =? 1)%nat then Some b
  else if (b =? 1)%nat then Some a
  else None.

Definition broadcast_shapes (s1 s2 : nat * nat) : option (nat * nat) :=
  match broadcast_dim (fst s1) (fst s2), broadcast_dim (snd s1) (snd s2) with
  | Some r, Some c => Some (r, c)
  | _, _ => None
  end.

(** The index read in an operand of extent [dim] for the index [i] of
    the broadcast result. *)
Definition bidx (dim i : nat) : nat := if (dim =? 1)%nat then 0%nat else i.

(** [x * m] for a complex array [x] and a real array [m] *)
Definition multiply (x : ndarray complex) (m : ndarray R)
  : result (ndarray complex) :=
  match broadcast_shapes (shape x) (shape m) with
  | None => Err BroadcastError
  | Some s =>
      Ok (mk_ndarray s
            (fun i j =>
               Cmul (item x (bidx (nrows x) i) (bidx (ncols x) j))
                    (RtoC (item m (bidx (nrows m) i) (bidx (ncols m) j)))))
  end.

Definition astype_complex (a : ndarray R) : ndarray complex :=
  mk_ndarray (shape a) (fun i j => RtoC (item a i j)).

(** [a.real] *)
Definition real (a : ndarray complex) : ndarray R :=
  mk_ndarray (shape a) (fun i j => Cre (item a i j)).

(** [np.log10]: minus infinity at zero (a warning, no exception), and
    not-a-number below zero. *)
Definition log10 (a : xreal) : xreal :=
  match a with
  | Fin x =>
      if Rltb 0 x then Fin (ln x / ln 10)
      else if Reqb x 0 then NInf else NaN
  | PInf => PInf
  | NInf => NaN
  | NaN => NaN
  end.

(** [np.min] and [np.max] of a two-dimensional array, over the entries
    in row-major order.  (numpy raises on an array without entries; the
    program reaches these reductions after a transform that has already
    raised on such an array.) *)
Definition entries (a : ndarray R) : list R :=
  flat_map (fun i => map (fun j => item a i j) (seq 0 (ncols a))) (seq 0 (nrows a)).

Definition amin (a : ndarray R) : R :=
  match entries a with
  | [] => 0
  | x :: l => fold_left Rmin l x
  end.

Definition amax (a : ndarray R) : R :=
  match entries a with
  | [] => 0
  | x :: l => fold_left Rmax l x
  end.

(** [ff, kk = np.meshgrid(f, k)]: both of shape [(len(k), len(f))], with
    [ff[i, j] = f[j]] and [kk[i, j] = k[i]]. *)
Definition meshgrid (f k : list R) : ndarray R * ndarray R :=
  (mk_ndarray (length k, length f) (fun _ j => nth j f 0),
   mk_ndarray (length k, length f) (fun i _ => nth i k 0)).

(** [np.fft.fft(a, n)] of a real array along the last axis: every row is
    cropped or padded with zeros to [n] samples.  [n < 1] raises
    [ValueError]. *)
Definition fft_n (a : ndarray R) (n : nat) : result (ndarray complex) :=
  if (n =? 0)%nat then Err FFTPointsError
  else
    Ok (mk_ndarray (nrows a, n)
          (fun i k =>
             dft (-1) n
               (fun m => if (m <? ncols a)%nat then RtoC (item a i m) else C0) k)).

(** [np.fft.fftshift(a, axes=1)] *)
Definition fftshift_axis1 {A} (a : ndarray A) : ndarray A :=
  mk_ndarray (shape a)
    (fun i j => item a i ((j + (ncols a - ncols a / 2)) mod ncols a)).

End np.

(** ** fk_filter_design *)

(** The body of the [else] branch of the loop over wavenumbers: the
    gain of one row, for the wavenumber [k]. *)
Definition fk_filter_line (freq : list R) (k cs_min cp_min cp_max cs_max : R)
  : list R :=
  let filter_line := np.ones (length freq) in
  let speed := map (fun f => Rabs (f / k)) freq in
  (* Filter transition band, ramping up from cs_min to cp_min *)
  let selected_speed_mask :=
    map (fun s => Rgeb s cs_min && Rleb s cp_min) speed in
  let filter_line :=
    np.putmask filter_line selected_speed_mask
      (map (fun s => sin (0.5 * PI * (s - cs_min) / (cp_min - cs_min)))
           (np.compress selected_speed_mask speed)) in
  (* Filter transition band, going down from cp_max to cs_max *)
  let selected_speed_mask :=
    map (fun s => Rgeb s cp_max && Rleb s cs_max) speed in
  let filter_line :=
    np.putmask filter_line selected_speed_mask
      (map (fun s => 1 - sin (0.5 * PI * (s - cp_max) / (cs_max - cp_max)))
           (np.compress selected_speed_mask speed)) in
  (* Stopband *)
  let filter_line :=
    np.putmask_scalar filter_line (map (fun s => Rgeb s cs_max) speed) 0 in
  let filter_line :=
    np.putmask_scalar filter_line (map (fun s => Rltb s cs_min) speed) 0 in
  filter_line.

(** The frequency and the wavenumber axes of the three design
    functions. *)
Definition freq_axis (nns : nat) (fs : R) : list R :=
  np.fftshift (np.fftfreq nns (1 / fs)).

Definition knum_axis (nnx : nat) (step : nat) (dx : R) : list R :=
  np.fftshift (np.fftfreq nnx (INR step * dx)).

(** [np.ndarray(shape=...)] allocates without initialising: the content
    of the fresh array is the parameter [uninit].  [selected_channels] is
    [[start, end, step]]. *)
Definition fk_filter_design (uninit : nat -> nat -> R)
    (trace_shape : nat * nat) (selected_channels : nat * nat * nat)
    (dx fs cs_min cp_min cp_max cs_max : R) : ndarray R :=
  let '(nnx, nns) := trace_shape in
  let '(_, _, step) := selected_channels in
  let freq := freq_axis nns fs in
  let knum := knum_axis nnx step dx in
  let fk_filter_matrix := mk_ndarray (length knum, length freq) uninit in
  fold_left
    (fun fk_filter_matrix i =>
       if Rltb (Rabs (nth i knum 0)) 0.005 then
         set_row fk_filter_matrix i (np.zeros (length freq))
       else
         set_row fk_filter_matrix i
           (fk_filter_line freq (nth i knum 0) cs_min cp_min cp_max cs_max))
    (range 0 (length knum))
    fk_filter_matrix.

(** The entry of [fk_filter_line] at a frequency whose speed is [s]: the
    masked assignments of the loop body read at one position, the last
    assignment first. *)
Definition fk_gain (cs_min cp_min cp_max cs_max s : R) : R :=
  if Rltb s cs_min then 0
  else if Rgeb s cs_max then 0
  else if Rgeb s cp_max && Rleb s cs_max then
    1 - sin (0.5 * PI * (s - cp_max) / (cs_max - cp_max))
  else if Rgeb s cs_min && Rleb s cp_min then
    sin (0.5 * PI * (s - cs_min) / (cp_min - cs_min))
  else 1.

(** ** Sparse masks: [sparse.COO] *)

Module sparse.

(** A coordinate array: the stored entries, each a position and a value,
    and the value of every position that is not stored. *)
Record COO (A : Type) : Type := mk_COO {
  coo_shape : nat * nat;
  coo_entries : list (nat * nat * A);
  fill_value : A
}.
Arguments mk_COO {A} coo_shape coo_entries fill_value.
Arguments coo_shape {A} c.
Arguments coo_entries {A} c.
Arguments fill_value {A} c.

Definition at_coord {A} (i j : nat) (e : nat * nat * A) : bool :=
  ((fst (fst e) =? i) && (snd (fst e) =? j))%nat.

Definition getitem {A} (s : COO A) (i j : nat) : A :=
  match find (at_coord i j) (coo_entries s) with
  | Some e => snd e
  | None => fill_value s
  end.

Definition todense {A} (s : COO A) : ndarray A :=
  mk_ndarray (coo_shape s) (getitem s).

(** [sparse.COO.from_numpy]: the non-zero entries, in row-major order. *)
Definition from_numpy (a : ndarray R) : COO R :=
  mk_COO (shape a)
    (flat_map
       (fun i =>
          flat_map
            (fun j => if Reqb (item a i j) 0 then [] else [(i, j, item a i j)])
            (seq 0 (ncols a)))
       (seq 0 (nrows a)))
    0.

(** [x * m] for a dense complex array [x] and a sparse real mask [m]
    whose fill value is 0: the product is sparse, with an entry at every
    position that an entry of [m] is broadcast to. *)
Definition multiply (x : ndarray complex) (m : COO R) : result (COO complex) :=
  match np.broadcast_shapes (shape x) (coo_shape m) with
  | None => Err BroadcastError
  | Some s =>
      Ok (mk_COO s
            (flat_map
               (fun e =>
                  let '(i, j, v) := e in
                  map (fun ij =>
                         (fst ij, snd ij,
                          Cmul (item x (np.bidx (nrows x) (fst ij))
                                       (np.bidx (ncols x) (snd ij)))
                               (RtoC v)))
                      (list_prod
                         (if (fst (coo_shape m) =? 1)%nat then seq 0 (fst s) else [i])
                         (if (snd (coo_shape m) =? 1)%nat then seq 0 (snd s) else [j])))
               (coo_entries m))
            C0)
  end.

End sparse.

(** ** hybrid_filter_design *)

(** 1st step: the frequency bandpass response [H] (the masked
    assignments on [H] of [hybrid_filter_design]). *)
Definition hybrid_H (freq : list R) (fmin fmax : R) : list R :=
  let H := np.zeros_like freq in
  (* set the width of the frequency range tapers *)
  let df_taper := 4 in
  let fpmax := fmax + df_taper in
  let fpmin := fmin - df_taper in
  (* Filter transition band, ramping up from fpmin to fmin *)
  let rup_mask := map (fun f => Rgeb f fpmin && Rleb f fmin) freq in
  let H :=
    np.putmask H rup_mask
      (map (fun f => sin (0.5 * PI * (f - fpmin) / (fmin - fpmin)))
           (np.compress rup_mask freq)) in
  (* Filter passband *)
  let H :=
    np.putmask_scalar H (map (fun f => Rgeb f fmin && Rleb f fmax) freq) 1 in
  (* Filter transition band, ramping down from fmax to fpmax *)
  let rdo_mask := map (fun f => Rgeb f fmax && Rleb f fpmax) freq in
  let H :=
    np.putmask H rdo_mask
      (map (fun f => cos (0.5 * PI * (f - fmax) / (fmax - fpmax)))
           (np.compress rdo_mask freq)) in
  H.

(** The body of the loop over frequencies: the wavenumber gain of the
    column of frequency [f].  The two quotients are those of the reals:
    the definition follows the program for speeds [cs_min] and [cp_min]
    other than 0.  (At a speed 0 numpy divides the frequency by zero:
    the wavenumber is infinite and the ramp is not-a-number.) *)
Definition hybrid_filter_col (knum : list R) (f cs_min cp_min : R) : list R :=
  (* Initiating filter column to zeros *)
  let filter_col := np.zeros_like knum in
  let ks := f / cs_min in
  let kp := f / cp_min in
  (* Avoid zero division *)
  let filter_col :=
    if negb (Reqb ks kp) then
      (* f+ k+ quadrant *)
      let selected_k_mask := map (fun k => Rgeb k (- ks) && Rleb k (- kp)) knum in
      let filter_col :=
        np.putmask filter_col selected_k_mask
          (map (fun k => - sin (0.5 * PI * (k + ks) / (kp - ks)))
               (np.compress selected_k_mask knum)) in
      (* f+ k- quadrant *)
      let selected_k_mask :=
        map (fun k => Rgeb (- k) (- ks) && Rleb (- k) (- kp)) knum in
      np.putmask filter_col selected_k_mask
        (map (fun k => sin (0.5 * PI * (k - ks) / (kp - ks)))
             (np.compress selected_k_mask knum))
    else filter_col in
  (* Passband *)
  np.putmask_scalar filter_col (map (fun k => Rltb k kp && Rgtb k (- kp)) knum) 1.

(** The dense matrix that [hybrid_filter_design] hands to
    [sparse.COO.from_numpy].  The optional display of the filter is
    plotting and is left out. *)
Definition hybrid_filter_dense (trace_shape : nat * nat)
    (selected_channels : nat * nat * nat)
    (dx fs cs_min cp_min fmin fmax : R) : ndarray R :=
  let '(nnx, nns) := trace_shape in
  let '(_, _, step) := selected_channels in
  let freq := freq_axis nns fs in
  let knum := knum_axis nnx step dx in
  let df_taper := 4 in
  let fpmax := fmax + df_taper in
  let fpmin := fmin - df_taper in
  (* Find the corresponding indexes *)
  let fmin_idx := np.argmax (map (fun f => Rgeb f fpmin) freq) in
  let fmax_idx := np.argmax (map (fun f => Rgeb f fpmax) freq) in
  let H := hybrid_H freq fmin fmax in
  (* Replicate the bandpass frequency response along the k-axis *)
  let fk_filter_matrix := np.tile H (length knum) in
  (* 2nd step: going through the frequencies of the bandpass range *)
  let fk_filter_matrix :=
    fold_left
      (fun fk_filter_matrix i =>
         mul_col fk_filter_matrix i
           (hybrid_filter_col knum (nth i freq 0) cs_min cp_min))
      (range fmin_idx fmax_idx)
      fk_filter_matrix in
  (* Symmetrize the filter *)
  iadd fk_filter_matrix (np.fliplr fk_filter_matrix).

Definition hybrid_filter_design (trace_shape : nat * nat)
    (selected_channels : nat * nat * nat)
    (dx fs cs_min cp_min fmin fmax : R) : sparse.COO R :=
  sparse.from_numpy
    (hybrid_filter_dense trace_shape selected_channels dx fs cs_min cp_min fmin fmax).

(** ** hybrid_gs_filter_design *)

(** The body of the loop over frequencies in [hybrid_gs_filter_design].
    The two index sets [selected_k_mask] are computed and dropped. *)
Definition hybrid_gs_filter_col (knum : list R) (f cs_min cp_min : R) : list R :=
  (* Initiating filter column to zeros *)
  let filter_col := np.zeros_like knum in
  let ks := f / cs_min in
  let kp := f / cp_min in
  (* Avoid zero division *)
  let filter_col :=
    if negb (Reqb ks kp) then
      (* f+ k+ quadrant *)
      let selected_k_mask := map (fun k => Rgeb k (- ks) && Rleb k (- kp)) knum in
      (* f+ k- quadrant *)
      let selected_k_mask :=
        map (fun k => Rgeb (- k) (- ks) && Rleb (- k) (- kp)) knum in
      filter_col
    else filter_col in
  (* Passband *)
  np.putmask_scalar filter_col (map (fun k => Rltb k kp && Rgtb k (- kp)) knum) 1.

(** The matrix of [hybrid_gs_filter_design] when the loop over
    frequencies ends. *)
Definition hybrid_gs_loop (trace_shape : nat * nat)
    (selected_channels : nat * nat * nat)
    (dx fs cs_min cp_min fmin fmax : R) : ndarray R :=
  let '(nnx, nns) := trace_shape in
  let '(_, _, step) := selected_channels in
  let freq := freq_axis nns fs in
  let knum := knum_axis nnx step dx in
  (* 1st step: frequency bandpass filtering *)
  let H := np.zeros_like freq in
  let df_taper := 4 in
  let fpmax := fmax + df_taper in
  let fpmin := fmin - df_taper in
  let fmin_idx := np.argmax (map (fun f => Rgeb f fpmin) freq) in
  let fmax_idx := np.argmax (map (fun f => Rgeb f fpmax) freq) in
  (* Filter passband *)
  let H :=
    np.putmask_scalar H (map (fun f => Rgeb f fmin && Rleb f fmax) freq) 1 in
  let fk_filter_matrix := np.tile H (length knum) in
  fold_left
    (fun fk_filter_matrix i =>
       mul_col fk_filter_matrix i
         (hybrid_gs_filter_col knum (nth i freq 0) cs_min cp_min))
    (range fmin_idx fmax_idx)
    fk_filter_matrix.

(** The mask just before the Gaussian smoothing: the loop, then the
    symmetrisation. *)
Definition hybrid_gs_presmooth (trace_shape : nat * nat)
    (selected_channels : nat * nat * nat)
    (dx fs cs_min cp_min fmin fmax : R) : ndarray R :=
  let fk_filter_matrix :=
    hybrid_gs_loop trace_shape selected_channels dx fs cs_min cp_min fmin fmax in
  iadd fk_filter_matrix (np.fliplr fk_filter_matrix).

Section Smoothing.

(** [scipy.ndimage.gaussian_filter] is a library function; the
    properties below do not depend on what it computes. *)
Variable gaussian_filter : ndarray R -> R -> ndarray R.

Definition hybrid_gs_filter_design (trace_shape : nat * nat)
    (selected_channels : nat * nat * nat)
    (dx fs cs_min cp_min fmin fmax : R) : sparse.COO R :=
  let fk_filter_matrix :=
    hybrid_gs_presmooth trace_shape selected_channels dx fs cs_min cp_min fmin fmax in
  let fk_filter_matrix := gaussian_filter fk_filter_matrix 20 in
  sparse.from_numpy fk_filter_matrix.

End Smoothing.

(** ** hybrid_ninf_filter_design *)

(** The body of the loop over frequencies of the double-sided filter. *)
Definition hybrid_ninf_filter_col (knum : list R)
    (f cs_min cp_min cp_max cs_max : R) : list R :=
  (* Initiating filter column to zeros *)
  let filter_col := np.zeros_like knum in
  let ks_min := f / cs_min in
  let kp_min := f / cp_min in
  let ks_max := f / cs_max in
  let kp_max := f / cp_max in
  (* Avoid zero division *)
  let filter_col :=
    if negb (Reqb ks_min kp_min) then
      let selected_k_mask :=
        map (fun k => Rgeb k (- ks_min) && Rleb k (- kp_min)) knum in
      np.putmask filter_col selected_k_mask
        (map (fun k => - sin (0.5 * PI * (k + ks_min) / (kp_min - ks_min)))
             (np.compress selected_k_mask knum))
    else filter_col in
  let filter_col :=
    if negb (Reqb ks_max kp_max) then
      let selected_k_mask :=
        map (fun k => Rgeb k (- kp_max) && Rleb k (- ks_max)) knum in
      np.putmask filter_col selected_k_mask
        (map (fun k => cos (0.5 * PI * (k + kp_max) / (ks_max - kp_max)))
             (np.compress selected_k_mask knum))
    else filter_col in
  (* Passband *)
  np.putmask_scalar filter_col
    (map (fun k => Rgtb k (- kp_min) && Rltb k (- kp_max)) knum) 1.

(** The dense matrix that [hybrid_ninf_filter_design] hands to
    [sparse.COO.from_numpy]. *)
Definition hybrid_ninf_filter_dense (trace_shape : nat * nat)
    (selected_channels : nat * nat * nat)
    (dx fs cs_min cp_min cp_max cs_max fmin fmax : R) : ndarray R :=
  let '(nnx, nns) := trace_shape in
  let '(_, _, step) := selected_channels in
  let freq := freq_axis nns fs in
  let knum := knum_axis nnx step dx in
  let df_taper := 4 in
  let fpmax := fmax + df_taper in
  let fpmin := fmin - df_taper in
  let fmin_idx := np.argmax (map (fun f => Rgeb f fpmin) freq) in
  let fmax_idx := np.argmax (map (fun f => Rgeb f fpmax) freq) in
  let H := hybrid_H freq fmin fmax in
  let fk_filter_matrix := np.tile H (length knum) in
  let fk_filter_matrix :=
    fold_left
      (fun fk_filter_matrix i =>
         mul_col fk_filter_matrix i
           (hybrid_ninf_filter_col knum (nth i freq 0) cs_min cp_min cp_max cs_max))
      (range fmin_idx fmax_idx)
      fk_filter_matrix in
  (* Symmetrize the filter *)
  let fk_filter_matrix := iadd fk_filter_matrix (np.fliplr fk_filter_matrix) in
  iadd fk_filter_matrix (np.flipud fk_filter_matrix).

Definition hybrid_ninf_filter_design (trace_shape : nat * nat)
    (selected_channels : nat * nat * nat)
    (dx fs cs_min cp_min cp_max cs_max fmin fmax : R) : sparse.COO R :=
  sparse.from_numpy
    (hybrid_ninf_filter_dense trace_shape selected_channels dx fs
       cs_min cp_min cp_max cs_max fmin fmax).

(** ** hybrid_ninf_gs_filter_design *)

(** The body of the loop over frequencies: the four wavenumbers are
    computed, and the passband assignment reads two of them. *)
Definition hybrid_ninf_gs_filter_col (knum : list R)
    (f cs_min cp_min cp_max cs_max : R) : list R :=
  (* Initiating filter column to zeros *)
  let filter_col := np.zeros_like knum in
  let ks_min := f / cs_min in
  let kp_min := f / cp_min in
  let ks_max := f / cs_max in
  let kp_max := f / cp_max in
  (* Passband *)
  np.putmask_scalar filter_col
    (map (fun k => Rgtb k (- kp_min) && Rltb k (- kp_max)) knum) 1.

(** The matrix of [hybrid_ninf_gs_filter_design] when the loop over
    frequencies ends. *)
Definition hybrid_ninf_gs_loop (trace_shape : nat * nat)
    (selected_channels : nat * nat * nat)
    (dx fs cs_min cp_min cp_max cs_max fmin fmax : R) : ndarray R :=
  let '(nnx, nns) := trace_shape in
  let '(_, _, step) := selected_channels in
  let freq := freq_axis nns fs in
  let knum := knum_axis nnx step dx in
  let H := np.zeros_like freq in
  let df_taper := 4 in
  let fpmax := fmax + df_taper in
  let fpmin := fmin - df_taper in
  let fmin_idx := np.argmax (map (fun f => Rgeb f fpmin) freq) in
  let fmax_idx := np.argmax (map (fun f => Rgeb f fpmax) freq) in
  (* Filter passband *)
  let H :=
    np.putmask_scalar H (map (fun f => Rgeb f fmin && Rleb f fmax) freq) 1 in
  let fk_filter_matrix := np.tile H (length knum) in
  fold_left
    (fun fk_filter_matrix i =>
       mul_col fk_filter_matrix i
         (hybrid_ninf_gs_filter_col knum (nth i freq 0) cs_min cp_min cp_max cs_max))
    (range fmin_idx fmax_idx)
    fk_filter_matrix.

Section SmoothingBeforeSymmetry.

Variable gaussian_filter : ndarray R -> R -> ndarray R.

(** The smoothing comes first here, the two symmetrisations after it. *)
Definition hybrid_ninf_gs_filter_design (trace_shape : nat * nat)
    (selected_channels : nat * nat * nat)
    (dx fs cs_min cp_min cp_max cs_max fmin fmax : R) : sparse.COO R :=
  let fk_filter_matrix :=
    hybrid_ninf_gs_loop trace_shape selected_channels dx fs
      cs_min cp_min cp_max cs_max fmin fmax in
  (* Symmetrize the filter *)
  let fk_filter_matrix := gaussian_filter fk_filter_matrix 20 in
  let fk_filter_matrix := iadd fk_filter_matrix (np.fliplr fk_filter_matrix) in
  let fk_filter_matrix := iadd fk_filter_matrix (np.flipud fk_filter_matrix) in
  sparse.from_numpy fk_filter_matrix.

End SmoothingBeforeSymmetry.

(** ** get_fx *)

(** [fx = 2 * abs(fftshift(fft(trace, nfft), axes=1))], then
    [fx /= nfft] and [fx *= 10 ** 9]. *)
Definition get_fx (trace : ndarray R) (nfft : nat) : result (ndarray R) :=
  spectrum <- np.fft_n trace nfft ;;
  let shifted := np.fftshift_axis1 spectrum in
  Ok (mk_ndarray (shape shifted)
        (fun i j => 2 * Cabs (item shifted i j) / INR nfft * 10 ^ 9)).

(** ** fk_filt *)

(** The filter of [fk_filt] before the smoothing: the indicator [g] of
    [ff < kk * c_min] and [ff < - kk * c_min], symmetrised, minus the
    symmetrised indicator [g2] for [c_max]. *)
Definition fk_filt_presmooth (nx ns : nat) (tint fs xint dx c_min c_max : R)
  : ndarray R :=
  let f := np.fftshift (np.fftfreq ns (tint / fs)) in
  let k := np.fftshift (np.fftfreq nx (xint * dx)) in
  let '(ff, kk) := np.meshgrid f k in
  let g :=
    mk_ndarray (shape ff)
      (fun i j => 1.0 * (if Rltb (item ff i j) (item kk i j * c_min)
                            && Rltb (item ff i j) (- item kk i j * c_min)
                         then 1 else 0)) in
  let g2 :=
    mk_ndarray (shape ff)
      (fun i j => 1.0 * (if Rltb (item ff i j) (item kk i j * c_max)
                            && Rltb (item ff i j) (- item kk i j * c_max)
                         then 1 else 0)) in
  (* Symmetrize the filter *)
  let g := iadd g (np.fliplr g) in
  let g2s := iadd g2 (np.fliplr g2) in
  mk_ndarray (shape g) (fun i j => item g i j - item g2s i j).

Section GaussianFilter.

Variable gaussian_filter : ndarray R -> R -> ndarray R.

(** The filter of [fk_filt]: smoothed, then normalised to its minimum
    and maximum. *)
Definition fk_filt_mask (nx ns : nat) (tint fs xint dx c_min c_max : R)
  : ndarray R :=
  let g := fk_filt_presmooth nx ns tint fs xint dx c_min c_max in
  let g := gaussian_filter g 20 in
  mk_ndarray (shape g)
    (fun i j => (item g i j - np.amin g) / (np.amax g - np.amin g)).

Definition fk_filt (data : ndarray R) (tint fs xint dx c_min c_max : R)
  : result (ndarray R) :=
  (* Perform 2D Fourier Transform on the input data *)
  data_fft <- np.fft2 (np.astype_complex data) ;;
  let nx := nrows data_fft in
  let ns := ncols data_fft in
  let g := fk_filt_mask nx ns tint fs xint dx c_min c_max in
  (* Apply the filter to the 2D Fourier-transformed data *)
  data_fft_g <- np.multiply (np.fftshift2 data_fft) g ;;
  (* Inverse transform back to the t-x domain *)
  data_g <- np.ifft2 (np.ifftshift2 data_fft_g) ;;
  Ok (np.real data_g).

End GaussianFilter.

(** ** Sums and multiples of traces *)

Definition array_add (a b : ndarray R) : ndarray R :=
  mk_ndarray (shape a) (fun i j => item a i j + item b i j).

Definition array_scale (c : R) (a : ndarray R) : ndarray R :=
  mk_ndarray (shape a) (fun i j => c * item a i j).

(** ** taper_data, fk_filter_filt and fk_filter_sparsefilt *)

Module sp.

(** [scipy.signal.windows.tukey(M, alpha)] for [0 < alpha < 1]: a window
    of ones when [M <= 1]; otherwise, with
    [width = floor(alpha (M - 1) / 2)], a cosine rise on the indices
    [0 .. width], ones, and a cosine fall on the indices
    [M - width - 1 .. M - 1]. *)
Definition tukey (M : nat) (alpha : R) (width : nat) : list R :=
  if (M <=? 1)%nat then np.ones M
  else
    map (fun n =>
           if (n <=? width)%nat then
             0.5 * (1 + cos (PI * (-1 + 2.0 * INR n / alpha / (INR M - 1))))
           else if (n <? M - width - 1)%nat then 1
           else
             0.5 * (1 + cos (PI * (-2.0 / alpha + 1
                                   + 2.0 * INR n / alpha / (INR M - 1)))))
        (seq 0 M).

(** [scipy.signal.hilbert(x, axis=1)]: the analytic signal of every
    row, [ifft(fft(x) * h)] with [h[0] = 1], [h[k] = 2] on the positive
    frequencies, [h[N/2] = 1] when [N] is even, and 0 elsewhere.  A row
    of no sample raises [ValueError]. *)
Definition hilbert_h (N k : nat) : R :=
  if Nat.even N then
    if ((k =? 0) || (k =? N / 2))%nat then 1
    else if ((1 <=? k) && (k <? N / 2))%nat then 2 else 0
  else
    if (k =? 0)%nat then 1
    else if ((1 <=? k) && (k <? (N + 1) / 2))%nat then 2 else 0.

Definition hilbert (x : ndarray R) : result (ndarray complex) :=
  let N := ncols x in
  if (N =? 0)%nat then Err HilbertLengthError
  else
    Ok (mk_ndarray (shape x)
          (fun i n =>
             Cmul (RtoC (1 / INR N))
               (dft 1 N
                  (fun k =>
                     Cmul (dft (-1) N (fun m => RtoC (item x i m)) k)
                          (RtoC (hilbert_h N k)))
                  n))).

End sp.

(** [trace *= sp.windows.tukey(nt, alpha=0.03)[np.newaxis, :]].  The
    program multiplies in place, in the buffer of the caller; the
    tapered array is the value here.  For [alpha = 0.03] the width
    [floor(0.03 (nt - 1) / 2)] is [3 (nt - 1) // 200]. *)
Definition taper_data (trace : ndarray R) : ndarray R :=
  let nt := ncols trace in
  mk_ndarray (shape trace)
    (fun i j => item trace i j * nth j (sp.tukey nt 0.03 (3 * (nt - 1) / 200)) 0).

Definition fk_filter_filt (trace : ndarray R) (fk_filter_matrix : ndarray R)
    (tapering : bool) : result (ndarray R) :=
  let trace := if tapering then taper_data trace else trace in
  (* Calculate the frequency-wavenumber spectrum *)
  spectrum <- np.fft2 (np.astype_complex trace) ;;
  let fk_trace := np.fftshift2 spectrum in
  (* Apply the filter *)
  fk_filtered_trace <- np.multiply fk_trace fk_filter_matrix ;;
  (* Back to the t-x domain *)
  trace <- np.ifft2 (np.ifftshift2 fk_filtered_trace) ;;
  Ok (np.real trace).

Definition fk_filter_sparsefilt (trace : ndarray R)
    (fk_filter_matrix : sparse.COO R) (tapering : bool) : result (ndarray R) :=
  let trace := if tapering then taper_data trace else trace in
  (* Calculate the frequency-wavenumber spectrum *)
  spectrum <- np.fft2 (np.astype_complex trace) ;;
  let fk_trace := np.fftshift2 spectrum in
  (* Apply the filter *)
  fk_filtered_trace <- sparse.multiply fk_trace fk_filter_matrix ;;
  (* Back to the t-x domain *)
  trace <- np.ifft2 (np.ifftshift2 (sparse.todense fk_filtered_trace)) ;;
  Ok (np.real trace).

(** ** snr_tr_array *)

Section StandardDeviation.

(** [np.std(trace, axis=1, keepdims=True)], the array of one column that
    numpy computes in binary64.  Its value is not that of the
    arithmetic of the reals: the computed mean of a constant channel
    need not be the constant, and the computed deviation is then not
    zero.  So it is a parameter, and what is proved of [snr_tr_array]
    holds whatever [np.std] returns.  (On a trace without samples numpy
    returns not-a-number; such a trace has no entry that reads it.) *)
Variable std : ndarray R -> ndarray R.

(** The squares and the standard deviation are finite numbers; the
    quotient and its logarithm take the special values.  The quotient
    broadcasts the one column of the standard deviations along the
    samples. *)
Definition snr_tr_array (trace : ndarray R) (env : bool)
  : result (ndarray xreal) :=
  if env then
    analytic <- sp.hilbert trace ;;
    Ok (mk_ndarray (shape trace)
          (fun i j =>
             xmul (Fin 10)
               (np.log10
                  (xdiv (Fin (Cabs (item analytic i j) ^ 2))
                        (Fin (item (std trace) i 0 ^ 2))))))
  else
    Ok (mk_ndarray (shape trace)
          (fun i j =>
             xmul (Fin 10)
               (np.log10
                  (xdiv (Fin (item trace i j ^ 2))
                        (Fin (item (std trace) i 0 ^ 2)))))).

End StandardDeviation.

(** Two outcomes are the same when both are the same error or both are
    the same array. *)
Definition result_eq {A} (r1 r2 : result (ndarray A)) : Prop :=
  match r1, r2 with
  | Ok a, Ok b => array_eq a b
  | Err e1, Err e2 => e1 = e2
  | _, _ => False
  end.

(** The index that carries the opposite frequency (or wavenumber) on a
    zero-centred axis of length [n]: [n - 1 - i] when [n] is odd, and
    [n - i] when [n] is even (index 0, the Nyquist bin, has no opposite
    then). *)
Definition mirror (n i : nat) : nat :=
  if Nat.even n then (n - i)%nat else (n - 1 - i)%nat.

(** The scenario of the specification: trace shape (4, 8), [fs = 10],
    [dx = 1], [step = 1], speeds 1, 2, 3, 4. *)
Definition scenario_mask (uninit : nat -> nat -> R) : ndarray R :=
  fk_filter_design uninit (4, 8)%nat (0, 4, 1)%nat 1 10 1 2 3 4.

(** * Properties *)

(** ** Comparisons *)

Lemma Rleb_true_iff x y : Rleb x y = true <-> x <= y.
Proof. unfold Rleb; destruct (Rle_dec x y); split; intros; try easy; lra. Qed.

Lemma Rleb_false_iff x y : Rleb x y = false <-> y < x.
Proof. unfold Rleb; destruct (Rle_dec x y); split; intros; try easy; lra. Qed.

Lemma Rltb_true_iff x y : Rltb x y = true <-> x < y.
Proof. unfold Rltb; destruct (Rlt_dec x y); split; intros; try easy; lra. Qed.

Lemma Rltb_false_iff x y : Rltb x y = false <-> y <= x.
Proof. unfold Rltb; destruct (Rlt_dec x y); split; intros; try easy; lra. Qed.

Lemma Rgeb_true_iff x y : Rgeb x y = true <-> y <= x.
Proof. apply Rleb_true_iff. Qed.

Lemma Rgeb_false_iff x y : Rgeb x y = false <-> x < y.
Proof. apply Rleb_false_iff. Qed.

(** ** Lists as one-dimensional arrays *)

Lemma nth_map_in {A B} (f : A -> B) (l : list A) (j : nat) (d : B) (d' : A) :
  (j < length l)%nat -> nth j (map f l) d = f (nth j l d').
Proof.
  intros Hj. rewrite (nth_indep _ d (f d')) by (rewrite length_map; exact Hj).
  apply map_nth.
Qed.

Lemma putmask_length {A} (a : list A) :
  forall mask vals, length (np.putmask a mask vals) = length a.
Proof.
  induction a as [|x a IH]; intros [|b mask] vals; simpl; try reflexivity.
  destruct b; [destruct vals|]; simpl; now rewrite IH.
Qed.

Lemma putmask_scalar_length {A} (a : list A) :
  forall mask v, length (np.putmask_scalar a mask v) = length a.
Proof.
  induction a as [|x a IH]; intros [|b mask] v; simpl; try reflexivity.
  now rewrite IH.
Qed.

(** A masked assignment whose mask and values are both computed
    elementwise from one array [s] is an elementwise choice. *)
Lemma putmask_map_nth {A B} (p : B -> bool) (g : B -> A) :
  forall (a : list A) (s : list B) (j : nat) (d : A) (ds : B),
    length a = length s -> (j < length a)%nat ->
    nth j (np.putmask a (map p s) (map g (np.compress (map p s) s))) d =
    if p (nth j s ds) then g (nth j s ds) else nth j a d.
Proof.
  induction a as [|x a IH]; intros [|y s] j d ds Hlen Hj; simpl in *; try lia.
  destruct (p y) eqn:Hp; simpl.
  - destruct j as [|j]; [now rewrite Hp|]. apply IH; lia.
  - destruct j as [|j]; [now rewrite Hp|]. apply IH; lia.
Qed.

Lemma putmask_scalar_map_nth {A B} (p : B -> bool) (v : A) :
  forall (a : list A) (s : list B) (j : nat) (d : A) (ds : B),
    length a = length s -> (j < length a)%nat ->
    nth j (np.putmask_scalar a (map p s) v) d =
    if p (nth j s ds) then v else nth j a d.
Proof.
  induction a as [|x a IH]; intros [|y s] j d ds Hlen Hj; simpl in *; try lia.
  destruct j as [|j]; [reflexivity|]. apply IH; lia.
Qed.

Lemma nth_repeat_in {A} (x d : A) (n j : nat) :
  (j < n)%nat -> nth j (repeat x n) d = x.
Proof.
  revert j; induction n as [|n IH]; intros [|j] Hj; simpl; try lia; try reflexivity.
  apply IH; lia.
Qed.

(** ** The axes *)

Lemma fftfreq_points (n : nat) :
  (Z.to_nat ((Z.of_nat n - 1) / 2 + 1) + n / 2 = n)%nat.
Proof.
  destruct n as [|n]; [reflexivity|].
  assert (H : ((Z.of_nat (S n) - 1) / 2 + 1 = Z.of_nat (S n) - Z.of_nat (S n / 2))%Z).
  { rewrite Nat2Z.inj_div. simpl (Z.of_nat 2).
    pose proof (Z.div_mod (Z.of_nat (S n)) 2 ltac:(lia)) as E1.
    pose proof (Z.mod_pos_bound (Z.of_nat (S n)) 2 ltac:(lia)) as B1.
    pose proof (Z.div_mod (Z.of_nat (S n) - 1) 2 ltac:(lia)) as E2.
    pose proof (Z.mod_pos_bound (Z.of_nat (S n) - 1) 2 ltac:(lia)) as B2.
    lia. }
  rewrite H.
  pose proof (Nat.Div0.div_le_upper_bound (S n) 2 (S n) ltac:(lia)).
  lia.
Qed.

Lemma map_seq_offset {B} (n : nat) :
  forall (f : nat -> B) a,
    map f (seq a n) = map (fun i => f (a + i)%nat) (seq 0 n).
Proof.
  induction n as [|n IH]; intros f a; simpl; [reflexivity|].
  f_equal; [f_equal; lia|].
  rewrite (IH f (S a)), (IH (fun i => f (a + i)%nat) 1%nat).
  apply map_ext; intros i; f_equal; lia.
Qed.

Lemma fftshift_fftfreq (n : nat) (d : R) :
  np.fftshift (np.fftfreq n d) =
  map (fun j => IZR (Z.of_nat j - Z.of_nat (n / 2)) * (1 / (INR n * d))) (seq 0 n).
Proof.
  pose proof (fftfreq_points n) as Hn.
  unfold np.fftshift, np.roll, np.fftfreq.
  set (N := Z.to_nat ((Z.of_nat n - 1) / 2 + 1)) in *.
  rewrite length_map, length_app, !length_map, !length_seq.
  replace (N + n / 2 - (N + n / 2) / 2)%nat with N by (rewrite Hn; lia).
  rewrite map_app, skipn_app, firstn_app, !length_map, length_seq, Nat.sub_diag.
  rewrite skipn_all2 by (rewrite !length_map, length_seq; lia).
  rewrite firstn_all2 by (rewrite !length_map, length_seq; lia).
  rewrite skipn_O, firstn_O, app_nil_r. cbn [app].
  replace (seq 0 n) with (seq 0 (n / 2) ++ seq (0 + n / 2) N)
    by (rewrite <- seq_app; f_equal; lia).
  rewrite map_app, !map_map. f_equal.
  rewrite (map_seq_offset N _ (0 + n / 2)%nat).
  apply map_ext; intros i. do 2 f_equal. lia.
Qed.

Lemma freq_axis_length (nns : nat) (fs : R) : length (freq_axis nns fs) = nns.
Proof. unfold freq_axis. now rewrite fftshift_fftfreq, length_map, length_seq. Qed.

Lemma knum_axis_length (nnx step : nat) (dx : R) :
  length (knum_axis nnx step dx) = nnx.
Proof. unfold knum_axis. now rewrite fftshift_fftfreq, length_map, length_seq. Qed.

Lemma freq_axis_nth (nns : nat) (fs : R) (j : nat) :
  (j < nns)%nat ->
  nth j (freq_axis nns fs) 0 =
  IZR (Z.of_nat j - Z.of_nat (nns / 2)) * (1 / (INR nns * (1 / fs))).
Proof.
  intros Hj. unfold freq_axis. rewrite fftshift_fftfreq.
  rewrite (nth_map_in _ _ _ _ 0%nat) by (now rewrite length_seq).
  now rewrite seq_nth.
Qed.


(** ** fk_filter_design, entry by entry *)

Lemma fk_filter_line_length freq k cs_min cp_min cp_max cs_max :
  length (fk_filter_line freq k cs_min cp_min cp_max cs_max) = length freq.
Proof.
  unfold fk_filter_line.
  rewrite !putmask_scalar_length, !putmask_length.
  apply repeat_length.
Qed.

Lemma fk_filter_line_nth freq k cs_min cp_min cp_max cs_max j :
  (j < length freq)%nat ->
  nth j (fk_filter_line freq k cs_min cp_min cp_max cs_max) 0 =
  fk_gain cs_min cp_min cp_max cs_max (Rabs (nth j freq 0 / k)).
Proof.
  intros Hj. unfold fk_filter_line, fk_gain.
  set (speed := map (fun f => Rabs (f / k)) freq).
  assert (Hs : length speed = length freq) by apply length_map.
  assert (Hn : nth j speed 0 = Rabs (nth j freq 0 / k))
    by (unfold speed; rewrite (nth_map_in _ _ _ _ 0) by exact Hj; reflexivity).
  rewrite (putmask_scalar_map_nth _ _ _ speed j 0 0)
    by (rewrite ?putmask_scalar_length, ?putmask_length; unfold np.ones;
        rewrite repeat_length; lia).
  rewrite (putmask_scalar_map_nth _ _ _ speed j 0 0)
    by (rewrite ?putmask_length; unfold np.ones; rewrite repeat_length; lia).
  rewrite (putmask_map_nth _ _ _ speed j 0 0)
    by (rewrite ?putmask_length; unfold np.ones; rewrite repeat_length; lia).
  rewrite (putmask_map_nth _ _ _ speed j 0 0)
    by (unfold np.ones; rewrite repeat_length; lia).
  unfold np.ones. rewrite nth_repeat_in by exact Hj.
  rewrite Hn. reflexivity.
Qed.

(** A loop that assigns row [i] at step [i] leaves, in every row it has
    visited, the row it assigned there. *)
Lemma fold_set_row (step : ndarray R -> nat -> ndarray R) (row : nat -> list R) :
  (forall M i, step M i = set_row M i (row i)) ->
  forall (n : nat) (M0 : ndarray R),
    shape (fold_left step (seq 0 n) M0) = shape M0 /\
    forall r c,
      item (fold_left step (seq 0 n) M0) r c =
      if (r <? n)%nat then nth c (row r) 0 else item M0 r c.
Proof.
  intros Hstep n M0. induction n as [|n [IHs IHi]].
  - split; [reflexivity|]. intros r c. reflexivity.
  - rewrite seq_S, fold_left_app. cbn [fold_left Nat.add].
    rewrite Hstep. split; [exact IHs|].
    intros r c. cbn [set_row item]. rewrite IHi.
    destruct (Nat.eqb_spec r n) as [->|Hne].
    + now rewrite (proj2 (Nat.ltb_lt n (S n))) by lia.
    + destruct (Nat.ltb_spec r n), (Nat.ltb_spec r (S n)); try lia; reflexivity.
Qed.

Lemma fk_filter_design_shape uninit nnx nns sel dx fs cs_min cp_min cp_max cs_max :
  shape (fk_filter_design uninit (nnx, nns) sel dx fs cs_min cp_min cp_max cs_max)
  = (nnx, nns).
Proof.
  destruct sel as [[start stop] step]. unfold fk_filter_design, range.
  rewrite Nat.sub_0_r.
  pose proof (fold_set_row
    (fun M i => if Rltb (Rabs (nth i (knum_axis nnx step dx) 0)) 0.005
                then set_row M i (np.zeros (length (freq_axis nns fs)))
                else set_row M i (fk_filter_line (freq_axis nns fs)
                       (nth i (knum_axis nnx step dx) 0) cs_min cp_min cp_max cs_max))
    (fun i => if Rltb (Rabs (nth i (knum_axis nnx step dx) 0)) 0.005
              then np.zeros (length (freq_axis nns fs))
              else fk_filter_line (freq_axis nns fs)
                     (nth i (knum_axis nnx step dx) 0) cs_min cp_min cp_max cs_max)) as H.
  match type of H with
  | ?P -> _ =>
      assert (Hp : P) by (intros M i'; cbv beta; destruct (Rltb _ _); reflexivity)
  end.
  destruct (H Hp
              (length (knum_axis nnx step dx))
              (mk_ndarray (length (knum_axis nnx step dx), length (freq_axis nns fs)) uninit))
    as [Hs _].
  rewrite Hs. cbn [shape]. now rewrite knum_axis_length, freq_axis_length.
Qed.

Lemma fk_filter_design_item uninit nnx nns start stop step dx fs
      cs_min cp_min cp_max cs_max i j :
  (i < nnx)%nat -> (j < nns)%nat ->
  item (fk_filter_design uninit (nnx, nns) (start, stop, step) dx fs
          cs_min cp_min cp_max cs_max) i j =
  if Rltb (Rabs (nth i (knum_axis nnx step dx) 0)) 0.005 then 0
  else fk_gain cs_min cp_min cp_max cs_max
         (Rabs (nth j (freq_axis nns fs) 0 / nth i (knum_axis nnx step dx) 0)).
Proof.
  intros Hi Hj. unfold fk_filter_design, range. rewrite Nat.sub_0_r.
  pose proof (fold_set_row
    (fun M i => if Rltb (Rabs (nth i (knum_axis nnx step dx) 0)) 0.005
                then set_row M i (np.zeros (length (freq_axis nns fs)))
                else set_row M i (fk_filter_line (freq_axis nns fs)
                       (nth i (knum_axis nnx step dx) 0) cs_min cp_min cp_max cs_max))
    (fun i => if Rltb (Rabs (nth i (knum_axis nnx step dx) 0)) 0.005
              then np.zeros (length (freq_axis nns fs))
              else fk_filter_line (freq_axis nns fs)
                     (nth i (knum_axis nnx step dx) 0) cs_min cp_min cp_max cs_max)) as H.
  match type of H with
  | ?P -> _ =>
      assert (Hp : P) by (intros M i'; cbv beta; destruct (Rltb _ _); reflexivity)
  end.
  destruct (H Hp
              (length (knum_axis nnx step dx))
              (mk_ndarray (length (knum_axis nnx step dx), length (freq_axis nns fs)) uninit))
    as [_ Hit].
  rewrite Hit, knum_axis_length.
  rewrite (proj2 (Nat.ltb_lt i nnx)) by exact Hi.
  destruct (Rltb _ _).
  - unfold np.zeros. apply nth_repeat_in. now rewrite freq_axis_length.
  - apply fk_filter_line_nth. now rewrite freq_axis_length.
Qed.

(** ** The gain of the rectangular mask lies in the unit interval *)

Lemma half_sine_arg_bounds (a b s : R) :
  a < b -> a <= s <= b ->
  0 <= 0.5 * PI * (s - a) / (b - a) <= PI / 2.
Proof.
  intros Hab [Has Hsb]. pose proof PI_RGT_0 as Hpi.
  assert (Ht : 0 <= (s - a) / (b - a) <= 1).
  { split.
    - apply Rmult_le_pos; [lra|]. left. apply Rinv_0_lt_compat. lra.
    - apply Rmult_le_reg_r with (b - a); [lra|]. field_simplify; lra. }
  replace 0.5 with (1 / 2) by lra.
  replace (1 / 2 * PI * (s - a) / (b - a)) with (PI / 2 * ((s - a) / (b - a)))
    by (field; lra).
  split; nra.
Qed.

Lemma half_sine_bounds (a b s : R) :
  a < b -> a <= s <= b ->
  0 <= sin (0.5 * PI * (s - a) / (b - a)) <= 1.
Proof.
  intros Hab Hs. pose proof PI_RGT_0 as Hpi.
  destruct (half_sine_arg_bounds a b s Hab Hs) as [H0 H1].
  split; [apply sin_ge_0; lra | apply SIN_bound].
Qed.

Lemma andb_Rgeb_Rleb (s a b : R) :
  Rgeb s a && Rleb s b = true <-> a <= s <= b.
Proof.
  rewrite andb_true_iff, Rgeb_true_iff, Rleb_true_iff. tauto.
Qed.

Lemma fk_gain_bounds (cs_min cp_min cp_max cs_max s : R) :
  cs_min < cp_min -> cp_max < cs_max ->
  0 <= fk_gain cs_min cp_min cp_max cs_max s <= 1.
Proof.
  intros Hlo Hhi. unfold fk_gain.
  destruct (Rltb s cs_min); [lra|].
  destruct (Rgeb s cs_max); [lra|].
  destruct (Rgeb s cp_max && Rleb s cs_max) eqn:Hdown.
  - apply andb_Rgeb_Rleb in Hdown.
    pose proof (half_sine_bounds cp_max cs_max s Hhi Hdown). lra.
  - destruct (Rgeb s cs_min && Rleb s cp_min) eqn:Hup.
    + apply andb_Rgeb_Rleb in Hup. now apply half_sine_bounds.
    + lra.
Qed.

(** C1.  For every trace shape, channel selection, [dx], [fs] and speed
    band with [cs_min <= cp_min <= cp_max <= cs_max], [cs_min < cp_min]
    and [cp_max < cs_max], every entry of the mask that
    [fk_filter_design] returns lies in the closed interval [[0, 1]]. *)
Theorem fk_filter_design_unit_interval
    (uninit : nat -> nat -> R) (nnx nns start stop step : nat)
    (dx fs cs_min cp_min cp_max cs_max : R) (i j : nat) :
  cs_min <= cp_min -> cp_min <= cp_max -> cp_max <= cs_max ->
  cs_min < cp_min -> cp_max < cs_max ->
  (i < nnx)%nat -> (j < nns)%nat ->
  0 <= item (fk_filter_design uninit (nnx, nns) (start, stop, step) dx fs
               cs_min cp_min cp_max cs_max) i j <= 1.
Proof.
  intros _ _ _ Hlo Hhi Hi Hj.
  rewrite fk_filter_design_item by assumption.
  destruct (Rltb _ _); [lra|].
  now apply fk_gain_bounds.
Qed.

Lemma fk_filter_design_unit_interval_witness :
  0 <= item (fk_filter_design (fun _ _ => 7) (4, 8)%nat (0, 4, 1)%nat 1 10
               1400 1450 3400 3500) 0 3 <= 1.
Proof.
  apply (fk_filter_design_unit_interval (fun _ _ => 7) 4 8 0 4 1 1 10
           1400 1450 3400 3500 0 3); try lra; lia.
Defined.

(** ** The scenario mask, evaluated *)

Lemma scenario_knum : knum_axis 4 1 1 = [-1/2; -1/4; 0; 1/4].
Proof.
  unfold knum_axis. rewrite fftshift_fftfreq. cbn [seq map].
  repeat (apply (f_equal2 cons); [simpl; lra|]). reflexivity.
Qed.

Lemma scenario_freq :
  freq_axis 8 10 = [-5; -15/4; -5/2; -5/4; 0; 5/4; 5/2; 15/4].
Proof.
  unfold freq_axis. rewrite fftshift_fftfreq. cbn [seq map].
  repeat (apply (f_equal2 cons); [simpl; lra|]). reflexivity.
Qed.

Ltac eval_Rabs :=
  repeat match goal with
  | |- context [Rabs ?x] =>
      first [ rewrite (Rabs_pos_eq x) by lra | rewrite (Rabs_left1 x) by lra ]
  end.

Ltac eval_cmp :=
  unfold Rgeb, Rgtb, Rleb, Rltb, Reqb;
  repeat match goal with
  | |- context [Rle_dec ?a ?b] =>
      destruct (Rle_dec a b); try (exfalso; lra)
  | |- context [Rlt_dec ?a ?b] =>
      destruct (Rlt_dec a b); try (exfalso; lra)
  | |- context [Req_dec_T ?a ?b] =>
      destruct (Req_dec_T a b); try (exfalso; lra)
  end;
  cbn [andb].

Ltac eval_np :=
  cbn [map np.compress np.putmask np.putmask_scalar np.argmax np.zeros_like
       np.zeros np.ones existsb nth length repeat negb andb orb].

Lemma scenario_mask_entries (uninit : nat -> nat -> R) (i j : nat) :
  (i < 4)%nat -> (j < 8)%nat ->
  item (scenario_mask uninit) i j =
  if ((i =? 0) && ((j =? 3) || (j =? 5)))%nat then 1 else 0.
Proof.
  intros Hi Hj. unfold scenario_mask.
  rewrite fk_filter_design_item by assumption.
  rewrite scenario_knum, scenario_freq.
  destruct i as [|[|[|[|i]]]]; try lia;
  destruct j as [|[|[|[|[|[|[|[|j]]]]]]]]; try lia;
  cbn [nth Nat.eqb andb orb]; unfold fk_gain; eval_Rabs; eval_cmp; reflexivity.
Qed.

(** ** Rows of small wavenumber, and where the gain is fractional *)

Lemma fk_gain_fractional (cs_min cp_min cp_max cs_max s : R) :
  cs_min < cp_min -> cp_max < cs_max ->
  0 < fk_gain cs_min cp_min cp_max cs_max s < 1 ->
  cs_min < s < cp_min \/ cp_max < s < cs_max.
Proof.
  intros Hlo Hhi. unfold fk_gain.
  destruct (Rltb s cs_min) eqn:H1; [lra|].
  destruct (Rgeb s cs_max) eqn:H2; [lra|].
  apply Rltb_false_iff in H1. apply Rgeb_false_iff in H2.
  destruct (Rgeb s cp_max && Rleb s cs_max) eqn:Hdown.
  - apply andb_Rgeb_Rleb in Hdown. intros Hv. right.
    destruct (Req_dec s cp_max) as [->|Hne]; [|lra].
    replace (0.5 * PI * (cp_max - cp_max) / (cs_max - cp_max)) with 0 in Hv
      by (unfold Rdiv; ring).
    rewrite sin_0 in Hv. lra.
  - destruct (Rgeb s cs_min && Rleb s cp_min) eqn:Hup; [|lra].
    apply andb_Rgeb_Rleb in Hup. intros Hv. left.
    destruct (Req_dec s cs_min) as [->|Hne1].
    { replace (0.5 * PI * (cs_min - cs_min) / (cp_min - cs_min)) with 0 in Hv
        by (unfold Rdiv; ring).
      rewrite sin_0 in Hv. lra. }
    destruct (Req_dec s cp_min) as [->|Hne2]; [|lra].
    replace (0.5 * PI * (cp_min - cs_min) / (cp_min - cs_min)) with (PI / 2) in Hv
      by (replace 0.5 with (1 / 2) by lra; field; lra).
    rewrite sin_PI2 in Hv. lra.
Qed.

(** C8 (amended).  A row whose wavenumber satisfies [|k_i| < 0.005] is
    entirely zero, whatever the speeds are, and for [cs_min < cp_min]
    and [cp_max < cs_max] an entry strictly between 0 and 1 occurs only
    where the speed [|f/k|] lies in one of the two transition bands
    [(cs_min, cp_min)] and [(cp_max, cs_max)].  In the scenario (shape
    (4, 8), [fs = 10], [dx = 1], [step = 1], speeds 1, 2, 3, 4) the mask
    is 1 at the entries (0, 3) and (0, 5) and 0 everywhere else: the row
    of wavenumber 0 is zero, and so are rows 1 and 3, of wavenumber
    -0.25 and 0.25. *)
Theorem fk_filter_design_small_wavenumber_rows :
  (forall uninit nnx nns start stop step dx fs cs_min cp_min cp_max cs_max i j,
      (i < nnx)%nat -> (j < nns)%nat ->
      let mask := fk_filter_design uninit (nnx, nns) (start, stop, step) dx fs
                    cs_min cp_min cp_max cs_max in
      let k := nth i (knum_axis nnx step dx) 0 in
      let f := nth j (freq_axis nns fs) 0 in
      (Rabs k < 0.005 -> item mask i j = 0) /\
      (cs_min < cp_min -> cp_max < cs_max -> 0 < item mask i j < 1 ->
       cs_min < Rabs (f / k) < cp_min \/ cp_max < Rabs (f / k) < cs_max)) /\
  (forall uninit i j,
      (i < 4)%nat -> (j < 8)%nat ->
      item (scenario_mask uninit) i j =
      if ((i =? 0) && ((j =? 3) || (j =? 5)))%nat then 1 else 0).
Proof.
  split; [|exact scenario_mask_entries].
  intros uninit nnx nns start stop step dx fs cs_min cp_min cp_max cs_max i j
         Hi Hj mask k f.
  unfold mask. rewrite fk_filter_design_item by assumption. fold k f.
  split.
  - intros Hk. now rewrite (proj2 (Rltb_true_iff _ _) Hk).
  - intros Hlo Hhi. destruct (Rltb (Rabs k) 0.005); [lra|].
    now apply fk_gain_fractional.
Qed.

Lemma fk_filter_design_small_wavenumber_rows_witness :
  item (fk_filter_design (fun _ _ => 7) (4, 8)%nat (0, 4, 1)%nat 1 10 1 2 3 4)
       2 0 = 0.
Proof.
  refine (proj1 (proj1 fk_filter_design_small_wavenumber_rows
                   (fun _ _ => 7) 4%nat 8%nat 0%nat 4%nat 1%nat 1 10 1 2 3 4
                   2%nat 0%nat _ _) _);
    try lia.
  rewrite scenario_knum. cbn [nth]. rewrite Rabs_R0. lra.
Defined.

(** C8, as stated, fails in its scenario: the rows that are entirely
    zero are not exactly the rows with [|k| < 0.005].  Row 1 is zero and
    its wavenumber is -0.25. *)
Lemma scenario_zero_rows_not_only_small_wavenumber :
  ~ (forall i, (i < 4)%nat ->
       ((forall j, (j < 8)%nat -> item (scenario_mask (fun _ _ => 7)) i j = 0) <->
        Rabs (nth i (knum_axis 4 1 1) 0) < 0.005)).
Proof.
  intros H. destruct (H 1%nat ltac:(lia)) as [Hzero _].
  assert (Hk : Rabs (nth 1 (knum_axis 4 1 1) 0) < 0.005).
  { apply Hzero. intros j Hj.
    rewrite scenario_mask_entries by (try lia; exact Hj). reflexivity. }
  rewrite scenario_knum in Hk. cbn [nth] in Hk.
  rewrite Rabs_left1 in Hk by lra. lra.
Qed.

(** ** Point symmetry of the rectangular mask *)

Lemma mirror_lt (n i : nat) :
  (i < n)%nat -> (Nat.even n = true -> 1 <= i)%nat -> (mirror n i < n)%nat.
Proof.
  intros Hi He. unfold mirror. destruct (Nat.even n); [specialize (He eq_refl)|]; lia.
Qed.





(** ** Sparse masks *)

Lemma from_numpy_getitem (a : ndarray R) (i j : nat) :
  sparse.getitem (sparse.from_numpy a) i j =
  if ((i <? nrows a) && (j <? ncols a))%nat then item a i j else 0.
Proof.
  unfold sparse.getitem, sparse.from_numpy. cbn [sparse.coo_entries sparse.fill_value].
  set (entries := flat_map _ _).
  assert (Hin : forall e, In e entries <->
            exists i' j', (i' < nrows a)%nat /\ (j' < ncols a)%nat /\
                          item a i' j' <> 0 /\ e = (i', j', item a i' j')).
  { intros e. unfold entries. rewrite in_flat_map. split.
    - intros [i' [Hi' He]]. apply in_flat_map in He. destruct He as [j' [Hj' He]].
      apply in_seq in Hi'. apply in_seq in Hj'.
      unfold Reqb in He. destruct (Req_dec_T (item a i' j') 0) as [E|E].
      + destruct He.
      + destruct He as [<-|[]]. exists i', j'. repeat split; try lia. exact E.
    - intros [i' [j' [Hi' [Hj' [Hne ->]]]]]. exists i'. split; [apply in_seq; lia|].
      apply in_flat_map. exists j'. split; [apply in_seq; lia|].
      unfold Reqb. destruct (Req_dec_T (item a i' j') 0); [contradiction|].
      now left. }
  destruct (find (sparse.at_coord i j) entries) as [e|] eqn:Hf.
  - apply find_some in Hf. destruct Hf as [He Hc].
    apply Hin in He. destruct He as [i' [j' [Hi' [Hj' [_ ->]]]]].
    unfold sparse.at_coord in Hc. cbn [fst snd] in Hc.
    apply andb_true_iff in Hc. destruct Hc as [Hc1 Hc2].
    apply Nat.eqb_eq in Hc1. apply Nat.eqb_eq in Hc2. subst i' j'.
    rewrite (proj2 (Nat.ltb_lt _ _) Hi'), (proj2 (Nat.ltb_lt _ _) Hj').
    reflexivity.
  - destruct (Nat.ltb_spec i (nrows a)) as [Hi|Hi]; [|reflexivity].
    destruct (Nat.ltb_spec j (ncols a)) as [Hj|Hj]; [|reflexivity].
    cbn [andb]. destruct (Req_dec (item a i j) 0) as [E|E]; [now rewrite E|].
    pose proof (find_none _ _ Hf (i, j, item a i j)) as Hn.
    rewrite Hin in Hn. unfold sparse.at_coord in Hn. cbn [fst snd] in Hn.
    rewrite !Nat.eqb_refl in Hn. cbn [andb] in Hn.
    assert (true = false); [|discriminate].
    apply Hn. exists i, j. repeat split; assumption.
Qed.

(** ** The loop over the columns of the passband *)

Lemma fold_mul_col (col : nat -> list R) (n : nat) :
  forall (a : nat) (M0 : ndarray R),
    let M := fold_left (fun M i => mul_col M i (col i)) (seq a n) M0 in
    shape M = shape M0 /\
    forall r c,
      item M r c =
      if ((a <=? c) && (c <? a + n))%nat
      then item M0 r c * nth r (col c) 0 else item M0 r c.
Proof.
  induction n as [|n IH]; intros a M0 M; subst M.
  - split; [reflexivity|]. intros r c. cbn [seq fold_left].
    destruct (Nat.leb_spec a c), (Nat.ltb_spec c (a + 0)); try lia; reflexivity.
  - rewrite seq_S, fold_left_app. cbn [fold_left].
    destruct (IH a M0) as [IHs IHi]. split; [exact IHs|].
    intros r c. cbn [mul_col item]. rewrite IHi.
    destruct (Nat.eqb_spec c (a + n)) as [->|Hne].
    + rewrite (proj2 (Nat.leb_le a (a + n))) by lia.
      rewrite (proj2 (Nat.ltb_ge (a + n) (a + n))) by lia.
      rewrite (proj2 (Nat.ltb_lt (a + n) (a + S n))) by lia.
      reflexivity.
    + destruct (Nat.leb_spec a c), (Nat.ltb_spec c (a + n)),
        (Nat.ltb_spec c (a + S n)); try lia; reflexivity.
Qed.

(** ** The frequency response [H] *)

Lemma hybrid_H_length freq fmin fmax :
  length (hybrid_H freq fmin fmax) = length freq.
Proof.
  unfold hybrid_H. rewrite putmask_length, putmask_scalar_length, putmask_length.
  apply repeat_length.
Qed.

Lemma hybrid_H_nth freq fmin fmax j :
  (j < length freq)%nat ->
  nth j (hybrid_H freq fmin fmax) 0 =
  let f := nth j freq 0 in
  if Rgeb f fmax && Rleb f (fmax + 4) then
    cos (0.5 * PI * (f - fmax) / (fmax - (fmax + 4)))
  else if Rgeb f fmin && Rleb f fmax then 1
  else if Rgeb f (fmin - 4) && Rleb f fmin then
    sin (0.5 * PI * (f - (fmin - 4)) / (fmin - (fmin - 4)))
  else 0.
Proof.
  intros Hj. unfold hybrid_H, np.zeros_like, np.zeros.
  rewrite (putmask_map_nth _ _ _ freq j 0 0)
    by (rewrite ?putmask_scalar_length, ?putmask_length, repeat_length; lia).
  rewrite (putmask_scalar_map_nth _ _ _ freq j 0 0)
    by (rewrite ?putmask_length, repeat_length; lia).
  rewrite (putmask_map_nth _ _ _ freq j 0 0)
    by (rewrite repeat_length; lia).
  rewrite nth_repeat_in by exact Hj.
  reflexivity.
Qed.

Lemma hybrid_H_zero_outside freq fmin fmax j :
  fmin <= fmax + 4 ->
  (j < length freq)%nat ->
  nth j freq 0 < fmin - 4 \/ fmax + 4 < nth j freq 0 ->
  nth j (hybrid_H freq fmin fmax) 0 = 0.
Proof.
  intros Hband Hj Hout. rewrite hybrid_H_nth by exact Hj. cbv zeta.
  set (f := nth j freq 0) in *.
  destruct (Rgeb f fmax && Rleb f (fmax + 4)) eqn:H1;
    [apply andb_Rgeb_Rleb in H1; lra|].
  destruct (Rgeb f fmin && Rleb f fmax) eqn:H2;
    [apply andb_Rgeb_Rleb in H2; lra|].
  destruct (Rgeb f (fmin - 4) && Rleb f fmin) eqn:H3;
    [apply andb_Rgeb_Rleb in H3; lra|].
  reflexivity.
Qed.

(** ** hybrid_filter_design: the columns outside the band *)

Lemma hybrid_filter_dense_shape nnx nns sel dx fs cs_min cp_min fmin fmax :
  shape (hybrid_filter_dense (nnx, nns) sel dx fs cs_min cp_min fmin fmax)
  = (nnx, nns).
Proof.
  destruct sel as [[start stop] step]. unfold hybrid_filter_dense, range.
  cbn [iadd shape].
  match goal with
  | |- shape (fold_left _ (seq ?a ?n) ?M0) = _ =>
      destruct (fold_mul_col
        (fun i => hybrid_filter_col (knum_axis nnx step dx)
                    (nth i (freq_axis nns fs) 0) cs_min cp_min) n a M0) as [Hs _]
  end.
  rewrite Hs. cbn [np.tile shape].
  now rewrite knum_axis_length, hybrid_H_length, freq_axis_length.
Qed.

(** The symmetrised matrix is the matrix of the loop plus its mirror, and
    the loop multiplies a column of [H] by a gain or leaves it. *)
Lemma hybrid_filter_dense_item nnx nns start stop step dx fs cs_min cp_min fmin fmax r c :
  let freq := freq_axis nns fs in
  let knum := knum_axis nnx step dx in
  let H := hybrid_H freq fmin fmax in
  let fmin_idx := np.argmax (map (fun f => Rgeb f (fmin - 4)) freq) in
  let fmax_idx := np.argmax (map (fun f => Rgeb f (fmax + 4)) freq) in
  let looped c :=
    if ((fmin_idx <=? c) && (c <? fmin_idx + (fmax_idx - fmin_idx)))%nat
    then nth c H 0 * nth r (hybrid_filter_col knum (nth c freq 0) cs_min cp_min) 0
    else nth c H 0 in
  item (hybrid_filter_dense (nnx, nns) (start, stop, step) dx fs
          cs_min cp_min fmin fmax) r c =
  looped c + looped (nns - 1 - c)%nat.
Proof.
  intros freq knum H fmin_idx fmax_idx looped.
  unfold hybrid_filter_dense, range. fold freq knum H fmin_idx fmax_idx.
  cbn [iadd item np.fliplr].
  destruct (fold_mul_col
    (fun i => hybrid_filter_col knum (nth i freq 0) cs_min cp_min)
    (fmax_idx - fmin_idx) fmin_idx (np.tile H (length knum))) as [Hs Hi].
  cbv zeta in Hs, Hi. unfold ncols. rewrite Hs, !Hi.
  cbn [np.tile shape snd item].
  replace (length H) with nns
    by (unfold H, freq; now rewrite hybrid_H_length, freq_axis_length).
  reflexivity.
Qed.

(** C6 (amended).  For a band with [fmin <= fmax + taper_width]
    (taper_width = 4 Hz), in particular for every band with
    [fmin <= fmax]: if the frequency of column [j] and the frequency of
    its mirror column [ns - 1 - j] both lie strictly outside
    [[fmin - taper_width, fmax + taper_width]], every entry of column
    [j] of the mask returned by [hybrid_filter_design] is zero. *)
Theorem hybrid_filter_design_zero_columns
    (nnx nns start stop step : nat) (dx fs cs_min cp_min fmin fmax : R)
    (j : nat) :
  fmin <= fmax + 4 ->
  (j < nns)%nat ->
  nth j (freq_axis nns fs) 0 < fmin - 4 \/
    fmax + 4 < nth j (freq_axis nns fs) 0 ->
  nth (nns - 1 - j) (freq_axis nns fs) 0 < fmin - 4 \/
    fmax + 4 < nth (nns - 1 - j) (freq_axis nns fs) 0 ->
  forall i,
    sparse.getitem
      (hybrid_filter_design (nnx, nns) (start, stop, step) dx fs
         cs_min cp_min fmin fmax) i j = 0.
Proof.
  intros Hband Hj Hout Hmir i. unfold hybrid_filter_design.
  rewrite from_numpy_getitem. destruct (_ && _)%bool; [|reflexivity].
  rewrite hybrid_filter_dense_item. cbv zeta.
  rewrite (hybrid_H_zero_outside _ fmin fmax j)
    by (rewrite ?freq_axis_length; assumption).
  rewrite (hybrid_H_zero_outside _ fmin fmax (nns - 1 - j))
    by (rewrite ?freq_axis_length; try assumption; lia).
  repeat match goal with |- context [if ?b then _ else _] => destruct b end; ring.
Qed.

Lemma freq_5_100 : freq_axis 5 100 = [-40; -20; 0; 20; 40].
Proof.
  unfold freq_axis. rewrite fftshift_fftfreq. cbn [seq map].
  repeat (apply (f_equal2 cons); [simpl; lra|]). reflexivity.
Qed.

Lemma knum_1 : knum_axis 1 1 1 = [0].
Proof.
  unfold knum_axis. rewrite fftshift_fftfreq. cbn [seq map].
  repeat (apply (f_equal2 cons); [simpl; lra|]). reflexivity.
Qed.

Lemma hybrid_filter_design_zero_columns_witness :
  sparse.getitem
    (hybrid_filter_design (1, 5)%nat (0, 1, 1)%nat 1 100 1400 1450 15 25) 0 2 = 0.
Proof.
  refine (hybrid_filter_design_zero_columns 1 5 0 1 1 1 100 1400 1450 15 25 2
            _ _ _ _ 0%nat).
  - lra.
  - lia.
  - rewrite freq_5_100. cbn [nth]. left. lra.
  - rewrite freq_5_100. cbn [Nat.sub nth]. left. lra.
Defined.

(** C6, as stated, fails: the symmetrisation copies the passband to the
    negative frequencies.  For trace shape (1, 5), [fs = 100] and the
    default band, column 1 has frequency -20 Hz, strictly outside
    [[11, 29]], and its entry is 1. *)
Lemma hybrid_filter_design_negative_frequency_image :
  nth 1 (freq_axis 5 100) 0 < 15 - 4 /\
  sparse.getitem
    (hybrid_filter_design (1, 5)%nat (0, 1, 1)%nat 1 100 1400 1450 15 25) 0 1 = 1.
Proof.
  split; [rewrite freq_5_100; cbn [nth]; lra|].
  unfold hybrid_filter_design. rewrite from_numpy_getitem.
  unfold nrows, ncols. rewrite hybrid_filter_dense_shape. cbn [fst snd Nat.ltb Nat.leb andb].
  rewrite hybrid_filter_dense_item. cbv zeta.
  rewrite !hybrid_H_nth by (rewrite freq_axis_length; simpl; lia).
  rewrite freq_5_100, knum_1. cbv zeta.
  assert (A1 : np.argmax (map (fun f => Rgeb f (15 - 4)) [-40; -20; 0; 20; 40]) = 3%nat).
  { eval_np. eval_cmp. reflexivity. }
  assert (A2 : np.argmax (map (fun f => Rgeb f (25 + 4)) [-40; -20; 0; 20; 40]) = 4%nat).
  { eval_np. eval_cmp. reflexivity. }
  assert (A3 : nth 0 (hybrid_filter_col [0] 20 1400 1450) 0 = 1).
  { unfold hybrid_filter_col. eval_np. eval_cmp. eval_np. reflexivity. }
  rewrite A1, A2. cbn [Nat.sub Nat.add Nat.leb Nat.ltb andb nth].
  rewrite A3. eval_cmp. ring.
Qed.

(** ** hybrid_gs_filter_design before the smoothing *)

Lemma putmask_scalar_zeros_01 (n : nat) :
  forall (mask : list bool) (j : nat),
    nth j (np.putmask_scalar (repeat 0 n) mask 1) 0 = 0 \/
    nth j (np.putmask_scalar (repeat 0 n) mask 1) 0 = 1.
Proof.
  induction n as [|n IH]; intros mask j.
  - left. cbn [repeat]. destruct mask, j; reflexivity.
  - cbn [repeat]. destruct mask as [|b mask].
    + left. cbn [np.putmask_scalar].
      destruct j as [|j]; [reflexivity|].
      cbn [nth]. destruct (Nat.ltb_spec j n) as [Hj|Hj].
      * now apply nth_repeat_in.
      * apply nth_overflow. now rewrite repeat_length.
    + cbn [np.putmask_scalar]. destruct j as [|j]; cbn [nth].
      * destruct b; [now right | now left].
      * apply IH.
Qed.

(** The ramp index sets are dropped: the column is the passband
    assignment alone, whatever [cs_min] is. *)
Lemma hybrid_gs_filter_col_passband_only (knum : list R) (f cs_min cp_min : R) :
  hybrid_gs_filter_col knum f cs_min cp_min =
  np.putmask_scalar (np.zeros_like knum)
    (map (fun k => Rltb k (f / cp_min) && Rgtb k (- (f / cp_min))) knum) 1.
Proof.
  unfold hybrid_gs_filter_col. cbv zeta.
  destruct (negb (Reqb (f / cs_min) (f / cp_min))); reflexivity.
Qed.

Lemma fold_left_pointwise {A B} (f g : A -> B -> A) :
  (forall a b, f a b = g a b) ->
  forall l a, fold_left f l a = fold_left g l a.
Proof.
  intros Hfg l. induction l as [|b l IH]; intros a; cbn [fold_left];
    [reflexivity|]. now rewrite Hfg, IH.
Qed.

Lemma hybrid_gs_loop_item nnx nns start stop step dx fs cs_min cp_min fmin fmax r c :
  let freq := freq_axis nns fs in
  let knum := knum_axis nnx step dx in
  let H := np.putmask_scalar (np.zeros_like freq)
             (map (fun f => Rgeb f fmin && Rleb f fmax) freq) 1 in
  let fmin_idx := np.argmax (map (fun f => Rgeb f (fmin - 4)) freq) in
  let fmax_idx := np.argmax (map (fun f => Rgeb f (fmax + 4)) freq) in
  item (hybrid_gs_loop (nnx, nns) (start, stop, step) dx fs
          cs_min cp_min fmin fmax) r c =
  if ((fmin_idx <=? c) && (c <? fmin_idx + (fmax_idx - fmin_idx)))%nat
  then nth c H 0 * nth r (hybrid_gs_filter_col knum (nth c freq 0) cs_min cp_min) 0
  else nth c H 0.
Proof.
  intros freq knum H fmin_idx fmax_idx.
  unfold hybrid_gs_loop, range. fold freq knum H fmin_idx fmax_idx.
  destruct (fold_mul_col
    (fun i => hybrid_gs_filter_col knum (nth i freq 0) cs_min cp_min)
    (fmax_idx - fmin_idx) fmin_idx (np.tile H (length knum))) as [_ Hi].
  cbv zeta in Hi. rewrite Hi. reflexivity.
Qed.

Lemma hybrid_gs_loop_shape nnx nns sel dx fs cs_min cp_min fmin fmax :
  shape (hybrid_gs_loop (nnx, nns) sel dx fs cs_min cp_min fmin fmax) = (nnx, nns).
Proof.
  destruct sel as [[start stop] step]. unfold hybrid_gs_loop, range.
  match goal with
  | |- shape (fold_left _ (seq ?a ?n) ?M0) = _ =>
      destruct (fold_mul_col
        (fun i => hybrid_gs_filter_col (knum_axis nnx step dx)
                    (nth i (freq_axis nns fs) 0) cs_min cp_min) n a M0) as [Hs _]
  end.
  rewrite Hs. cbn [np.tile shape].
  rewrite knum_axis_length, putmask_scalar_length. unfold np.zeros_like, np.zeros.
  now rewrite repeat_length, freq_axis_length.
Qed.

Lemma hybrid_gs_loop_01 nnx nns sel dx fs cs_min cp_min fmin fmax r c :
  item (hybrid_gs_loop (nnx, nns) sel dx fs cs_min cp_min fmin fmax) r c = 0 \/
  item (hybrid_gs_loop (nnx, nns) sel dx fs cs_min cp_min fmin fmax) r c = 1.
Proof.
  destruct sel as [[start stop] step].
  rewrite hybrid_gs_loop_item. cbv zeta.
  rewrite hybrid_gs_filter_col_passband_only.
  unfold np.zeros_like, np.zeros.
  match goal with
  | |- context [nth c (np.putmask_scalar (repeat 0 ?n) ?m 1) 0] =>
      destruct (putmask_scalar_zeros_01 n m c) as [-> | ->]
  end;
  match goal with
  | |- context [nth r (np.putmask_scalar (repeat 0 ?n) ?m 1) 0] =>
      destruct (putmask_scalar_zeros_01 n m r) as [-> | ->]
  end;
  destruct (_ && _)%bool; lra.
Qed.

(** C10 (amended).  In [hybrid_gs_filter_design], for all inputs with
    [cs_min <> cp_min], the ramp index sets computed inside the loop
    assign nothing to the filter column: the matrix does not depend on
    [cs_min], every entry of the matrix that the loop leaves is exactly
    0 or exactly 1, and every entry of the mask before the Gaussian
    smoothing step, which is that matrix plus its left-right mirror, is
    exactly 0, 1 or 2.  No fractional half-sine value exists before the
    smoothing. *)
Theorem hybrid_gs_presmooth_values
    (nnx nns start stop step : nat) (dx fs cs_min cp_min fmin fmax : R) :
  cs_min <> cp_min ->
  (forall cs_min',
      hybrid_gs_loop (nnx, nns) (start, stop, step) dx fs cs_min' cp_min fmin fmax =
      hybrid_gs_loop (nnx, nns) (start, stop, step) dx fs cs_min cp_min fmin fmax) /\
  (forall i j,
      let v := item (hybrid_gs_loop (nnx, nns) (start, stop, step) dx fs
                       cs_min cp_min fmin fmax) i j in
      v = 0 \/ v = 1) /\
  (forall i j,
      let v := item (hybrid_gs_presmooth (nnx, nns) (start, stop, step) dx fs
                       cs_min cp_min fmin fmax) i j in
      v = 0 \/ v = 1 \/ v = 2).
Proof.
  intros _. split; [|split].
  - intros cs_min'. unfold hybrid_gs_loop.
    apply fold_left_pointwise. intros M i.
    now rewrite !hybrid_gs_filter_col_passband_only.
  - intros i j. apply hybrid_gs_loop_01.
  - intros i j v. subst v. unfold hybrid_gs_presmooth. cbn [iadd item np.fliplr].
    match goal with
    | |- context [item ?L i j + item ?L i ?j'] =>
        destruct (hybrid_gs_loop_01 nnx nns (start, stop, step) dx fs
                    cs_min cp_min fmin fmax i j) as [-> | ->];
        destruct (hybrid_gs_loop_01 nnx nns (start, stop, step) dx fs
                    cs_min cp_min fmin fmax i j') as [-> | ->]
    end; lra.
Qed.

Lemma hybrid_gs_presmooth_values_witness :
  let v := item (hybrid_gs_presmooth (2, 5)%nat (0, 2, 1)%nat 1 50
                   1400 1450 0 25) 0 2 in
  v = 0 \/ v = 1 \/ v = 2.
Proof.
  refine (proj2 (proj2 (hybrid_gs_presmooth_values 2 5 0 2 1 1 50
                          1400 1450 0 25 _)) 0%nat 2%nat).
  lra.
Defined.

Lemma freq_5_50 : freq_axis 5 50 = [-20; -10; 0; 10; 20].
Proof.
  unfold freq_axis. rewrite fftshift_fftfreq. cbn [seq map].
  repeat (apply (f_equal2 cons); [simpl; lra|]). reflexivity.
Qed.

(** C10, as stated, fails after the symmetrisation: for trace shape
    (2, 5), [fs = 50], [fmin = 0] and [fmax = 25] the entry (0, 2) of the
    mask before the smoothing is 2.  No frequency reaches [fmax + 4], so
    [fmax_idx] is 0 and the loop is empty; the column of frequency 0 is
    in the passband and is its own mirror. *)
Lemma hybrid_gs_presmooth_entry_two :
  1400 <> 1450 /\
  item (hybrid_gs_presmooth (2, 5)%nat (0, 2, 1)%nat 1 50 1400 1450 0 25) 0 2 = 2.
Proof.
  split; [lra|].
  unfold hybrid_gs_presmooth. cbn [iadd item np.fliplr].
  unfold ncols. rewrite hybrid_gs_loop_shape. cbn [snd Nat.sub].
  rewrite hybrid_gs_loop_item. cbv zeta. rewrite freq_5_50.
  assert (A1 : np.argmax (map (fun f => Rgeb f (0 - 4)) [-20; -10; 0; 10; 20]) = 2%nat).
  { eval_np. eval_cmp. reflexivity. }
  assert (A2 : np.argmax (map (fun f => Rgeb f (25 + 4)) [-20; -10; 0; 10; 20]) = 0%nat).
  { eval_np. eval_cmp. reflexivity. }
  rewrite A1, A2. cbn [Nat.sub Nat.add Nat.leb Nat.ltb andb].
  eval_np. eval_cmp. lra.
Qed.

(** ** Complex numbers and finite sums *)

Lemma complex_eq (a b : complex) : fst a = fst b -> snd a = snd b -> a = b.
Proof. destruct a, b; cbn [fst snd]; intros -> ->; reflexivity. Qed.

Ltac csimp := unfold Cadd, Cmul, RtoC, C0, C1, cis, Cre, Cim in *; cbn [fst snd] in *.
Ltac cring := apply complex_eq; csimp; ring.

Lemma Cadd_0_l (a : complex) : Cadd C0 a = a.
Proof. cring. Qed.

Lemma Cadd_0_r (a : complex) : Cadd a C0 = a.
Proof. cring. Qed.

Lemma Cmul_0_l (a : complex) : Cmul C0 a = C0.
Proof. cring. Qed.

Lemma Cmul_0_r (a : complex) : Cmul a C0 = C0.
Proof. cring. Qed.

Lemma Cmul_1_r (a : complex) : Cmul a C1 = a.
Proof. cring. Qed.

Lemma Cmul_comm (a b : complex) : Cmul a b = Cmul b a.
Proof. cring. Qed.

Lemma Cmul_assoc (a b c : complex) : Cmul a (Cmul b c) = Cmul (Cmul a b) c.
Proof. cring. Qed.

Lemma Cmul_add_distr_l (a b c : complex) :
  Cmul a (Cadd b c) = Cadd (Cmul a b) (Cmul a c).
Proof. cring. Qed.

Lemma Cmul_add_distr_r (a b c : complex) :
  Cmul (Cadd a b) c = Cadd (Cmul a c) (Cmul b c).
Proof. cring. Qed.

Lemma cis_add (a b : R) : cis (a + b) = Cmul (cis a) (cis b).
Proof. apply complex_eq; csimp; [apply cos_plus | rewrite sin_plus; ring]. Qed.

Lemma cis_0 : cis 0 = C1.
Proof. unfold cis, C1. now rewrite cos_0, sin_0. Qed.

Lemma cis_opp (a : R) : cis (- a) = (cos a, - sin a).
Proof. unfold cis. now rewrite cos_neg, sin_neg. Qed.

Lemma cis_2PI_nat (k : nat) : cis (2 * PI * INR k) = C1.
Proof.
  induction k as [|k IH].
  - simpl INR. rewrite Rmult_0_r. apply cis_0.
  - rewrite S_INR, Rmult_plus_distr_l, cis_add, IH, Rmult_1_r.
    unfold cis. rewrite cos_2PI, sin_2PI. cring.
Qed.

Lemma Csum_ext (f g : nat -> complex) (n : nat) :
  (forall k, (k < n)%nat -> f k = g k) -> Csum f n = Csum g n.
Proof.
  induction n as [|n IH]; intros H; cbn [Csum]; [reflexivity|].
  rewrite IH by (intros k Hk; apply H; lia). now rewrite H by lia.
Qed.

Lemma Csum_zero (n : nat) : Csum (fun _ => C0) n = C0.
Proof. induction n as [|n IH]; cbn [Csum]; [reflexivity|]. rewrite IH. cring. Qed.

Lemma Csum_add (f g : nat -> complex) (n : nat) :
  Csum (fun k => Cadd (f k) (g k)) n = Cadd (Csum f n) (Csum g n).
Proof.
  induction n as [|n IH]; cbn [Csum]; [cring|]. rewrite IH. cring.
Qed.

Lemma Csum_mul_l (c : complex) (f : nat -> complex) (n : nat) :
  Csum (fun k => Cmul c (f k)) n = Cmul c (Csum f n).
Proof.
  induction n as [|n IH]; cbn [Csum]; [cring|]. rewrite IH. cring.
Qed.

Lemma Csum_mul_r (c : complex) (f : nat -> complex) (n : nat) :
  Csum (fun k => Cmul (f k) c) n = Cmul (Csum f n) c.
Proof.
  induction n as [|n IH]; cbn [Csum]; [cring|]. rewrite IH. cring.
Qed.

Lemma Csum_swap (f : nat -> nat -> complex) (m n : nat) :
  Csum (fun i => Csum (fun j => f i j) n) m =
  Csum (fun j => Csum (fun i => f i j) m) n.
Proof.
  induction m as [|m IH]; cbn [Csum].
  - now rewrite Csum_zero.
  - rewrite IH, <- Csum_add. reflexivity.
Qed.

Lemma Csum_const_1 (n : nat) : Csum (fun _ => C1) n = RtoC (INR n).
Proof.
  induction n as [|n IH]; [reflexivity|].
  cbn [Csum]. rewrite IH, S_INR. cring.
Qed.

(** A sum with a single non-zero term. *)
Lemma Csum_single (f : nat -> complex) (n k' : nat) :
  (k' < n)%nat ->
  (forall k, (k < n)%nat -> k <> k' -> f k = C0) ->
  Csum f n = f k'.
Proof.
  induction n as [|n IH]; intros Hk H; [lia|].
  cbn [Csum]. destruct (Nat.eq_dec k' n) as [->|Hne].
  - rewrite (Csum_ext f (fun _ => C0)) by (intros k Hk'; apply H; lia).
    rewrite Csum_zero. cring.
  - rewrite IH by (try lia; intros k Hk' Hkk; apply H; lia).
    rewrite (H n) by lia. cring.
Qed.

(** ** The roots of unity *)

Lemma geometric_sum (t : R) (n : nat) :
  Cmul (Csum (fun k => cis (INR k * t)) n) (Cadd C1 (Cmul (RtoC (-1)) (cis t))) =
  Cadd C1 (Cmul (RtoC (-1)) (cis (INR n * t))).
Proof.
  induction n as [|n IH].
  - cbn [Csum]. simpl INR. rewrite Rmult_0_l, cis_0. cring.
  - cbn [Csum]. rewrite Cmul_add_distr_r, IH.
    rewrite S_INR, Rmult_plus_distr_r, Rmult_1_l, cis_add. cring.
Qed.

Lemma Cmul_cancel_r (a b : complex) :
  Cmul a b = C0 -> fst b <> 0 -> a = C0.
Proof.
  destruct a as [a1 a2], b as [b1 b2]. unfold Cmul, C0. cbn [fst snd].
  intros H Hb. injection H as H1 H2.
  assert (Hn : 0 < b1 * b1 + b2 * b2) by nra.
  assert (E1 : a1 * (b1 * b1 + b2 * b2) = 0).
  { replace (a1 * (b1 * b1 + b2 * b2))
      with (b1 * (a1 * b1 - a2 * b2) + b2 * (a1 * b2 + a2 * b1)) by ring.
    rewrite H1, H2. ring. }
  assert (E2 : a2 * (b1 * b1 + b2 * b2) = 0).
  { replace (a2 * (b1 * b1 + b2 * b2))
      with (b1 * (a1 * b2 + a2 * b1) - b2 * (a1 * b1 - a2 * b2)) by ring.
    rewrite H1, H2. ring. }
  apply Rmult_integral in E1. apply Rmult_integral in E2.
  f_equal; lra.
Qed.

Lemma cos_lt_1_between (t : R) :
  (0 < t < 2 * PI \/ - (2 * PI) < t < 0) -> cos t < 1.
Proof.
  intros Ht. replace t with (2 * (t / 2)) by field.
  rewrite cos_2a_sin.
  assert (Hs : sin (t / 2) <> 0).
  { destruct Ht as [[H0 H1]|[H0 H1]].
    - apply Rgt_not_eq. apply sin_gt_0; lra.
    - apply Rlt_not_eq. apply sin_lt_0_var; lra. }
  nra.
Qed.

(** The sum of the [n]-th roots of unity of exponent [a - b]. *)
Lemma roots_of_unity_sum (n a b : nat) :
  (a < n)%nat -> (b < n)%nat ->
  Csum (fun k => cis (2 * PI * INR k * (INR a - INR b) / INR n)) n =
  if (a =? b)%nat then RtoC (INR n) else C0.
Proof.
  intros Ha Hb.
  assert (Hn : 0 < INR n) by (apply lt_0_INR; lia).
  destruct (Nat.eqb_spec a b) as [->|Hne].
  - rewrite (Csum_ext _ (fun _ => C1)); [apply Csum_const_1|].
    intros k _. rewrite Rminus_diag. unfold Rdiv.
    rewrite Rmult_0_r, Rmult_0_l. apply cis_0.
  - set (t := 2 * PI * (INR a - INR b) / INR n).
    rewrite (Csum_ext _ (fun k => cis (INR k * t)))
      by (intros k _; f_equal; unfold t, Rdiv; ring).
    apply Cmul_cancel_r with (Cadd C1 (Cmul (RtoC (-1)) (cis t))).
    + rewrite geometric_sum.
      replace (INR n * t) with (2 * PI * INR a + - (2 * PI * INR b))
        by (unfold t; field; lra).
      rewrite cis_add, cis_2PI_nat, cis_opp.
      pose proof (cis_2PI_nat b) as Eb. unfold cis, C1 in Eb.
      injection Eb as Ec Es. rewrite Ec, Es. cring.
    + csimp.
      assert (Hc : cos t < 1); [|lra].
      apply cos_lt_1_between. pose proof PI_RGT_0 as Hpi.
      assert (Ha' : INR a < INR n) by (apply lt_INR; exact Ha).
      assert (Hb' : INR b < INR n) by (apply lt_INR; exact Hb).
      pose proof (pos_INR a) as Pa. pose proof (pos_INR b) as Pb.
      assert (Hd : INR a - INR b <> 0).
      { intros E. apply Hne. apply INR_eq. lra. }
      assert (Hq : -1 < (INR a - INR b) / INR n < 1).
      { split.
        - apply Rmult_lt_reg_r with (INR n); [lra|]. field_simplify; lra.
        - apply Rmult_lt_reg_r with (INR n); [lra|]. field_simplify; lra. }
      assert (Hq0 : (INR a - INR b) / INR n <> 0).
      { intros E. apply Hd.
        apply Rmult_eq_reg_r with (/ INR n); [|apply Rinv_neq_0_compat; lra].
        unfold Rdiv in E. rewrite E. ring. }
      replace t with (2 * PI * ((INR a - INR b) / INR n))
        by (unfold t, Rdiv; ring).
      destruct (Rlt_dec 0 ((INR a - INR b) / INR n)); [left | right]; nra.
Qed.

(** ** The discrete Fourier transform and its inverse *)

Lemma dft_ext (sign : R) (n : nat) (x y : nat -> complex) (k : nat) :
  (forall m, (m < n)%nat -> x m = y m) -> dft sign n x k = dft sign n y k.
Proof.
  intros H. unfold dft. apply Csum_ext. intros m Hm. now rewrite H.
Qed.

Lemma dft_zero (sign : R) (n : nat) (k : nat) : dft sign n (fun _ => C0) k = C0.
Proof.
  unfold dft. rewrite (Csum_ext _ (fun _ => C0)); [apply Csum_zero|].
  intros m _. apply Cmul_0_l.
Qed.

Lemma dft_inverse (n : nat) (x : nat -> complex) (k' : nat) :
  (k' < n)%nat ->
  Cmul (RtoC (1 / INR n)) (dft 1 n (dft (-1) n x) k') = x k'.
Proof.
  intros Hk.
  assert (Hn : 0 < INR n) by (apply lt_0_INR; lia).
  unfold dft.
  rewrite (Csum_ext _
    (fun k => Csum (fun m =>
       Cmul (x m) (cis (2 * PI * INR k * (INR k' - INR m) / INR n))) n)).
  2:{ intros k _. rewrite <- Csum_mul_r. apply Csum_ext. intros m _.
      rewrite <- Cmul_assoc, <- cis_add. do 2 f_equal. field. lra. }
  rewrite Csum_swap.
  rewrite (Csum_ext _
    (fun m => Cmul (x m) (if (k' =? m)%nat then RtoC (INR n) else C0))).
  2:{ intros m Hm. rewrite Csum_mul_l. now rewrite roots_of_unity_sum. }
  rewrite (Csum_single _ n k' Hk).
  - rewrite Nat.eqb_refl. apply complex_eq; csimp; field; lra.
  - intros k _ Hne. rewrite (proj2 (Nat.eqb_neq k' k)) by lia. apply Cmul_0_r.
Qed.

Lemma dft_commute (s1 s2 : R) (M N : nat) (g : nat -> nat -> complex)
      (c : complex) (k j : nat) :
  Cmul c (dft s1 N (fun l => dft s2 M (fun m => g m l) k) j) =
  dft s2 M (fun m => Cmul c (dft s1 N (fun l => g m l) j)) k.
Proof.
  unfold dft.
  set (e1 := fun l => cis (s1 * (2 * PI * INR l * INR j / INR N))).
  set (e2 := fun m => cis (s2 * (2 * PI * INR m * INR k / INR M))).
  transitivity
    (Csum (fun l => Csum (fun m =>
        Cmul (Cmul c (g m l)) (Cmul (e2 m) (e1 l))) M) N).
  - rewrite <- Csum_mul_l. apply Csum_ext; intros l _.
    rewrite <- Csum_mul_r, <- Csum_mul_l. apply Csum_ext; intros m _.
    fold (e1 l) (e2 m). destruct c, (g m l), (e1 l), (e2 m). cring.
  - rewrite Csum_swap. apply Csum_ext; intros m _.
    rewrite <- Csum_mul_l, <- Csum_mul_r. apply Csum_ext; intros l _.
    fold (e1 l) (e2 m). destruct c, (g m l), (e1 l), (e2 m). cring.
Qed.

(** ** Arrays *)

Lemma array_eq_refl {A} (a : ndarray A) : array_eq a a.
Proof. split; [reflexivity|]. intros; reflexivity. Qed.

Lemma array_eq_sym {A} (a b : ndarray A) : array_eq a b -> array_eq b a.
Proof.
  intros [Hs Hi]. split; [now symmetry|].
  intros i j Hi' Hj'. unfold nrows, ncols in *. rewrite <- Hs in *.
  symmetry. now apply Hi.
Qed.

Lemma array_eq_trans {A} (a b c : ndarray A) :
  array_eq a b -> array_eq b c -> array_eq a c.
Proof.
  intros [Hs1 Hi1] [Hs2 Hi2]. split; [congruence|].
  intros i j Hi' Hj'. rewrite Hi1 by assumption.
  apply Hi2; unfold nrows, ncols in *; now rewrite <- Hs1.
Qed.

Lemma real_array_eq (a b : ndarray complex) :
  array_eq a b -> array_eq (np.real a) (np.real b).
Proof.
  intros [Hs Hi]. split; [exact Hs|].
  intros i j Hi' Hj'. cbn [np.real item]. f_equal. now apply Hi.
Qed.

(** ** The two-dimensional transforms *)

Lemma fft2_ok (a : ndarray complex) :
  (0 < nrows a)%nat -> (0 < ncols a)%nat ->
  np.fft2 a =
  Ok (mk_ndarray (shape a)
        (fun k l =>
           dft (-1) (nrows a)
               (fun m => dft (-1) (ncols a) (fun n => item a m n) l) k)).
Proof.
  intros HM HN. unfold np.fft2, np.fft_axis1.
  rewrite (proj2 (Nat.eqb_neq (ncols a) 0)) by lia. cbn [bind].
  unfold np.fft_axis0, nrows at 1. cbn [shape].
  fold (nrows a). rewrite (proj2 (Nat.eqb_neq (nrows a) 0)) by lia.
  reflexivity.
Qed.

Lemma fft2_empty (a : ndarray complex) :
  (nrows a = 0 \/ ncols a = 0)%nat -> np.fft2 a = Err FFTPointsError.
Proof.
  intros H. unfold np.fft2, np.fft_axis1.
  destruct (Nat.eqb_spec (ncols a) 0) as [E|E]; [reflexivity|].
  cbn [bind]. unfold np.fft_axis0, nrows at 1. cbn [shape]. fold (nrows a).
  destruct H as [H|H]; [|contradiction]. now rewrite H.
Qed.

Lemma ifft2_ok (a : ndarray complex) :
  (0 < nrows a)%nat -> (0 < ncols a)%nat ->
  np.ifft2 a =
  Ok (mk_ndarray (shape a)
        (fun m j =>
           Cmul (RtoC (1 / INR (nrows a)))
             (dft 1 (nrows a)
                (fun k => Cmul (RtoC (1 / INR (ncols a)))
                            (dft 1 (ncols a) (fun l => item a k l) j)) m))).
Proof.
  intros HM HN. unfold np.ifft2, np.ifft_axis1.
  rewrite (proj2 (Nat.eqb_neq (ncols a) 0)) by lia. cbn [bind].
  unfold np.ifft_axis0, nrows at 1. cbn [shape].
  fold (nrows a). rewrite (proj2 (Nat.eqb_neq (nrows a) 0)) by lia.
  reflexivity.
Qed.

Lemma ifft2_empty (a : ndarray complex) :
  (nrows a = 0 \/ ncols a = 0)%nat -> np.ifft2 a = Err FFTPointsError.
Proof.
  intros H. unfold np.ifft2, np.ifft_axis1.
  destruct (Nat.eqb_spec (ncols a) 0) as [E|E]; [reflexivity|].
  cbn [bind]. unfold np.ifft_axis0, nrows at 1. cbn [shape]. fold (nrows a).
  destruct H as [H|H]; [|contradiction]. now rewrite H.
Qed.

(** The inverse transform reads the entries inside the shape only. *)
Lemma ifft2_array_eq (a b : ndarray complex) :
  array_eq a b -> result_eq (np.ifft2 a) (np.ifft2 b).
Proof.
  intros [Hs Hi].
  assert (Hr : nrows b = nrows a) by (unfold nrows; now rewrite Hs).
  assert (Hc : ncols b = ncols a) by (unfold ncols; now rewrite Hs).
  destruct (Nat.eq_dec (nrows a) 0) as [E|E];
    [rewrite !ifft2_empty by lia; reflexivity|].
  destruct (Nat.eq_dec (ncols a) 0) as [E'|E'];
    [rewrite !ifft2_empty by lia; reflexivity|].
  rewrite !ifft2_ok by lia. cbn [result_eq]. split; [exact Hs|].
  cbn [item]. intros m j _ _. rewrite Hr, Hc. f_equal.
  apply dft_ext. intros k Hk. f_equal.
  apply dft_ext. intros l Hl. now apply Hi.
Qed.

(** The forward and the inverse transform are inverse to each other. *)
Lemma ifft2_fft2 (a : ndarray complex) :
  (0 < nrows a)%nat -> (0 < ncols a)%nat ->
  exists s t, np.fft2 a = Ok s /\ np.ifft2 s = Ok t /\ array_eq t a.
Proof.
  intros HM HN. eexists. eexists. split; [apply fft2_ok; assumption|].
  split; [apply ifft2_ok; assumption|].
  split; [reflexivity|]. unfold nrows, ncols. cbn [shape item].
  fold (nrows a) (ncols a). intros i j Hi Hj.
  rewrite (dft_ext 1 (nrows a) _
             (dft (-1) (nrows a) (fun m => item a m j))).
  - now rewrite dft_inverse.
  - intros k Hk. rewrite dft_commute. apply dft_ext. intros m Hm.
    now rewrite dft_inverse.
Qed.

(** ** Broadcasting and the centre shift *)

Lemma broadcast_shapes_same (s : nat * nat) : np.broadcast_shapes s s = Some s.
Proof.
  destruct s as [r c]. unfold np.broadcast_shapes, np.broadcast_dim.
  cbn [fst snd]. now rewrite !Nat.eqb_refl.
Qed.

Lemma bidx_in_range (dim i : nat) : (i < dim)%nat -> np.bidx dim i = i.
Proof.
  intros Hi. unfold np.bidx. destruct (Nat.eqb_spec dim 1); [lia | reflexivity].
Qed.

Lemma shift_unshift (n k : nat) :
  (k < n)%nat -> (((k + n / 2) mod n + (n - n / 2)) mod n = k)%nat.
Proof.
  intros Hk.
  assert (Hh : (n / 2 <= n)%nat) by (apply Nat.Div0.div_le_upper_bound; lia).
  rewrite Nat.Div0.add_mod_idemp_l.
  replace (k + n / 2 + (n - n / 2))%nat with (k + 1 * n)%nat by lia.
  rewrite Nat.Div0.mod_add. now apply Nat.mod_small.
Qed.

Lemma multiply_ok (x : ndarray complex) (m : ndarray R) (s : nat * nat) :
  np.broadcast_shapes (shape x) (shape m) = Some s ->
  np.multiply x m =
  Ok (mk_ndarray s
        (fun i j =>
           Cmul (item x (np.bidx (nrows x) i) (np.bidx (ncols x) j))
                (RtoC (item m (np.bidx (nrows m) i) (np.bidx (ncols m) j))))).
Proof. intros H. unfold np.multiply. now rewrite H. Qed.

Lemma multiply_error (x : ndarray complex) (m : ndarray R) :
  np.broadcast_shapes (shape x) (shape m) = None ->
  np.multiply x m = Err BroadcastError.
Proof. intros H. unfold np.multiply. now rewrite H. Qed.

Lemma taper_shape (trace : ndarray R) (tapering : bool) :
  shape (if tapering then taper_data trace else trace) = shape trace.
Proof. destruct tapering; reflexivity. Qed.

(** ** The outcome of the two applications, by shape *)

Lemma fk_filter_filt_empty (trace mask : ndarray R) (tapering : bool) :
  (nrows trace = 0 \/ ncols trace = 0)%nat ->
  fk_filter_filt trace mask tapering = Err FFTPointsError.
Proof.
  intros H. unfold fk_filter_filt.
  rewrite fft2_empty; [reflexivity|].
  unfold nrows, ncols, np.astype_complex. cbn [shape].
  now rewrite taper_shape.
Qed.

Lemma fk_filter_filt_broadcast_error (trace mask : ndarray R) (tapering : bool) :
  (0 < nrows trace)%nat -> (0 < ncols trace)%nat ->
  np.broadcast_shapes (shape trace) (shape mask) = None ->
  fk_filter_filt trace mask tapering = Err BroadcastError.
Proof.
  intros HM HN Hb. unfold fk_filter_filt.
  rewrite fft2_ok
    by (unfold nrows, ncols, np.astype_complex; cbn [shape];
        rewrite taper_shape; assumption).
  cbn [bind]. rewrite multiply_error; [reflexivity|].
  cbn [np.fftshift2 np.astype_complex shape]. now rewrite taper_shape.
Qed.

Lemma fk_filter_filt_broadcast_ok (trace mask : ndarray R) (tapering : bool)
      (s : nat * nat) :
  (0 < nrows trace)%nat -> (0 < ncols trace)%nat ->
  np.broadcast_shapes (shape trace) (shape mask) = Some s ->
  (0 < fst s)%nat -> (0 < snd s)%nat ->
  exists out, fk_filter_filt trace mask tapering = Ok out /\ shape out = s.
Proof.
  intros HM HN Hb Hs1 Hs2. unfold fk_filter_filt.
  rewrite fft2_ok
    by (unfold nrows, ncols, np.astype_complex; cbn [shape];
        rewrite taper_shape; assumption).
  cbn [bind]. rewrite (multiply_ok _ _ s)
    by (cbn [np.fftshift2 np.astype_complex shape]; now rewrite taper_shape).
  cbn [bind]. rewrite ifft2_ok by (unfold nrows, ncols; cbn [shape]; assumption).
  cbn [bind]. eexists. split; reflexivity.
Qed.

Lemma fk_filter_filt_broadcast_empty (trace mask : ndarray R) (tapering : bool)
      (s : nat * nat) :
  (0 < nrows trace)%nat -> (0 < ncols trace)%nat ->
  np.broadcast_shapes (shape trace) (shape mask) = Some s ->
  (fst s = 0 \/ snd s = 0)%nat ->
  fk_filter_filt trace mask tapering = Err FFTPointsError.
Proof.
  intros HM HN Hb Hs. unfold fk_filter_filt.
  rewrite fft2_ok
    by (unfold nrows, ncols, np.astype_complex; cbn [shape];
        rewrite taper_shape; assumption).
  cbn [bind]. rewrite (multiply_ok _ _ s)
    by (cbn [np.fftshift2 np.astype_complex shape]; now rewrite taper_shape).
  cbn [bind]. rewrite ifft2_empty; [reflexivity|].
  unfold nrows, ncols. cbn [np.ifftshift2 shape]. exact Hs.
Qed.

Lemma fk_filter_sparsefilt_broadcast_error (trace : ndarray R)
      (mask : sparse.COO R) (tapering : bool) :
  (0 < nrows trace)%nat -> (0 < ncols trace)%nat ->
  np.broadcast_shapes (shape trace) (sparse.coo_shape mask) = None ->
  fk_filter_sparsefilt trace mask tapering = Err BroadcastError.
Proof.
  intros HM HN Hb. unfold fk_filter_sparsefilt.
  rewrite fft2_ok
    by (unfold nrows, ncols, np.astype_complex; cbn [shape];
        rewrite taper_shape; assumption).
  cbn [bind]. unfold sparse.multiply.
  cbn [np.fftshift2 np.astype_complex shape]. rewrite taper_shape, Hb.
  reflexivity.
Qed.

Lemma fk_filter_sparsefilt_broadcast_ok (trace : ndarray R)
      (mask : sparse.COO R) (tapering : bool) (s : nat * nat) :
  (0 < nrows trace)%nat -> (0 < ncols trace)%nat ->
  np.broadcast_shapes (shape trace) (sparse.coo_shape mask) = Some s ->
  (0 < fst s)%nat -> (0 < snd s)%nat ->
  exists out, fk_filter_sparsefilt trace mask tapering = Ok out /\ shape out = s.
Proof.
  intros HM HN Hb Hs1 Hs2. unfold fk_filter_sparsefilt.
  rewrite fft2_ok
    by (unfold nrows, ncols, np.astype_complex; cbn [shape];
        rewrite taper_shape; assumption).
  cbn [bind]. unfold sparse.multiply.
  cbn [np.fftshift2 np.astype_complex shape]. rewrite taper_shape, Hb.
  cbn [bind]. rewrite ifft2_ok
    by (unfold nrows, ncols; cbn [shape sparse.todense sparse.coo_shape np.ifftshift2];
        assumption).
  cbn [bind]. eexists. split; reflexivity.
Qed.

Lemma fk_filter_sparsefilt_empty (trace : ndarray R) (mask : sparse.COO R)
      (tapering : bool) :
  (nrows trace = 0 \/ ncols trace = 0)%nat ->
  fk_filter_sparsefilt trace mask tapering = Err FFTPointsError.
Proof.
  intros H. unfold fk_filter_sparsefilt.
  rewrite fft2_empty; [reflexivity|].
  unfold nrows, ncols, np.astype_complex. cbn [shape].
  now rewrite taper_shape.
Qed.

(** ** The filtered spectrum, dense and sparse *)

Lemma filtered_item (spectrum : ndarray complex) (mask : ndarray R) :
  shape mask = shape spectrum ->
  exists P,
    np.multiply (np.fftshift2 spectrum) mask = Ok P /\
    shape P = shape spectrum /\
    forall k l, (k < nrows spectrum)%nat -> (l < ncols spectrum)%nat ->
      item (np.ifftshift2 P) k l =
      Cmul (item spectrum k l)
           (RtoC (item mask ((k + nrows spectrum / 2) mod nrows spectrum)
                            ((l + ncols spectrum / 2) mod ncols spectrum))).
Proof.
  intros Hs. eexists. split.
  { apply (multiply_ok _ _ (shape spectrum)). cbn [np.fftshift2 shape].
    rewrite Hs. apply broadcast_shapes_same. }
  split; [reflexivity|].
  intros k l Hk Hl. unfold np.ifftshift2, nrows, ncols. cbn [shape item].
  rewrite Hs. fold (nrows spectrum) (ncols spectrum).
  set (i := ((k + nrows spectrum / 2) mod nrows spectrum)%nat).
  set (j := ((l + ncols spectrum / 2) mod ncols spectrum)%nat).
  assert (Hi : (i < nrows spectrum)%nat) by (apply Nat.mod_upper_bound; lia).
  assert (Hj : (j < ncols spectrum)%nat) by (apply Nat.mod_upper_bound; lia).
  rewrite !bidx_in_range by assumption.
  cbn [np.fftshift2 item]. unfold i, j. now rewrite !shift_unshift by assumption.
Qed.

Lemma from_numpy_In (a : ndarray R) (e : nat * nat * R) :
  In e (sparse.coo_entries (sparse.from_numpy a)) <->
  exists i j, (i < nrows a)%nat /\ (j < ncols a)%nat /\
              item a i j <> 0 /\ e = (i, j, item a i j).
Proof.
  unfold sparse.from_numpy. cbn [sparse.coo_entries]. rewrite in_flat_map. split.
  - intros [i [Hi He]]. apply in_flat_map in He. destruct He as [j [Hj He]].
    apply in_seq in Hi. apply in_seq in Hj.
    unfold Reqb in He. destruct (Req_dec_T (item a i j) 0) as [E|E].
    + destruct He.
    + destruct He as [<-|[]]. exists i, j. repeat split; try lia. exact E.
  - intros [i [j [Hi [Hj [Hne ->]]]]]. exists i. split; [apply in_seq; lia|].
    apply in_flat_map. exists j. split; [apply in_seq; lia|].
    unfold Reqb. destruct (Req_dec_T (item a i j) 0); [contradiction|].
    now left.
Qed.

Lemma sparse_multiply_from_numpy (x : ndarray complex) (m : ndarray R) :
  shape m = shape x ->
  exists p,
    sparse.multiply x (sparse.from_numpy m) = Ok p /\
    sparse.coo_shape p = shape x /\
    forall i j, (i < nrows x)%nat -> (j < ncols x)%nat ->
      sparse.getitem p i j = Cmul (item x i j) (RtoC (item m i j)).
Proof.
  intros Hs. unfold sparse.multiply.
  replace (sparse.coo_shape (sparse.from_numpy m)) with (shape x)
    by (cbn [sparse.from_numpy sparse.coo_shape]; now rewrite Hs).
  rewrite broadcast_shapes_same.
  eexists. split; [reflexivity|]. split; [reflexivity|].
  intros i j Hi Hj. unfold sparse.getitem. cbn [sparse.coo_entries sparse.fill_value].
  fold (nrows x) (ncols x).
  set (entries := flat_map _ _).
  assert (Hin : forall e, In e entries <->
            exists i' j', (i' < nrows x)%nat /\ (j' < ncols x)%nat /\
                          item m i' j' <> 0 /\
                          e = (i', j', Cmul (item x i' j') (RtoC (item m i' j')))).
  { assert (Hone : forall n k, (k < n)%nat ->
              (if (n =? 1)%nat then seq 0 n else [k]) = [k]).
    { intros n k Hk. destruct (Nat.eqb_spec n 1) as [->|_]; [|reflexivity].
      assert (k = 0)%nat by lia. now subst. }
    assert (Hmr : nrows m = nrows x) by (unfold nrows; now rewrite Hs).
    assert (Hmc : ncols m = ncols x) by (unfold ncols; now rewrite Hs).
    intros e. unfold entries. rewrite in_flat_map. split.
    - intros [[[i' j'] v] [He0 He]]. apply from_numpy_In in He0.
      destruct He0 as [i0 [j0 [Hi0 [Hj0 [Hne E]]]]].
      injection E as -> -> ->. rewrite Hmr in Hi0. rewrite Hmc in Hj0.
      rewrite !Hone in He by assumption.
      cbn [list_prod map app In fst snd] in He. destruct He as [<-|[]].
      exists i0, j0. rewrite !bidx_in_range by assumption.
      repeat split; assumption.
    - intros [i' [j' [Hi' [Hj' [Hne ->]]]]].
      exists (i', j', item m i' j'). split.
      + apply from_numpy_In. exists i', j'. rewrite Hmr, Hmc.
        repeat split; assumption.
      + rewrite !Hone by assumption. cbn [list_prod map app In fst snd].
        left. now rewrite !bidx_in_range by assumption. }
  destruct (find (sparse.at_coord i j) entries) as [e|] eqn:Hf.
  - apply find_some in Hf. destruct Hf as [He Hc].
    apply Hin in He. destruct He as [i' [j' [_ [_ [_ ->]]]]].
    unfold sparse.at_coord in Hc. cbn [fst snd] in Hc.
    apply andb_true_iff in Hc. destruct Hc as [Hc1 Hc2].
    apply Nat.eqb_eq in Hc1. apply Nat.eqb_eq in Hc2. now subst i' j'.
  - destruct (Req_dec (item m i j) 0) as [E|E].
    + rewrite E. cring.
    + pose proof (find_none _ _ Hf
        (i, j, Cmul (item x i j) (RtoC (item m i j)))) as Hn.
      rewrite Hin in Hn. unfold sparse.at_coord in Hn. cbn [fst snd] in Hn.
      rewrite !Nat.eqb_refl in Hn. cbn [andb] in Hn.
      assert (true = false); [|discriminate].
      apply Hn. exists i, j. repeat split; assumption.
Qed.

Lemma sparse_filtered_item (spectrum : ndarray complex) (mask : ndarray R) :
  shape mask = shape spectrum ->
  exists p,
    sparse.multiply (np.fftshift2 spectrum) (sparse.from_numpy mask) = Ok p /\
    sparse.coo_shape p = shape spectrum /\
    forall k l, (k < nrows spectrum)%nat -> (l < ncols spectrum)%nat ->
      item (np.ifftshift2 (sparse.todense p)) k l =
      Cmul (item spectrum k l)
           (RtoC (item mask ((k + nrows spectrum / 2) mod nrows spectrum)
                            ((l + ncols spectrum / 2) mod ncols spectrum))).
Proof.
  intros Hs.
  destruct (sparse_multiply_from_numpy (np.fftshift2 spectrum) mask Hs)
    as [p [Hp [Hsh Hit]]].
  exists p. split; [exact Hp|]. split; [exact Hsh|].
  intros k l Hk Hl. unfold np.ifftshift2, nrows, ncols.
  cbn [shape item sparse.todense]. rewrite Hsh. cbn [np.fftshift2 shape].
  fold (nrows spectrum) (ncols spectrum).
  set (i := ((k + nrows spectrum / 2) mod nrows spectrum)%nat).
  set (j := ((l + ncols spectrum / 2) mod ncols spectrum)%nat).
  assert (Hi : (i < nrows spectrum)%nat) by (apply Nat.mod_upper_bound; lia).
  assert (Hj : (j < ncols spectrum)%nat) by (apply Nat.mod_upper_bound; lia).
  rewrite Hit by assumption.
  cbn [np.fftshift2 item]. unfold i, j. now rewrite !shift_unshift by assumption.
Qed.

(** ** Applying a mask *)

Lemma spectrum_of_trace (trace : ndarray R) :
  (0 < nrows trace)%nat -> (0 < ncols trace)%nat ->
  exists spectrum,
    np.fft2 (np.astype_complex trace) = Ok spectrum /\
    shape spectrum = shape trace /\
    exists t, np.ifft2 spectrum = Ok t /\ array_eq t (np.astype_complex trace).
Proof.
  intros HM HN.
  destruct (ifft2_fft2 (np.astype_complex trace) HM HN) as [s [t [Hf [Hi He]]]].
  exists s. split; [exact Hf|]. split.
  - rewrite fft2_ok in Hf by assumption. injection Hf as <-. reflexivity.
  - exists t. split; assumption.
Qed.

Lemma real_astype_complex (trace : ndarray R) :
  array_eq (np.real (np.astype_complex trace)) trace.
Proof. split; [reflexivity|]. intros i j _ _. reflexivity. Qed.

(** C2.  For every real trace and every mask of the same shape, the
    dense application ([fk_filter_filt], no tapering) and the
    application of the coordinate representation of the mask
    ([fk_filter_sparsefilt], no tapering) have the same outcome: the
    same output trace.  In the arithmetic of the reals the two outputs
    are equal. *)
Theorem fk_filter_dense_sparse_agree (trace mask : ndarray R) :
  shape mask = shape trace ->
  result_eq (fk_filter_filt trace mask false)
            (fk_filter_sparsefilt trace (sparse.from_numpy mask) false).
Proof.
  intros Hs.
  destruct (Nat.eq_dec (nrows trace) 0) as [E|E].
  { rewrite fk_filter_filt_empty, fk_filter_sparsefilt_empty by lia. reflexivity. }
  destruct (Nat.eq_dec (ncols trace) 0) as [E'|E'].
  { rewrite fk_filter_filt_empty, fk_filter_sparsefilt_empty by lia. reflexivity. }
  destruct (spectrum_of_trace trace) as [S [HS [Hsh _]]]; try lia.
  assert (Hm : shape mask = shape S) by congruence.
  destruct (filtered_item S mask Hm) as [P [HP [HPs HPi]]].
  destruct (sparse_filtered_item S mask Hm) as [p [Hp [Hps Hpi]]].
  unfold fk_filter_filt, fk_filter_sparsefilt.
  rewrite HS. cbn [bind]. rewrite HP, Hp. cbn [bind].
  assert (Heq : array_eq (np.ifftshift2 P) (np.ifftshift2 (sparse.todense p))).
  { split.
    - cbn [np.ifftshift2 shape sparse.todense]. congruence.
    - unfold nrows, ncols. cbn [np.ifftshift2 shape]. rewrite HPs.
      intros k l Hk Hl. rewrite HPi, Hpi by assumption. reflexivity. }
  pose proof (ifft2_array_eq _ _ Heq) as Hr.
  destruct (np.ifft2 (np.ifftshift2 P)) as [t1|e1],
           (np.ifft2 (np.ifftshift2 (sparse.todense p))) as [t2|e2];
    cbn [bind result_eq] in *; try contradiction; try assumption.
  now apply real_array_eq.
Qed.

Lemma fk_filter_dense_sparse_agree_witness :
  result_eq
    (fk_filter_filt (mk_ndarray (2, 3)%nat (fun i j => INR (i + j)))
                    (mk_ndarray (2, 3)%nat (fun i j => INR (i * j))) false)
    (fk_filter_sparsefilt (mk_ndarray (2, 3)%nat (fun i j => INR (i + j)))
       (sparse.from_numpy (mk_ndarray (2, 3)%nat (fun i j => INR (i * j))))
       false).
Proof.
  apply (fk_filter_dense_sparse_agree
           (mk_ndarray (2, 3)%nat (fun i j => INR (i + j)))
           (mk_ndarray (2, 3)%nat (fun i j => INR (i * j)))).
  reflexivity.
Defined.

(** C3.  For every real trace (with at least one channel and one
    sample), applying a mask whose entries are all ones with
    [fk_filter_filt], no tapering, returns the input trace: the forward
    transform with the centre shift, the multiplication by one, the
    inverse shift and transform and the real part compose to the
    identity.  In the arithmetic of the reals the round trip is exact. *)
Theorem fk_filter_filt_ones (trace mask : ndarray R) :
  (0 < nrows trace)%nat -> (0 < ncols trace)%nat ->
  shape mask = shape trace ->
  (forall i j, (i < nrows trace)%nat -> (j < ncols trace)%nat ->
               item mask i j = 1) ->
  exists out, fk_filter_filt trace mask false = Ok out /\ array_eq out trace.
Proof.
  intros HM HN Hs Hones.
  destruct (spectrum_of_trace trace HM HN) as [S [HS [Hsh [t [Ht Hta]]]]].
  assert (Hm : shape mask = shape S) by congruence.
  destruct (filtered_item S mask Hm) as [P [HP [HPs HPi]]].
  unfold fk_filter_filt. rewrite HS. cbn [bind]. rewrite HP. cbn [bind].
  assert (Heq : array_eq (np.ifftshift2 P) S).
  { split; [exact HPs|].
    unfold nrows, ncols. cbn [np.ifftshift2 shape]. rewrite HPs.
    intros k l Hk Hl. rewrite HPi by assumption.
    unfold nrows, ncols in *. rewrite Hsh in *.
    rewrite Hones by (apply Nat.mod_upper_bound; lia).
    apply Cmul_1_r. }
  pose proof (ifft2_array_eq _ _ Heq) as Hr. rewrite Ht in Hr.
  destruct (np.ifft2 (np.ifftshift2 P)) as [t1|e1];
    cbn [result_eq] in Hr; [|contradiction].
  cbn [bind]. eexists. split; [reflexivity|].
  apply array_eq_trans with (np.real (np.astype_complex trace)).
  - apply real_array_eq. now apply array_eq_trans with t.
  - apply real_astype_complex.
Qed.

Lemma fk_filter_filt_ones_witness :
  exists out,
    fk_filter_filt (mk_ndarray (2, 3)%nat (fun i j => INR (i + j)))
                   (mk_ndarray (2, 3)%nat (fun _ _ => 1)) false = Ok out /\
    array_eq out (mk_ndarray (2, 3)%nat (fun i j => INR (i + j))).
Proof.
  apply (fk_filter_filt_ones
           (mk_ndarray (2, 3)%nat (fun i j => INR (i + j)))
           (mk_ndarray (2, 3)%nat (fun _ _ => 1))).
  - unfold nrows; cbn; lia.
  - unfold ncols; cbn; lia.
  - reflexivity.
  - intros; reflexivity.
Defined.

(** C4.  For every real trace (with at least one channel and one
    sample), applying a mask whose entries are all zeros with
    [fk_filter_filt], no tapering, yields an output trace of the same
    shape whose entries are all exactly zero. *)
Theorem fk_filter_filt_zeros (trace mask : ndarray R) :
  (0 < nrows trace)%nat -> (0 < ncols trace)%nat ->
  shape mask = shape trace ->
  (forall i j, (i < nrows trace)%nat -> (j < ncols trace)%nat ->
               item mask i j = 0) ->
  exists out,
    fk_filter_filt trace mask false = Ok out /\
    shape out = shape trace /\
    forall i j, (i < nrows trace)%nat -> (j < ncols trace)%nat ->
                item out i j = 0.
Proof.
  intros HM HN Hs Hzero.
  destruct (spectrum_of_trace trace HM HN) as [S [HS [Hsh _]]].
  assert (Hm : shape mask = shape S) by congruence.
  destruct (filtered_item S mask Hm) as [P [HP [HPs HPi]]].
  unfold fk_filter_filt. rewrite HS. cbn [bind]. rewrite HP. cbn [bind].
  assert (Hr : nrows (np.ifftshift2 P) = nrows trace)
    by (unfold nrows; cbn [np.ifftshift2 shape]; congruence).
  assert (Hc : ncols (np.ifftshift2 P) = ncols trace)
    by (unfold ncols; cbn [np.ifftshift2 shape]; congruence).
  rewrite ifft2_ok by (rewrite ?Hr, ?Hc; assumption).
  cbn [bind]. eexists. split; [reflexivity|].
  split; [cbn [np.real np.ifftshift2 shape]; congruence|].
  intros i j Hi Hj. cbn [np.real item]. rewrite Hr, Hc.
  rewrite (dft_ext 1 (nrows trace) _ (fun _ => C0)).
  - rewrite dft_zero. csimp. ring.
  - intros k Hk. rewrite (dft_ext 1 (ncols trace) _ (fun _ => C0)).
    + rewrite dft_zero. apply Cmul_0_r.
    + intros l Hl. unfold nrows, ncols in *. rewrite <- Hsh in *.
      rewrite HPi by assumption.
      rewrite Hzero by (apply Nat.mod_upper_bound; lia).
      apply Cmul_0_r.
Qed.

Lemma fk_filter_filt_zeros_witness :
  exists out,
    fk_filter_filt (mk_ndarray (2, 3)%nat (fun i j => INR (i + j)))
                   (mk_ndarray (2, 3)%nat (fun _ _ => 0)) false = Ok out /\
    shape out = (2, 3)%nat /\
    forall i j, (i < 2)%nat -> (j < 3)%nat -> item out i j = 0.
Proof.
  apply (fk_filter_filt_zeros
           (mk_ndarray (2, 3)%nat (fun i j => INR (i + j)))
           (mk_ndarray (2, 3)%nat (fun _ _ => 0))).
  - unfold nrows; cbn; lia.
  - unfold ncols; cbn; lia.
  - reflexivity.
  - intros; reflexivity.
Defined.

(** C7 (amended).  For every call of [fk_filter_filt] and of
    [fk_filter_sparsefilt] on a trace with at least one channel and one
    sample: if the shape of the mask equals the shape of the trace, the
    output has exactly the shape of the input trace; if the two shapes
    cannot be broadcast together (on some axis the extents differ and
    neither is 1), the operation fails with the shape error of the
    multiplication; and if they differ but can be broadcast together,
    there is no shape error: the mask is broadcast against the spectrum,
    and the output has the broadcast shape whenever that shape has no
    extent 0.  When the broadcast shape has an extent 0 (a mask with an
    extent 0 against an extent 1 of the trace), [fk_filter_filt] fails
    in the inverse transform. *)
Theorem fk_filter_shape_contract
    (trace mask : ndarray R) (smask : sparse.COO R) (tapering : bool) :
  (0 < nrows trace)%nat -> (0 < ncols trace)%nat ->
  (shape mask = shape trace ->
   exists out, fk_filter_filt trace mask tapering = Ok out /\
               shape out = shape trace) /\
  (sparse.coo_shape smask = shape trace ->
   exists out, fk_filter_sparsefilt trace smask tapering = Ok out /\
               shape out = shape trace) /\
  (np.broadcast_shapes (shape trace) (shape mask) = None ->
   fk_filter_filt trace mask tapering = Err BroadcastError) /\
  (np.broadcast_shapes (shape trace) (sparse.coo_shape smask) = None ->
   fk_filter_sparsefilt trace smask tapering = Err BroadcastError) /\
  (forall s, np.broadcast_shapes (shape trace) (shape mask) = Some s ->
             (0 < fst s)%nat -> (0 < snd s)%nat ->
             exists out, fk_filter_filt trace mask tapering = Ok out /\
                         shape out = s) /\
  (forall s, np.broadcast_shapes (shape trace) (sparse.coo_shape smask) = Some s ->
             (0 < fst s)%nat -> (0 < snd s)%nat ->
             exists out, fk_filter_sparsefilt trace smask tapering = Ok out /\
                         shape out = s) /\
  (forall s, np.broadcast_shapes (shape trace) (shape mask) = Some s ->
             (fst s = 0 \/ snd s = 0)%nat ->
             fk_filter_filt trace mask tapering = Err FFTPointsError).
Proof.
  intros HM HN. repeat split.
  - intros Hs. apply fk_filter_filt_broadcast_ok; try assumption.
    rewrite Hs. apply broadcast_shapes_same.
  - intros Hs. apply fk_filter_sparsefilt_broadcast_ok; try assumption.
    rewrite Hs. apply broadcast_shapes_same.
  - now apply fk_filter_filt_broadcast_error.
  - now apply fk_filter_sparsefilt_broadcast_error.
  - intros s Hb H1 H2. now apply fk_filter_filt_broadcast_ok.
  - intros s Hb H1 H2. now apply fk_filter_sparsefilt_broadcast_ok.
  - intros s Hb Hs. now apply (fk_filter_filt_broadcast_empty _ _ _ s).
Qed.

Lemma fk_filter_shape_contract_witness :
  exists out,
    fk_filter_filt (mk_ndarray (2, 3)%nat (fun i j => INR (i + j)))
                   (mk_ndarray (2, 3)%nat (fun _ _ => 1)) false = Ok out /\
    shape out = (2, 3)%nat.
Proof.
  refine (proj1 (fk_filter_shape_contract
                   (mk_ndarray (2, 3)%nat (fun i j => INR (i + j)))
                   (mk_ndarray (2, 3)%nat (fun _ _ => 1))
                   (sparse.mk_COO (2, 3)%nat [] 0) false _ _) eq_refl);
    unfold nrows, ncols; cbn; lia.
Defined.

(** C7, as stated, fails: a mask of shape (1, 3) applied to a trace of
    shape (2, 3) is broadcast along the channels; there is no error. *)
Lemma fk_filter_filt_silent_broadcast :
  shape (mk_ndarray (1, 3)%nat (fun _ _ => 1)) <>
  shape (mk_ndarray (2, 3)%nat (fun i j => INR (i + j))) /\
  exists out,
    fk_filter_filt (mk_ndarray (2, 3)%nat (fun i j => INR (i + j)))
                   (mk_ndarray (1, 3)%nat (fun _ _ => 1)) false = Ok out /\
    shape out = (2, 3)%nat.
Proof.
  split; [cbn [shape]; congruence|].
  apply fk_filter_filt_broadcast_ok; try reflexivity;
    unfold nrows, ncols; cbn; lia.
Qed.

(** ** snr_tr_array *)


Lemma Reqb_false_iff (x y : R) : Reqb x y = false <-> x <> y.
Proof. unfold Reqb; destruct (Req_dec_T x y); split; intros; try easy. Qed.






(** * Further properties of the code *)

(** ** The axes *)

Lemma centred_axis_increasing (n : nat) (d : R) (i j : nat) :
  0 < d -> (i < j)%nat -> (j < n)%nat ->
  nth i (np.fftshift (np.fftfreq n d)) 0 < nth j (np.fftshift (np.fftfreq n d)) 0.
Proof.
  intros Hd Hij Hj. rewrite fftshift_fftfreq.
  rewrite !(nth_map_in _ _ _ _ 0%nat) by (rewrite length_seq; lia).
  rewrite !seq_nth by lia. cbn [Nat.add].
  assert (Hn : 0 < INR n) by (apply lt_0_INR; lia).
  assert (Hv : 0 < 1 / (INR n * d)).
  { apply Rdiv_lt_0_compat; [lra|]. now apply Rmult_lt_0_compat. }
  apply Rmult_lt_compat_r; [exact Hv|]. apply IZR_lt. lia.
Qed.

Lemma centred_axis_zero (n : nat) (d : R) :
  (0 < n)%nat -> nth (n / 2) (np.fftshift (np.fftfreq n d)) 0 = 0.
Proof.
  intros Hn. rewrite fftshift_fftfreq.
  assert (Hh : (n / 2 < n)%nat) by (apply Nat.div_lt; lia).
  rewrite (nth_map_in _ _ _ _ 0%nat) by (rewrite length_seq; exact Hh).
  rewrite seq_nth by exact Hh. cbn [Nat.add].
  rewrite Z.sub_diag. apply Rmult_0_l.
Qed.

(** X1.  For a positive sampling frequency and a positive channel
    spacing, the frequency and the wavenumber axes of the design
    functions have the lengths of the trace, are strictly increasing,
    and hold zero at the index [n // 2]. *)
Theorem design_axes_zero_centred
    (nnx nns step : nat) (dx fs : R) :
  0 < fs -> 0 < INR step * dx ->
  length (freq_axis nns fs) = nns /\
  length (knum_axis nnx step dx) = nnx /\
  ((0 < nns)%nat -> nth (nns / 2) (freq_axis nns fs) 0 = 0) /\
  ((0 < nnx)%nat -> nth (nnx / 2) (knum_axis nnx step dx) 0 = 0) /\
  (forall i j, (i < j)%nat -> (j < nns)%nat ->
     nth i (freq_axis nns fs) 0 < nth j (freq_axis nns fs) 0) /\
  (forall i j, (i < j)%nat -> (j < nnx)%nat ->
     nth i (knum_axis nnx step dx) 0 < nth j (knum_axis nnx step dx) 0).
Proof.
  intros Hfs Hdx.
  assert (Hd : 0 < 1 / fs) by (apply Rdiv_lt_0_compat; lra).
  repeat split.
  - apply freq_axis_length.
  - apply knum_axis_length.
  - apply centred_axis_zero.
  - apply centred_axis_zero.
  - intros i j Hij Hj. now apply centred_axis_increasing.
  - intros i j Hij Hj. now apply centred_axis_increasing.
Qed.

Lemma design_axes_zero_centred_witness :
  nth 1 (freq_axis 8 10) 0 < nth 2 (freq_axis 8 10) 0.
Proof.
  refine (proj1 (proj2 (proj2 (proj2 (proj2
            (design_axes_zero_centred 4 8 1 1 10 _ _))))) 1%nat 2%nat _ _).
  - lra.
  - simpl. lra.
  - lia.
  - lia.
Defined.

(** ** fk_filter_design *)

(** X2.  [fk_filter_design] returns a mask of the shape of the trace,
    and the loop over the wavenumbers assigns every row: no entry of the
    mask keeps the content of the array that [np.ndarray] allocated. *)
Theorem fk_filter_design_fully_assigned
    (uninit uninit' : nat -> nat -> R) (nnx nns start stop step : nat)
    (dx fs cs_min cp_min cp_max cs_max : R) :
  shape (fk_filter_design uninit (nnx, nns) (start, stop, step) dx fs
           cs_min cp_min cp_max cs_max) = (nnx, nns) /\
  array_eq
    (fk_filter_design uninit (nnx, nns) (start, stop, step) dx fs
       cs_min cp_min cp_max cs_max)
    (fk_filter_design uninit' (nnx, nns) (start, stop, step) dx fs
       cs_min cp_min cp_max cs_max).
Proof.
  split; [apply fk_filter_design_shape|]. split.
  - now rewrite !fk_filter_design_shape.
  - unfold nrows, ncols. rewrite fk_filter_design_shape. cbn [fst snd].
    intros i j Hi Hj. now rewrite !fk_filter_design_item by assumption.
Qed.

(** X3.  The four regions of the gain of [fk_filter_design], for an
    ordered speed band and a row with [|k| >= 0.005]: the entry is 0
    where the speed [|f/k|] is below [cs_min] or at least [cs_max], 1
    where it lies strictly between [cp_min] and [cp_max], the rising
    half-sine on [[cs_min, cp_min]] (below [cp_max]) and the falling one
    on [[cp_max, cs_max)]. *)
Theorem fk_filter_design_regions
    (uninit : nat -> nat -> R) (nnx nns start stop step : nat)
    (dx fs cs_min cp_min cp_max cs_max : R) (i j : nat) :
  cs_min <= cp_min -> cp_min <= cp_max -> cp_max <= cs_max ->
  (i < nnx)%nat -> (j < nns)%nat ->
  0.005 <= Rabs (nth i (knum_axis nnx step dx) 0) ->
  let s := Rabs (nth j (freq_axis nns fs) 0 / nth i (knum_axis nnx step dx) 0) in
  let v := item (fk_filter_design uninit (nnx, nns) (start, stop, step) dx fs
                   cs_min cp_min cp_max cs_max) i j in
  (s < cs_min \/ cs_max <= s -> v = 0) /\
  (cp_min < s < cp_max -> v = 1) /\
  (cs_min <= s <= cp_min -> s < cp_max ->
   v = sin (0.5 * PI * (s - cs_min) / (cp_min - cs_min))) /\
  (cp_max <= s < cs_max ->
   v = 1 - sin (0.5 * PI * (s - cp_max) / (cs_max - cp_max))).
Proof.
  intros H1 H2 H3 Hi Hj Hk s v. subst v.
  rewrite fk_filter_design_item by assumption. fold s.
  rewrite (proj2 (Rltb_false_iff _ _) Hk). unfold fk_gain.
  repeat split.
  - intros [Hs|Hs].
    + now rewrite (proj2 (Rltb_true_iff _ _) Hs).
    + destruct (Rltb s cs_min); [reflexivity|].
      now rewrite (proj2 (Rgeb_true_iff _ _) Hs).
  - intros [Ha Hb].
    rewrite (proj2 (Rltb_false_iff _ _)) by lra.
    rewrite (proj2 (Rgeb_false_iff _ _)) by lra.
    rewrite (proj2 (Rgeb_false_iff s cp_max)) by lra. cbn [andb].
    rewrite (proj2 (Rleb_false_iff s cp_min)) by lra.
    now rewrite andb_false_r.
  - intros [Ha Hb] Hc.
    rewrite (proj2 (Rltb_false_iff _ _)) by lra.
    rewrite (proj2 (Rgeb_false_iff _ _)) by lra.
    rewrite (proj2 (Rgeb_false_iff s cp_max)) by lra. cbn [andb].
    rewrite (proj2 (Rgeb_true_iff s cs_min)) by lra.
    now rewrite (proj2 (Rleb_true_iff s cp_min)) by lra.
  - intros [Ha Hb].
    rewrite (proj2 (Rltb_false_iff _ _)) by lra.
    rewrite (proj2 (Rgeb_false_iff _ _)) by lra.
    rewrite (proj2 (Rgeb_true_iff s cp_max)) by lra.
    now rewrite (proj2 (Rleb_true_iff s cs_max)) by lra.
Qed.

Lemma fk_filter_design_regions_witness :
  item (fk_filter_design (fun _ _ => 7) (4, 8)%nat (0, 4, 1)%nat 1 10 1 2 3 4)
       0 3 = 1.
Proof.
  refine (proj1 (proj2 (fk_filter_design_regions (fun _ _ => 7) 4 8 0 4 1 1 10
                          1 2 3 4 0 3 _ _ _ _ _ _)) _); try lra; try lia.
  - rewrite scenario_knum. cbn [nth]. rewrite Rabs_left1 by lra. lra.
  - rewrite scenario_knum, scenario_freq. cbn [nth].
    rewrite Rabs_pos_eq by lra. lra.
Defined.

(** X4.  For a positive [cs_min], the column of frequency zero (index
    [ns // 2]) of the mask of [fk_filter_design] is entirely zero: the
    filter removes the mean of every channel. *)
Theorem fk_filter_design_zero_frequency
    (uninit : nat -> nat -> R) (nnx nns start stop step : nat)
    (dx fs cs_min cp_min cp_max cs_max : R) (i : nat) :
  0 < cs_min -> (i < nnx)%nat -> (0 < nns)%nat ->
  item (fk_filter_design uninit (nnx, nns) (start, stop, step) dx fs
          cs_min cp_min cp_max cs_max) i (nns / 2) = 0.
Proof.
  intros Hc Hi Hn.
  assert (Hh : (nns / 2 < nns)%nat) by (apply Nat.div_lt; lia).
  rewrite fk_filter_design_item by assumption.
  destruct (Rltb _ _); [reflexivity|].
  unfold freq_axis. rewrite centred_axis_zero by exact Hn.
  unfold Rdiv. rewrite Rmult_0_l, Rabs_R0. unfold fk_gain.
  now rewrite (proj2 (Rltb_true_iff 0 cs_min) Hc).
Qed.

Lemma fk_filter_design_zero_frequency_witness :
  item (fk_filter_design (fun _ _ => 7) (4, 8)%nat (0, 4, 1)%nat 1 10
          1400 1450 3400 3500) 1 (8 / 2) = 0.
Proof.
  apply (fk_filter_design_zero_frequency (fun _ _ => 7) 4 8 0 4 1 1 10
           1400 1450 3400 3500 1); try lra; lia.
Defined.



(** ** hybrid_filter_design *)

Lemma quarter_sine_bounds (num den : R) :
  0 <= num / den <= 1 -> 0 <= sin (0.5 * PI * num / den) <= 1.
Proof.
  intros Ht. pose proof PI_RGT_0 as Hpi.
  replace (0.5 * PI * num / den) with (PI / 2 * (num / den))
    by (replace 0.5 with (1 / 2) by lra; unfold Rdiv; ring).
  split; [apply sin_ge_0; nra | apply SIN_bound].
Qed.

Lemma quarter_sine_neg_bounds (num den : R) :
  -1 <= num / den <= 0 -> -1 <= sin (0.5 * PI * num / den) <= 0.
Proof.
  intros Ht. pose proof PI_RGT_0 as Hpi.
  replace (0.5 * PI * num / den) with (- (PI / 2 * (- (num / den))))
    by (replace 0.5 with (1 / 2) by lra; unfold Rdiv; ring).
  rewrite sin_neg.
  assert (H : 0 <= sin (PI / 2 * - (num / den))) by (apply sin_ge_0; nra).
  pose proof (SIN_bound (PI / 2 * - (num / den))). lra.
Qed.

Lemma quarter_cosine_bounds (num den : R) :
  -1 <= num / den <= 0 -> 0 <= cos (0.5 * PI * num / den) <= 1.
Proof.
  intros Ht. pose proof PI_RGT_0 as Hpi.
  replace (0.5 * PI * num / den) with (PI / 2 * (num / den))
    by (replace 0.5 with (1 / 2) by lra; unfold Rdiv; ring).
  split; [apply cos_ge_0; nra | apply COS_bound].
Qed.

Lemma ratio_unit (num den : R) :
  (0 < den /\ 0 <= num <= den) \/ (den < 0 /\ den <= num <= 0) ->
  0 <= num / den <= 1.
Proof.
  intros [[Hd Hn]|[Hd Hn]].
  - split.
    + apply Rmult_le_pos; [lra|]. left. now apply Rinv_0_lt_compat.
    + apply Rmult_le_reg_r with den; [lra|]. unfold Rdiv.
      rewrite Rmult_assoc, Rinv_l by lra. lra.
  - replace (num / den) with ((- num) / (- den)) by (field; lra).
    split.
    + apply Rmult_le_pos; [lra|]. left. apply Rinv_0_lt_compat. lra.
    + apply Rmult_le_reg_r with (- den); [lra|]. unfold Rdiv.
      rewrite Rmult_assoc, Rinv_l by lra. lra.
Qed.

Lemma ratio_neg_unit (num den : R) :
  (0 < den /\ - den <= num <= 0) \/ (den < 0 /\ 0 <= num <= - den) ->
  -1 <= num / den <= 0.
Proof.
  intros H.
  assert (Hr : 0 <= (- num) / den <= 1).
  { apply ratio_unit. destruct H as [[Hd Hn]|[Hd Hn]]; [left | right]; lra. }
  replace (num / den) with (- ((- num) / den)) by (unfold Rdiv; ring). lra.
Qed.

Lemma hybrid_H_unit (freq : list R) (fmin fmax : R) (j : nat) :
  (j < length freq)%nat -> 0 <= nth j (hybrid_H freq fmin fmax) 0 <= 1.
Proof.
  intros Hj. rewrite hybrid_H_nth by exact Hj. cbv zeta.
  set (f := nth j freq 0).
  destruct (Rgeb f fmax && Rleb f (fmax + 4)) eqn:H1.
  { apply andb_Rgeb_Rleb in H1. apply quarter_cosine_bounds.
    apply ratio_neg_unit. right. lra. }
  destruct (Rgeb f fmin && Rleb f fmax); [lra|].
  destruct (Rgeb f (fmin - 4) && Rleb f fmin) eqn:H3; [|lra].
  apply andb_Rgeb_Rleb in H3. apply quarter_sine_bounds.
  apply ratio_unit. left. lra.
Qed.

(** X6.  The frequency response [H] of the hybrid filters lies in
    [[0, 1]] at every frequency, equals 1 on the passband
    [[fmin, fmax]], and is 0 strictly outside
    [[fmin - 4, fmax + 4]] (for a band with [fmin <= fmax + 4]). *)
Theorem hybrid_H_response (freq : list R) (fmin fmax : R) (j : nat) :
  (j < length freq)%nat ->
  let f := nth j freq 0 in
  let h := nth j (hybrid_H freq fmin fmax) 0 in
  0 <= h <= 1 /\
  (fmin <= f <= fmax -> h = 1) /\
  (fmin <= fmax + 4 -> f < fmin - 4 \/ fmax + 4 < f -> h = 0).
Proof.
  intros Hj f h. split; [|split].
  - subst h. now apply hybrid_H_unit.
  - intros Hp. subst h. rewrite hybrid_H_nth by exact Hj. cbv zeta. fold f.
    destruct (Rgeb f fmax && Rleb f (fmax + 4)) eqn:H1.
    + apply andb_Rgeb_Rleb in H1. assert (E : f = fmax) by lra. rewrite E.
      replace (0.5 * PI * (fmax - fmax) / (fmax - (fmax + 4))) with 0
        by (unfold Rdiv; ring).
      apply cos_0.
    + now rewrite (proj2 (andb_Rgeb_Rleb f fmin fmax) Hp).
  - intros Hb Hout. now apply hybrid_H_zero_outside.
Qed.

Lemma hybrid_H_response_witness :
  nth 3 (hybrid_H [-40; -20; 0; 20; 40] 15 25) 0 = 1.
Proof.
  refine (proj1 (proj2 (hybrid_H_response [-40; -20; 0; 20; 40] 15 25 3 _)) _).
  - simpl. lia.
  - cbn [nth]. lra.
Defined.

Lemma hybrid_filter_col_length (knum : list R) (f cs_min cp_min : R) :
  length (hybrid_filter_col knum f cs_min cp_min) = length knum.
Proof.
  unfold hybrid_filter_col. rewrite putmask_scalar_length.
  destruct (negb _); rewrite ?putmask_length; apply repeat_length.
Qed.

(** The gain of one column lies in [[0, 1]], whatever the speeds. *)
Lemma hybrid_filter_col_bounds (knum : list R) (f cs_min cp_min : R) (r : nat) :
  0 <= nth r (hybrid_filter_col knum f cs_min cp_min) 0 <= 1.
Proof.
  destruct (Nat.ltb_spec r (length knum)) as [Hr|Hr].
  2:{ rewrite nth_overflow by (now rewrite hybrid_filter_col_length). lra. }
  unfold hybrid_filter_col.
  set (ks := f / cs_min). set (kp := f / cp_min).
  rewrite (putmask_scalar_map_nth _ _ _ knum r 0 0)
    by (destruct (negb _); rewrite ?putmask_length; unfold np.zeros_like, np.zeros;
        rewrite repeat_length; lia).
  set (k := nth r knum 0).
  destruct (Rltb k kp && Rgtb k (- kp)); [lra|].
  destruct (Reqb ks kp) eqn:He; cbn [negb].
  { unfold np.zeros_like, np.zeros. rewrite nth_repeat_in by exact Hr. lra. }
  apply Reqb_false_iff in He.
  rewrite (putmask_map_nth _ _ _ knum r 0 0)
    by (rewrite ?putmask_length; unfold np.zeros_like, np.zeros;
        rewrite repeat_length; lia).
  fold k.
  destruct (Rgeb (- k) (- ks) && Rleb (- k) (- kp)) eqn:H2.
  { apply andb_Rgeb_Rleb in H2. apply quarter_sine_bounds.
    apply ratio_unit. right. lra. }
  rewrite (putmask_map_nth _ _ _ knum r 0 0)
    by (unfold np.zeros_like, np.zeros; rewrite repeat_length; lia).
  fold k.
  destruct (Rgeb k (- ks) && Rleb k (- kp)) eqn:H1.
  { apply andb_Rgeb_Rleb in H1.
    assert (Hs : -1 <= sin (0.5 * PI * (k + ks) / (kp - ks)) <= 0).
    { apply quarter_sine_neg_bounds. apply ratio_neg_unit. right. lra. }
    lra. }
  unfold np.zeros_like, np.zeros. rewrite nth_repeat_in by exact Hr. lra.
Qed.

Lemma freq_axis_mirror_le (nns : nat) (fs : R) (c : nat) :
  0 < fs -> (c < nns)%nat ->
  nth (nns - 1 - c) (freq_axis nns fs) 0 <= - nth c (freq_axis nns fs) 0.
Proof.
  intros Hfs Hc. rewrite !freq_axis_nth by lia.
  assert (Hn : 0 < INR nns) by (apply lt_0_INR; lia).
  assert (Hv : 0 < 1 / (INR nns * (1 / fs))).
  { apply Rdiv_lt_0_compat; [lra|]. apply Rmult_lt_0_compat; [exact Hn|].
    apply Rdiv_lt_0_compat; lra. }
  rewrite Ropp_mult_distr_l, <- opp_IZR.
  apply Rmult_le_compat_r; [lra|]. apply IZR_le.
  pose proof (Nat.div_mod_eq nns 2) as E.
  pose proof (Nat.mod_upper_bound nns 2 ltac:(lia)). lia.
Qed.

(** X7.  For a trace shape without an extent 0, a positive sampling
    frequency, a channel spacing [step * dx] other than 0, speeds
    [cs_min] and [cp_min] other than 0 and a band above the taper
    ([4 < fmin], [fmin <= fmax + 4]), the mask that
    [hybrid_filter_design] returns has the shape of the trace and every
    entry of it lies in [[0, 1]]: the symmetrisation never adds two
    non-zero entries. *)
Theorem hybrid_filter_design_unit_interval
    (nnx nns start stop step : nat) (dx fs cs_min cp_min fmin fmax : R)
    (i j : nat) :
  (0 < nnx)%nat -> (0 < nns)%nat ->
  0 < fs -> INR step * dx <> 0 -> cs_min <> 0 -> cp_min <> 0 ->
  4 < fmin -> fmin <= fmax + 4 ->
  sparse.coo_shape (hybrid_filter_design (nnx, nns) (start, stop, step) dx fs
                      cs_min cp_min fmin fmax) = (nnx, nns) /\
  0 <= sparse.getitem (hybrid_filter_design (nnx, nns) (start, stop, step) dx fs
                         cs_min cp_min fmin fmax) i j <= 1.
Proof.
  intros _ _ Hfs _ _ _ Hmin Hband. split.
  { unfold hybrid_filter_design. cbn [sparse.from_numpy sparse.coo_shape].
    apply hybrid_filter_dense_shape. }
  unfold hybrid_filter_design. rewrite from_numpy_getitem.
  unfold nrows, ncols. rewrite hybrid_filter_dense_shape. cbn [fst snd].
  destruct (Nat.ltb_spec i nnx) as [Hi|Hi]; [|cbn [andb]; lra].
  destruct (Nat.ltb_spec j nns) as [Hj|Hj]; [|cbn [andb]; lra].
  cbn [andb]. rewrite hybrid_filter_dense_item. cbv zeta.
  set (freq := freq_axis nns fs). set (knum := knum_axis nnx step dx).
  set (H := hybrid_H freq fmin fmax).
  assert (Hlen : length freq = nns) by apply freq_axis_length.
  assert (HH : forall c, (c < nns)%nat -> 0 <= nth c H 0 <= 1).
  { intros c Hc. apply hybrid_H_unit. lia. }
  assert (Hloop : forall c b, (c < nns)%nat ->
            0 <= (if b : bool
                  then nth c H 0 *
                       nth i (hybrid_filter_col knum (nth c freq 0) cs_min cp_min) 0
                  else nth c H 0) <= nth c H 0).
  { intros c b Hc. pose proof (HH c Hc) as Hh.
    pose proof (hybrid_filter_col_bounds knum (nth c freq 0) cs_min cp_min i) as Hb.
    destruct b; [nra | lra]. }
  assert (Hj' : (nns - 1 - j < nns)%nat) by lia.
  destruct (Rlt_dec (nth j freq 0) (fmin - 4)) as [Hlow|Hhigh].
  - assert (E : nth j H 0 = 0)
      by (apply hybrid_H_zero_outside; [lra | lia | now left]).
    match goal with
    | |- _ <= (if ?b1 then _ else _) + (if ?b2 then _ else _) <= _ =>
        pose proof (Hloop j b1 Hj) as B1;
        pose proof (Hloop (nns - 1 - j)%nat b2 Hj') as B2
    end.
    pose proof (HH (nns - 1 - j)%nat Hj'). rewrite E in B1 |- *. lra.
  - assert (E : nth (nns - 1 - j) H 0 = 0).
    { apply hybrid_H_zero_outside; [lra | lia | left].
      pose proof (freq_axis_mirror_le nns fs j Hfs Hj) as Hm. fold freq in Hm.
      lra. }
    match goal with
    | |- _ <= (if ?b1 then _ else _) + (if ?b2 then _ else _) <= _ =>
        pose proof (Hloop j b1 Hj) as B1;
        pose proof (Hloop (nns - 1 - j)%nat b2 Hj') as B2
    end.
    pose proof (HH j Hj). rewrite E in B2 |- *. lra.
Qed.

Lemma hybrid_filter_design_unit_interval_witness :
  0 <= sparse.getitem
         (hybrid_filter_design (1, 5)%nat (0, 1, 1)%nat 1 100 1400 1450 15 25)
         0 3 <= 1.
Proof.
  refine (proj2 (hybrid_filter_design_unit_interval 1 5 0 1 1 1 100 1400 1450
                   15 25 0 3 _ _ _ _ _ _ _ _)); try lia; try lra.
  simpl INR. lra.
Defined.

(** ** hybrid_ninf_filter_design *)

Lemma hybrid_ninf_filter_dense_shape
      nnx nns sel dx fs cs_min cp_min cp_max cs_max fmin fmax :
  shape (hybrid_ninf_filter_dense (nnx, nns) sel dx fs
           cs_min cp_min cp_max cs_max fmin fmax) = (nnx, nns).
Proof.
  destruct sel as [[start stop] step]. unfold hybrid_ninf_filter_dense, range.
  cbn [iadd shape].
  match goal with
  | |- shape (fold_left _ (seq ?a ?n) ?M0) = _ =>
      destruct (fold_mul_col
        (fun i => hybrid_ninf_filter_col (knum_axis nnx step dx)
                    (nth i (freq_axis nns fs) 0) cs_min cp_min cp_max cs_max)
        n a M0) as [Hs _]
  end.
  rewrite Hs. cbn [np.tile shape].
  now rewrite knum_axis_length, hybrid_H_length, freq_axis_length.
Qed.

(** The entry after the two symmetrisations: the sum of the loop matrix
    at the entry, at its left-right mirror, at its up-down mirror and at
    the mirror of both. *)
Lemma hybrid_ninf_filter_dense_item
      nnx nns start stop step dx fs cs_min cp_min cp_max cs_max fmin fmax r c :
  let freq := freq_axis nns fs in
  let knum := knum_axis nnx step dx in
  let H := hybrid_H freq fmin fmax in
  let fmin_idx := np.argmax (map (fun f => Rgeb f (fmin - 4)) freq) in
  let fmax_idx := np.argmax (map (fun f => Rgeb f (fmax + 4)) freq) in
  let looped r c :=
    if ((fmin_idx <=? c) && (c <? fmin_idx + (fmax_idx - fmin_idx)))%nat
    then nth c H 0 *
         nth r (hybrid_ninf_filter_col knum (nth c freq 0)
                  cs_min cp_min cp_max cs_max) 0
    else nth c H 0 in
  item (hybrid_ninf_filter_dense (nnx, nns) (start, stop, step) dx fs
          cs_min cp_min cp_max cs_max fmin fmax) r c =
  (looped r c + looped r (nns - 1 - c)%nat) +
  (looped (nnx - 1 - r)%nat c + looped (nnx - 1 - r)%nat (nns - 1 - c)%nat).
Proof.
  intros freq knum H fmin_idx fmax_idx looped.
  unfold hybrid_ninf_filter_dense, range. fold freq knum H fmin_idx fmax_idx.
  cbn [iadd item np.fliplr np.flipud].
  destruct (fold_mul_col
    (fun i => hybrid_ninf_filter_col knum (nth i freq 0) cs_min cp_min cp_max cs_max)
    (fmax_idx - fmin_idx) fmin_idx (np.tile H (length knum))) as [Hs Hi].
  cbv zeta in Hs, Hi. unfold ncols, nrows. cbn [iadd shape]. rewrite Hs, !Hi.
  cbn [np.tile shape fst snd item].
  replace (length H) with nns
    by (unfold H, freq; now rewrite hybrid_H_length, freq_axis_length).
  replace (length knum) with nnx by (unfold knum; now rewrite knum_axis_length).
  reflexivity.
Qed.

(** X8.  The double-sided filter [hybrid_ninf_filter_design] returns a
    mask of the shape of the trace, and for a band with
    [fmin <= fmax + 4] a column is entirely zero when its frequency and
    the frequency of its mirror column [ns - 1 - j] both lie strictly
    outside [[fmin - 4, fmax + 4]]. *)
Theorem hybrid_ninf_filter_design_zero_columns
    (nnx nns start stop step : nat)
    (dx fs cs_min cp_min cp_max cs_max fmin fmax : R) (j : nat) :
  fmin <= fmax + 4 ->
  (j < nns)%nat ->
  nth j (freq_axis nns fs) 0 < fmin - 4 \/
    fmax + 4 < nth j (freq_axis nns fs) 0 ->
  nth (nns - 1 - j) (freq_axis nns fs) 0 < fmin - 4 \/
    fmax + 4 < nth (nns - 1 - j) (freq_axis nns fs) 0 ->
  sparse.coo_shape
    (hybrid_ninf_filter_design (nnx, nns) (start, stop, step) dx fs
       cs_min cp_min cp_max cs_max fmin fmax) = (nnx, nns) /\
  forall i,
    sparse.getitem
      (hybrid_ninf_filter_design (nnx, nns) (start, stop, step) dx fs
         cs_min cp_min cp_max cs_max fmin fmax) i j = 0.
Proof.
  intros Hband Hj Hout Hmir. split.
  { unfold hybrid_ninf_filter_design. cbn [sparse.from_numpy sparse.coo_shape].
    apply hybrid_ninf_filter_dense_shape. }
  intros i. unfold hybrid_ninf_filter_design.
  rewrite from_numpy_getitem. destruct (_ && _)%bool; [|reflexivity].
  rewrite hybrid_ninf_filter_dense_item. cbv zeta.
  rewrite (hybrid_H_zero_outside _ fmin fmax j)
    by (rewrite ?freq_axis_length; assumption).
  rewrite (hybrid_H_zero_outside _ fmin fmax (nns - 1 - j))
    by (rewrite ?freq_axis_length; try assumption; lia).
  repeat match goal with |- context [if ?b then _ else _] => destruct b end; ring.
Qed.

Lemma hybrid_ninf_filter_design_zero_columns_witness :
  sparse.getitem
    (hybrid_ninf_filter_design (1, 5)%nat (0, 1, 1)%nat 1 100
       1400 1450 3400 3500 15 25) 0 2 = 0.
Proof.
  refine (proj2 (hybrid_ninf_filter_design_zero_columns 1 5 0 1 1 1 100
                   1400 1450 3400 3500 15 25 2 _ _ _ _) 0%nat).
  - lra.
  - lia.
  - rewrite freq_5_100. cbn [nth]. left. lra.
  - rewrite freq_5_100. cbn [Nat.sub nth]. left. lra.
Defined.

(** ** hybrid_ninf_gs_filter_design *)

Lemma hybrid_ninf_gs_loop_01
      nnx nns sel dx fs cs_min cp_min cp_max cs_max fmin fmax r c :
  item (hybrid_ninf_gs_loop (nnx, nns) sel dx fs
          cs_min cp_min cp_max cs_max fmin fmax) r c = 0 \/
  item (hybrid_ninf_gs_loop (nnx, nns) sel dx fs
          cs_min cp_min cp_max cs_max fmin fmax) r c = 1.
Proof.
  destruct sel as [[start stop] step]. unfold hybrid_ninf_gs_loop, range.
  match goal with
  | |- context [fold_left _ (seq ?a ?n) ?M0] =>
      destruct (fold_mul_col
        (fun i => hybrid_ninf_gs_filter_col (knum_axis nnx step dx)
                    (nth i (freq_axis nns fs) 0) cs_min cp_min cp_max cs_max)
        n a M0) as [_ Hi]
  end.
  cbv zeta in Hi. rewrite Hi. cbn [np.tile item].
  unfold hybrid_ninf_gs_filter_col, np.zeros_like, np.zeros.
  match goal with
  | |- context [nth c (np.putmask_scalar (repeat 0 ?n) ?m 1) 0] =>
      destruct (putmask_scalar_zeros_01 n m c) as [-> | ->]
  end;
  match goal with
  | |- context [nth r (np.putmask_scalar (repeat 0 ?n) ?m 1) 0] =>
      destruct (putmask_scalar_zeros_01 n m r) as [-> | ->]
  end;
  destruct (_ && _)%bool; lra.
Qed.

(** X9.  [hybrid_ninf_gs_filter_design] never reads the two stop-band
    speeds: for every smoothing function the returned mask is the same
    for all values of [cs_min] and [cs_max], and before the smoothing
    every entry of its matrix is exactly 0 or exactly 1. *)
Theorem hybrid_ninf_gs_ignores_stop_speeds
    (gaussian_filter : ndarray R -> R -> ndarray R)
    (nnx nns start stop step : nat)
    (dx fs cs_min cp_min cp_max cs_max fmin fmax : R) :
  (forall cs_min' cs_max',
     hybrid_ninf_gs_filter_design gaussian_filter (nnx, nns) (start, stop, step)
       dx fs cs_min' cp_min cp_max cs_max' fmin fmax =
     hybrid_ninf_gs_filter_design gaussian_filter (nnx, nns) (start, stop, step)
       dx fs cs_min cp_min cp_max cs_max fmin fmax) /\
  (forall i j,
     let v := item (hybrid_ninf_gs_loop (nnx, nns) (start, stop, step) dx fs
                      cs_min cp_min cp_max cs_max fmin fmax) i j in
     v = 0 \/ v = 1).
Proof.
  split.
  - intros cs_min' cs_max'. reflexivity.
  - intros i j. apply hybrid_ninf_gs_loop_01.
Qed.

(** ** The application of a mask: errors, tapering, superposition *)

(** X10.  On a trace without channels or without samples both
    applications fail in the forward transform, whatever the mask and
    the tapering are: the shape of the mask is not looked at. *)
Theorem fk_filter_empty_trace
    (trace mask : ndarray R) (smask : sparse.COO R) (tapering : bool) :
  (nrows trace = 0 \/ ncols trace = 0)%nat ->
  fk_filter_filt trace mask tapering = Err FFTPointsError /\
  fk_filter_sparsefilt trace smask tapering = Err FFTPointsError.
Proof.
  intros H. split.
  - now apply fk_filter_filt_empty.
  - now apply fk_filter_sparsefilt_empty.
Qed.

Lemma fk_filter_empty_trace_witness :
  fk_filter_filt (mk_ndarray (0, 3)%nat (fun _ _ => 1))
                 (mk_ndarray (7, 5)%nat (fun _ _ => 1)) true = Err FFTPointsError.
Proof.
  refine (proj1 (fk_filter_empty_trace (mk_ndarray (0, 3)%nat (fun _ _ => 1))
                   (mk_ndarray (7, 5)%nat (fun _ _ => 1))
                   (sparse.mk_COO (7, 5)%nat [] 0) true _)).
  left. reflexivity.
Defined.

Lemma filt_ones_any (trace mask : ndarray R) (tapering : bool) :
  (0 < nrows trace)%nat -> (0 < ncols trace)%nat ->
  shape mask = shape trace ->
  (forall i j, (i < nrows trace)%nat -> (j < ncols trace)%nat ->
               item mask i j = 1) ->
  exists out,
    fk_filter_filt trace mask tapering = Ok out /\
    array_eq out (if tapering then taper_data trace else trace).
Proof.
  intros HM HN Hs Hones. unfold fk_filter_filt.
  set (t' := if tapering then taper_data trace else trace).
  assert (Ht' : shape t' = shape trace) by apply taper_shape.
  assert (HM' : (0 < nrows t')%nat) by (unfold nrows; now rewrite Ht').
  assert (HN' : (0 < ncols t')%nat) by (unfold ncols; now rewrite Ht').
  destruct (spectrum_of_trace t' HM' HN') as [S [HS [Hsh [t [Ht Hta]]]]].
  assert (Hm : shape mask = shape S) by congruence.
  destruct (filtered_item S mask Hm) as [P [HP [HPs HPi]]].
  rewrite HS. cbn [bind]. rewrite HP. cbn [bind].
  assert (Heq : array_eq (np.ifftshift2 P) S).
  { split; [exact HPs|].
    unfold nrows, ncols. cbn [np.ifftshift2 shape]. rewrite HPs.
    intros k l Hk Hl. rewrite HPi by assumption.
    unfold nrows, ncols in *. rewrite Hsh, Ht' in *.
    rewrite Hones by (apply Nat.mod_upper_bound; lia).
    apply Cmul_1_r. }
  pose proof (ifft2_array_eq _ _ Heq) as Hr. rewrite Ht in Hr.
  destruct (np.ifft2 (np.ifftshift2 P)) as [t1|e1];
    cbn [result_eq] in Hr; [|contradiction].
  cbn [bind]. eexists. split; [reflexivity|].
  apply array_eq_trans with (np.real (np.astype_complex t')).
  - apply real_array_eq. now apply array_eq_trans with t.
  - apply real_astype_complex.
Qed.

(** X11.  With tapering and a mask of ones, [fk_filter_filt] returns the
    tapered trace: each channel multiplied by the Tukey window, and
    nothing else. *)
Theorem fk_filter_filt_taper_only (trace mask : ndarray R) :
  (0 < nrows trace)%nat -> (0 < ncols trace)%nat ->
  shape mask = shape trace ->
  (forall i j, (i < nrows trace)%nat -> (j < ncols trace)%nat ->
               item mask i j = 1) ->
  exists out,
    fk_filter_filt trace mask true = Ok out /\
    array_eq out (taper_data trace).
Proof.
  intros HM HN Hs Hones.
  exact (filt_ones_any trace mask true HM HN Hs Hones).
Qed.

Lemma fk_filter_filt_taper_only_witness :
  exists out,
    fk_filter_filt (mk_ndarray (2, 3)%nat (fun i j => INR (i + j)))
                   (mk_ndarray (2, 3)%nat (fun _ _ => 1)) true = Ok out /\
    array_eq out (taper_data (mk_ndarray (2, 3)%nat (fun i j => INR (i + j)))).
Proof.
  apply (fk_filter_filt_taper_only
           (mk_ndarray (2, 3)%nat (fun i j => INR (i + j)))
           (mk_ndarray (2, 3)%nat (fun _ _ => 1))).
  - unfold nrows; cbn; lia.
  - unfold ncols; cbn; lia.
  - reflexivity.
  - intros; reflexivity.
Defined.

(** ** taper_data *)

Lemma tukey_bounds (M : nat) (alpha : R) (width j : nat) :
  0 <= nth j (sp.tukey M alpha width) 0 <= 1.
Proof.
  unfold sp.tukey. destruct (M <=? 1)%nat.
  - unfold np.ones. destruct (Nat.ltb_spec j M) as [Hj|Hj].
    + rewrite nth_repeat_in by exact Hj. lra.
    + rewrite nth_overflow by (now rewrite repeat_length). lra.
  - destruct (Nat.ltb_spec j M) as [Hj|Hj].
    + rewrite (nth_map_in _ _ _ _ 0%nat) by (now rewrite length_seq).
      rewrite seq_nth by exact Hj. cbn [Nat.add].
      destruct (j <=? width)%nat.
      * match goal with |- context [cos ?x] => pose proof (COS_bound x) end. lra.
      * destruct (j <? M - width - 1)%nat; [lra|].
        match goal with |- context [cos ?x] => pose proof (COS_bound x) end. lra.
    + rewrite nth_overflow by (now rewrite length_map, length_seq). lra.
Qed.

(** X12.  [taper_data] keeps the shape of the trace and never amplifies
    a sample: the magnitude of every tapered sample is at most the
    magnitude of the sample. *)
Theorem taper_data_never_amplifies (trace : ndarray R) (i j : nat) :
  shape (taper_data trace) = shape trace /\
  Rabs (item (taper_data trace) i j) <= Rabs (item trace i j).
Proof.
  split; [reflexivity|]. cbn [taper_data item].
  pose proof (tukey_bounds (ncols trace) 0.03 (3 * (ncols trace - 1) / 200) j) as Hw.
  rewrite Rabs_mult, (Rabs_pos_eq (nth j _ 0)) by lra.
  pose proof (Rabs_pos (item trace i j)). nra.
Qed.

(** X13.  On a trace of at least two samples [taper_data] sets the first
    and the last sample of every channel to zero. *)
Theorem taper_data_zeroes_the_ends (trace : ndarray R) (i : nat) :
  (2 <= ncols trace)%nat ->
  item (taper_data trace) i 0 = 0 /\
  item (taper_data trace) i (ncols trace - 1) = 0.
Proof.
  intros Hn. cbn [taper_data item]. set (nt := ncols trace) in *.
  assert (Hw : (3 * (nt - 1) / 200 < nt - 1)%nat)
    by (apply Nat.Div0.div_lt_upper_bound; lia).
  unfold sp.tukey. rewrite (proj2 (Nat.leb_gt nt 1)) by lia.
  rewrite !(nth_map_in _ _ _ _ 0%nat) by (rewrite length_seq; lia).
  rewrite !seq_nth by lia. cbn [Nat.add Nat.leb].
  rewrite (proj2 (Nat.leb_gt (nt - 1) (3 * (nt - 1) / 200))) by lia.
  rewrite (proj2 (Nat.ltb_ge (nt - 1) (nt - 3 * (nt - 1) / 200 - 1))) by lia.
  assert (Hr : INR nt - 1 <> 0).
  { assert (2 <= INR nt) by (apply (le_INR 2); exact Hn). lra. }
  split.
  - replace (PI * (-1 + 2.0 * INR 0 / 0.03 / (INR nt - 1))) with (- PI)
      by (simpl INR; unfold Rdiv; ring).
    rewrite cos_neg, cos_PI. ring.
  - rewrite minus_INR by lia. simpl (INR 1).
    replace (PI * (-2.0 / 0.03 + 1 + 2.0 * (INR nt - 1) / 0.03 / (INR nt - 1)))
      with PI.
    + rewrite cos_PI. ring.
    + assert (E1 : 2.0 * (INR nt - 1) / 0.03 / (INR nt - 1) = 2.0 / 0.03).
      { unfold Rdiv. rewrite (Rmult_comm 2.0), !Rmult_assoc.
        rewrite (Rmult_comm (/ 0.03)), <- (Rmult_assoc 2.0), (Rmult_comm 2.0).
        rewrite !Rmult_assoc, <- Rmult_assoc, Rinv_r by exact Hr. ring. }
      rewrite E1. replace (-2.0 / 0.03 + 1 + 2.0 / 0.03) with 1 by lra. ring.
Qed.

Lemma taper_data_zeroes_the_ends_witness :
  item (taper_data (mk_ndarray (2, 3)%nat (fun i j => INR (i + j)))) 1 0 = 0.
Proof.
  refine (proj1 (taper_data_zeroes_the_ends
                   (mk_ndarray (2, 3)%nat (fun i j => INR (i + j))) 1 _)).
  unfold ncols; cbn; lia.
Defined.

(** ** Superposition *)

Lemma dft_lin (sign : R) (n : nat) (c : R) (x y z : nat -> complex) (k : nat) :
  (forall m, (m < n)%nat -> z m = Cadd (Cmul (RtoC c) (x m)) (y m)) ->
  dft sign n z k = Cadd (Cmul (RtoC c) (dft sign n x k)) (dft sign n y k).
Proof.
  intros H. unfold dft.
  rewrite <- Csum_mul_l, <- Csum_add. apply Csum_ext. intros m Hm.
  rewrite H by exact Hm.
  destruct (x m), (y m), (cis (sign * (2 * PI * INR m * INR k / INR n))). cring.
Qed.

Lemma filt_explicit (trace mask : ndarray R) (s : nat * nat) :
  (0 < nrows trace)%nat -> (0 < ncols trace)%nat ->
  np.broadcast_shapes (shape trace) (shape mask) = Some s ->
  (0 < fst s)%nat -> (0 < snd s)%nat ->
  fk_filter_filt trace mask false =
  Ok (mk_ndarray s
        (fun i j =>
           Cre (Cmul (RtoC (1 / INR (fst s)))
                  (dft 1 (fst s)
                     (fun k =>
                        Cmul (RtoC (1 / INR (snd s)))
                          (dft 1 (snd s)
                             (fun l =>
                                Cmul
                                  (dft (-1) (nrows trace)
                                     (fun m =>
                                        dft (-1) (ncols trace)
                                          (fun n => RtoC (item trace m n))
                                          ((np.bidx (ncols trace) ((l + snd s / 2) mod snd s)
                                            + (ncols trace - ncols trace / 2))
                                           mod ncols trace))
                                     ((np.bidx (nrows trace) ((k + fst s / 2) mod fst s)
                                       + (nrows trace - nrows trace / 2))
                                      mod nrows trace))
                                  (RtoC (item mask
                                           (np.bidx (nrows mask) ((k + fst s / 2) mod fst s))
                                           (np.bidx (ncols mask) ((l + snd s / 2) mod snd s)))))
                             j)) i)))).
Proof.
  intros HM HN Hb Hs1 Hs2. unfold fk_filter_filt.
  rewrite fft2_ok by assumption.
  cbn [bind]. rewrite (multiply_ok _ _ s) by exact Hb.
  cbn [bind]. rewrite ifft2_ok by (unfold nrows, ncols; cbn [shape]; assumption).
  cbn [bind]. reflexivity.
Qed.

Lemma fft_layer_lin (n1 n2 : nat) (x y : nat -> nat -> R) (c : R) (k l : nat) :
  dft (-1) n1 (fun m => dft (-1) n2 (fun n => RtoC (c * x m n + y m n)) l) k =
  Cadd (Cmul (RtoC c)
          (dft (-1) n1 (fun m => dft (-1) n2 (fun n => RtoC (x m n)) l) k))
       (dft (-1) n1 (fun m => dft (-1) n2 (fun n => RtoC (y m n)) l) k).
Proof.
  apply dft_lin. intros m _. apply dft_lin. intros n _. cring.
Qed.

Lemma ifft_layer_lin (a b : complex) (n1 n2 : nat)
      (Qx Qy Qz : nat -> nat -> complex) (c : R) (i j : nat) :
  (forall k l, Qz k l = Cadd (Cmul (RtoC c) (Qx k l)) (Qy k l)) ->
  Cmul a (dft 1 n1 (fun k => Cmul b (dft 1 n2 (fun l => Qz k l) j)) i) =
  Cadd (Cmul (RtoC c)
          (Cmul a (dft 1 n1 (fun k => Cmul b (dft 1 n2 (fun l => Qx k l) j)) i)))
       (Cmul a (dft 1 n1 (fun k => Cmul b (dft 1 n2 (fun l => Qy k l) j)) i)).
Proof.
  intros H.
  rewrite (dft_lin 1 n1 c
             (fun k => Cmul b (dft 1 n2 (fun l => Qx k l) j))
             (fun k => Cmul b (dft 1 n2 (fun l => Qy k l) j))).
  - destruct a, (dft 1 n1 (fun k => Cmul b (dft 1 n2 (fun l => Qx k l) j)) i),
      (dft 1 n1 (fun k => Cmul b (dft 1 n2 (fun l => Qy k l) j)) i). cring.
  - intros k _.
    rewrite (dft_lin 1 n2 c (fun l => Qx k l) (fun l => Qy k l))
      by (intros l _; apply H).
    destruct b, (dft 1 n2 (fun l => Qx k l) j), (dft 1 n2 (fun l => Qy k l) j).
    cring.
Qed.

Lemma Cmul_lin_l (c : R) (u v w : complex) :
  Cmul (Cadd (Cmul (RtoC c) u) v) w =
  Cadd (Cmul (RtoC c) (Cmul u w)) (Cmul v w).
Proof. destruct u, v, w. cring. Qed.

(** X14.  The application of a mask is linear in the trace: for two
    traces of one shape, filtering [c * x + y] gives [c] times the
    filtered [x] plus the filtered [y], also when the mask is broadcast
    against the spectrum. *)
Theorem fk_filter_filt_superposition
    (x y mask : ndarray R) (c : R) (s : nat * nat) :
  (0 < nrows x)%nat -> (0 < ncols x)%nat -> shape y = shape x ->
  np.broadcast_shapes (shape x) (shape mask) = Some s ->
  (0 < fst s)%nat -> (0 < snd s)%nat ->
  exists ox oy o,
    fk_filter_filt x mask false = Ok ox /\
    fk_filter_filt y mask false = Ok oy /\
    fk_filter_filt (array_add (array_scale c x) y) mask false = Ok o /\
    array_eq o (array_add (array_scale c ox) oy).
Proof.
  intros HM HN Hy Hb Hs1 Hs2.
  assert (Hyr : nrows y = nrows x) by (unfold nrows; now rewrite Hy).
  assert (Hyc : ncols y = ncols x) by (unfold ncols; now rewrite Hy).
  rewrite (filt_explicit x mask s) by assumption.
  rewrite (filt_explicit y mask s) by (rewrite ?Hyr, ?Hyc, ?Hy; assumption).
  rewrite (filt_explicit (array_add (array_scale c x) y) mask s) by assumption.
  do 3 eexists. repeat split.
  cbn [item array_add array_scale]. intros i j _ _.
  change (nrows (array_add (array_scale c x) y)) with (nrows x).
  change (ncols (array_add (array_scale c x) y)) with (ncols x).
  rewrite Hyr, Hyc.
  erewrite ifft_layer_lin.
  2:{ intros k l. cbv beta. rewrite fft_layer_lin, Cmul_lin_l. reflexivity. }
  cbv beta. csimp. ring.
Qed.

Lemma fk_filter_filt_superposition_witness :
  exists ox oy o,
    fk_filter_filt (mk_ndarray (2, 3)%nat (fun i j => INR (i + j)))
                   (mk_ndarray (1, 3)%nat (fun _ j => INR j)) false = Ok ox /\
    fk_filter_filt (mk_ndarray (2, 3)%nat (fun i j => INR (i * j)))
                   (mk_ndarray (1, 3)%nat (fun _ j => INR j)) false = Ok oy /\
    fk_filter_filt
      (array_add (array_scale 5 (mk_ndarray (2, 3)%nat (fun i j => INR (i + j))))
                 (mk_ndarray (2, 3)%nat (fun i j => INR (i * j))))
      (mk_ndarray (1, 3)%nat (fun _ j => INR j)) false = Ok o /\
    array_eq o (array_add (array_scale 5 ox) oy).
Proof.
  apply (fk_filter_filt_superposition
           (mk_ndarray (2, 3)%nat (fun i j => INR (i + j)))
           (mk_ndarray (2, 3)%nat (fun i j => INR (i * j)))
           (mk_ndarray (1, 3)%nat (fun _ j => INR j)) 5 (2, 3)%nat);
    try reflexivity; unfold nrows, ncols; cbn; lia.
Defined.

(** ** snr_tr_array on a trace without samples *)

(** X16.  On a trace without samples [snr_tr_array] returns an empty
    array with [env=False] and fails with [env=True]: the analytic
    signal of no sample raises. *)
Theorem snr_tr_array_no_sample
    (std : ndarray R -> ndarray R) (trace : ndarray R) :
  ncols trace = 0%nat ->
  snr_tr_array std trace true = Err HilbertLengthError /\
  exists out, snr_tr_array std trace false = Ok out /\ shape out = shape trace.
Proof.
  intros H. split.
  - unfold snr_tr_array, sp.hilbert. now rewrite H.
  - unfold snr_tr_array. eexists. split; reflexivity.
Qed.

Lemma snr_tr_array_no_sample_witness :
  snr_tr_array (fun a => mk_ndarray (nrows a, 1)%nat (fun _ _ => 0))
    (mk_ndarray (3, 0)%nat (fun _ _ => 1)) true = Err HilbertLengthError /\
  exists out,
    snr_tr_array (fun a => mk_ndarray (nrows a, 1)%nat (fun _ _ => 0))
      (mk_ndarray (3, 0)%nat (fun _ _ => 1)) false = Ok out /\
    shape out = (3, 0)%nat.
Proof.
  apply (snr_tr_array_no_sample
           (fun a => mk_ndarray (nrows a, 1)%nat (fun _ _ => 0))
           (mk_ndarray (3, 0)%nat (fun _ _ => 1))).
  reflexivity.
Defined.

(** ** get_fx *)

Lemma Cabs_nonneg (z : complex) : 0 <= Cabs z.
Proof. apply sqrt_pos. Qed.

Lemma Cabs_RtoC (x : R) : Cabs (RtoC x) = Rabs x.
Proof.
  unfold Cabs, RtoC. cbn [fst snd].
  replace (x * x + 0 * 0) with (Rsqr x) by (unfold Rsqr; ring).
  apply sqrt_Rsqr_abs.
Qed.

(** The index of the spectrum that [fftshift] moves to the index [j]. *)
Lemma fftshift_source (n j : nat) :
  (j < n)%nat ->
  (j + (n - n / 2)) mod n = if (j <? n / 2)%nat then (j + (n - n / 2))%nat
                            else (j - n / 2)%nat.
Proof.
  intros Hj.
  assert (Hh : (n / 2 < n)%nat) by (apply Nat.div_lt; lia).
  destruct (Nat.ltb_spec j (n / 2)) as [H|H].
  - apply Nat.mod_small. lia.
  - replace (j + (n - n / 2))%nat with ((j - n / 2) + 1 * n)%nat by lia.
    rewrite Nat.Div0.mod_add. apply Nat.mod_small. lia.
Qed.

(** The transform of a constant is concentrated at the frequency zero. *)
Lemma dft_constant (n q : nat) (a : R) :
  (0 < n)%nat -> (q < n)%nat ->
  dft (-1) n (fun _ => RtoC a) q =
  if (q =? 0)%nat then RtoC (a * INR n) else C0.
Proof.
  intros Hn Hq. unfold dft.
  rewrite (Csum_ext _
    (fun m => Cmul (RtoC a) (cis (2 * PI * INR m * (INR 0 - INR q) / INR n)))).
  2:{ intros m _. f_equal. f_equal. simpl (INR 0). unfold Rdiv. ring. }
  rewrite Csum_mul_l, (roots_of_unity_sum n 0 q) by assumption.
  rewrite Nat.eqb_sym.
  destruct (q =? 0)%nat; cring.
Qed.

(** X17.  [get_fx] fails when [nfft] is 0; for every other [nfft] it
    returns an array with one row per channel and [nfft] columns, none
    of whose entries is negative. *)
Theorem get_fx_shape_and_sign (trace : ndarray R) (n : nat) :
  get_fx trace 0 = Err FFTPointsError /\
  exists fx,
    get_fx trace (S n) = Ok fx /\
    shape fx = (nrows trace, S n) /\
    forall i j, 0 <= item fx i j.
Proof.
  split; [reflexivity|].
  unfold get_fx, np.fft_n. cbn [Nat.eqb bind].
  eexists. split; [reflexivity|]. split; [reflexivity|].
  intros i j. cbn [item].
  assert (H0 : 0 < INR (S n)) by (apply lt_0_INR; lia).
  apply Rmult_le_pos; [|apply pow_le; lra].
  apply Rmult_le_pos; [|apply Rlt_le, Rinv_0_lt_compat, H0].
  apply Rmult_le_pos; [lra | apply Cabs_nonneg].
Qed.

(** X18.  With [nfft] the number of samples, a channel that is constant
    at [a] has the spectrum [2 * |a| * 10 ** 9] at the centre column
    [nfft // 2] (the frequency zero) and 0 at every other column. *)
Theorem get_fx_constant_channel (trace : ndarray R) (i : nat) (a : R) :
  (0 < ncols trace)%nat ->
  (forall m, (m < ncols trace)%nat -> item trace i m = a) ->
  exists fx,
    get_fx trace (ncols trace) = Ok fx /\
    forall j, (j < ncols trace)%nat ->
      item fx i j = if (j =? ncols trace / 2)%nat then 2 * Rabs a * 10 ^ 9 else 0.
Proof.
  intros Hn Ha. unfold get_fx, np.fft_n.
  destruct (Nat.eqb_spec (ncols trace) 0) as [E|_]; [lia|].
  cbn [bind]. eexists. split; [reflexivity|].
  intros j Hj. unfold np.fftshift_axis1, ncols in *. cbn [item shape snd].
  set (n := snd (shape trace)) in *. clearbody n.
  assert (Hh : (n / 2 < n)%nat) by (apply Nat.div_lt; lia).
  assert (H0 : 0 < INR n) by (apply lt_0_INR; lia).
  rewrite (dft_ext _ _ _ (fun _ => RtoC a)).
  2:{ intros m Hm. destruct (Nat.ltb_spec m n) as [_|H]; [|lia].
      now rewrite Ha. }
  rewrite fftshift_source by exact Hj.
  rewrite dft_constant.
  2: exact Hn.
  2:{ destruct (Nat.ltb_spec j (n / 2)); lia. }
  destruct (Nat.eqb_spec j (n / 2)) as [->|Hne].
  - rewrite Nat.ltb_irrefl, Nat.sub_diag. cbn [Nat.eqb].
    rewrite Cabs_RtoC, Rabs_mult, (Rabs_pos_eq (INR n)) by lra.
    field. lra.
  - destruct (Nat.ltb_spec j (n / 2)) as [H|H].
    + destruct (Nat.eqb_spec (j + (n - n / 2)) 0) as [E|_]; [lia|].
      replace (Cabs C0) with 0; [unfold Rdiv; ring|].
      unfold Cabs, C0. cbn [fst snd]. rewrite Rmult_0_l, Rplus_0_l. now rewrite sqrt_0.
    + destruct (Nat.eqb_spec (j - n / 2) 0) as [E|_]; [lia|].
      replace (Cabs C0) with 0; [unfold Rdiv; ring|].
      unfold Cabs, C0. cbn [fst snd]. rewrite Rmult_0_l, Rplus_0_l. now rewrite sqrt_0.
Qed.

Lemma get_fx_constant_channel_witness :
  exists fx,
    get_fx (mk_ndarray (2, 4)%nat (fun i _ => INR i + 3)) 4 = Ok fx /\
    forall j, (j < 4)%nat ->
      item fx 1%nat j = if (j =? 2)%nat then 2 * Rabs 4 * 10 ^ 9 else 0.
Proof.
  apply (get_fx_constant_channel
           (mk_ndarray (2, 4)%nat (fun i _ => INR i + 3)) 1%nat 4).
  - unfold ncols; cbn; lia.
  - intros m _. cbn. lra.
Defined.

(** A sum of conjugates is the conjugate of the sum. *)
Lemma Csum_conj (f g : nat -> complex) (N : nat) :
  (forall m, fst (g m) = fst (f m) /\ snd (g m) = - snd (f m)) ->
  fst (Csum g N) = fst (Csum f N) /\ snd (Csum g N) = - snd (Csum f N).
Proof.
  intros H. induction N as [|N [IH1 IH2]]; cbn [Csum].
  - unfold C0. cbn [fst snd]. split; [reflexivity | ring].
  - unfold Cadd. cbn [fst snd]. rewrite IH1, IH2.
    destruct (H N) as [-> ->]. split; ring.
Qed.

(** The transform of real samples at two indices that carry opposite
    frequencies: one value is the conjugate of the other. *)
Lemma dft_real_opposite (n q q' c : nat) (r : nat -> R) :
  (0 < n)%nat -> (q + q' = c * n)%nat ->
  fst (dft (-1) n (fun m => RtoC (r m)) q') = fst (dft (-1) n (fun m => RtoC (r m)) q) /\
  snd (dft (-1) n (fun m => RtoC (r m)) q') = - snd (dft (-1) n (fun m => RtoC (r m)) q).
Proof.
  intros Hn Hq. unfold dft. apply Csum_conj. intros m.
  assert (H0 : INR n <> 0) by (apply not_0_INR; lia).
  assert (E : INR q' = INR c * INR n - INR q).
  { rewrite <- mult_INR, <- Hq, plus_INR. ring. }
  replace (-1 * (2 * PI * INR m * INR q' / INR n))
    with (- (2 * PI * INR (m * c)) + - (-1 * (2 * PI * INR m * INR q / INR n)))
    by (rewrite E, mult_INR; field; exact H0).
  pose proof (cis_2PI_nat (m * c)) as E2. unfold cis, C1 in E2.
  injection E2 as Ec Es.
  rewrite cis_add, !cis_opp, Ec, Es.
  unfold Cmul, RtoC, cis. cbn [fst snd]. split; ring.
Qed.

Lemma Cabs_conj (z w : complex) :
  fst w = fst z -> snd w = - snd z -> Cabs w = Cabs z.
Proof. intros H1 H2. unfold Cabs. rewrite H1, H2. f_equal. ring. Qed.

(** The two columns that [fftshift] gives opposite frequencies come
    from indices of the transform that add up to a multiple of [n]. *)
Lemma fftshift_source_mirror (n j : nat) :
  (j < n)%nat -> (Nat.even n = true -> 1 <= j)%nat ->
  exists c,
    ((j + (n - n / 2)) mod n + (mirror n j + (n - n / 2)) mod n = c * n)%nat.
Proof.
  intros Hj He.
  pose proof (mirror_lt n j Hj He) as Hm.
  rewrite !fftshift_source by assumption.
  unfold mirror in *.
  destruct (Nat.even n) eqn:E.
  - specialize (He eq_refl). apply Nat.even_spec in E. destruct E as [h E].
    assert (Eh : (n / 2 = h)%nat) by (subst n; symmetry; apply (Nat.div_unique _ 2 h 0); lia).
    rewrite Eh in *.
    destruct (Nat.ltb_spec j h), (Nat.ltb_spec (n - j) h);
      first [exists 1%nat; lia | exists 0%nat; lia].
  - assert (O : Nat.odd n = true) by (rewrite <- Nat.negb_even, E; reflexivity).
    apply Nat.odd_spec in O. destruct O as [h O].
    assert (Eh : (n / 2 = h)%nat) by (subst n; symmetry; apply (Nat.div_unique _ 2 h 1); lia).
    rewrite Eh in *.
    destruct (Nat.ltb_spec j h), (Nat.ltb_spec (n - 1 - j) h);
      first [exists 1%nat; lia | exists 0%nat; lia].
Qed.

(** X19.  The spectrum that [get_fx] returns is symmetric about the
    frequency zero: the column of a frequency and the column of the
    opposite frequency hold the same value (on an even number of points
    the column 0, the Nyquist frequency, has no opposite). *)
Theorem get_fx_symmetric_spectrum (trace : ndarray R) (n i j : nat) :
  (j < n)%nat -> (Nat.even n = true -> 1 <= j)%nat ->
  exists fx,
    get_fx trace n = Ok fx /\ item fx i (mirror n j) = item fx i j.
Proof.
  intros Hj He. unfold get_fx, np.fft_n.
  destruct (Nat.eqb_spec n 0) as [E|_]; [lia|].
  cbn [bind]. eexists. split; [reflexivity|].
  unfold np.fftshift_axis1, ncols. cbn [item shape snd].
  destruct (fftshift_source_mirror n j Hj He) as [c Hc].
  set (r := fun m => if (m <? snd (shape trace))%nat then item trace i m else 0).
  rewrite !(dft_ext (-1) n
              (fun m => if (m <? snd (shape trace))%nat
                        then RtoC (item trace i m) else C0)
              (fun m => RtoC (r m)))
    by (intros m _; unfold r; destruct (m <? snd (shape trace))%nat; reflexivity).
  destruct (dft_real_opposite n _ _ c r ltac:(lia) Hc) as [H1 H2].
  now rewrite (Cabs_conj _ _ H1 H2).
Qed.

Lemma get_fx_symmetric_spectrum_witness :
  exists fx,
    get_fx (mk_ndarray (2, 3)%nat (fun i j => INR (i + j * j))) 4 = Ok fx /\
    item fx 1%nat (mirror 4 1) = item fx 1%nat 1%nat.
Proof.
  apply (get_fx_symmetric_spectrum
           (mk_ndarray (2, 3)%nat (fun i j => INR (i + j * j))) 4 1 1).
  - lia.
  - intros _. lia.
Defined.

(** ** fk_filt *)

(** The two comparisons [ff < kk * c] and [ff < - kk * c] select the
    frequencies below [- |kk * c|]. *)
Lemma cone_indicator (f k c : R) :
  Rltb f (k * c) && Rltb f (- k * c) = true <-> f < - Rabs (k * c).
Proof.
  rewrite andb_true_iff, !Rltb_true_iff.
  unfold Rabs. destruct (Rcase_abs (k * c)); split; intros; try split; lra.
Qed.

Lemma cone_indicator_false (f k c : R) :
  Rltb f (k * c) && Rltb f (- k * c) = false <-> - Rabs (k * c) <= f.
Proof.
  rewrite andb_false_iff, !Rltb_false_iff.
  unfold Rabs. destruct (Rcase_abs (k * c)); (split; [intros [H|H]; lra | intros H]).
  - left. lra.
  - right. lra.
Qed.

Lemma fk_filt_presmooth_shape (nx ns : nat) (tint fs xint dx c_min c_max : R) :
  shape (fk_filt_presmooth nx ns tint fs xint dx c_min c_max) = (nx, ns).
Proof.
  unfold fk_filt_presmooth, np.meshgrid, iadd. cbn [shape].
  now rewrite !fftshift_fftfreq, !length_map, !length_seq.
Qed.

Lemma fk_filt_presmooth_item (nx ns : nat) (tint fs xint dx c_min c_max : R)
      (i j : nat) :
  let f := np.fftshift (np.fftfreq ns (tint / fs)) in
  let k := np.fftshift (np.fftfreq nx (xint * dx)) in
  let ind c j := if Rltb (nth j f 0) (nth i k 0 * c)
                    && Rltb (nth j f 0) (- nth i k 0 * c) then 1 else 0 in
  item (fk_filt_presmooth nx ns tint fs xint dx c_min c_max) i j =
  (1.0 * ind c_min j + 1.0 * ind c_min (ns - 1 - j)%nat)
  - (1.0 * ind c_max j + 1.0 * ind c_max (ns - 1 - j)%nat).
Proof.
  cbv zeta. unfold fk_filt_presmooth, np.meshgrid, iadd, np.fliplr, ncols.
  cbn [shape item snd].
  now rewrite !fftshift_fftfreq, !length_map, !length_seq.
Qed.

(** X20.  Before the smoothing, the filter of [fk_filt] holds only the
    values 0 and 1, for a positive sample spacing [tint / fs] and speeds
    with [|c_min| <= |c_max|]. *)
Theorem fk_filt_presmooth_values
    (nx ns : nat) (tint fs xint dx c_min c_max : R) (i j : nat) :
  0 < tint / fs -> Rabs c_min <= Rabs c_max -> (j < ns)%nat ->
  item (fk_filt_presmooth nx ns tint fs xint dx c_min c_max) i j = 0 \/
  item (fk_filt_presmooth nx ns tint fs xint dx c_min c_max) i j = 1.
Proof.
  intros Hd Hc Hj. rewrite fk_filt_presmooth_item. cbv zeta.
  set (f := np.fftshift (np.fftfreq ns (tint / fs))).
  set (kv := nth i (np.fftshift (np.fftfreq nx (xint * dx))) 0).
  assert (Hk : Rabs (kv * c_min) <= Rabs (kv * c_max)).
  { rewrite !Rabs_mult. apply Rmult_le_compat_l; [apply Rabs_pos | exact Hc]. }
  pose proof (Rabs_pos (kv * c_min)) as P1.
  (* the columns [j] and [ns - 1 - j] do not both carry a negative frequency *)
  assert (Hf : 0 <= nth j f 0 \/ 0 <= nth (ns - 1 - j) f 0).
  { unfold f. rewrite fftshift_fftfreq.
    rewrite !(nth_map_in _ _ _ _ 0%nat) by (rewrite length_seq; lia).
    rewrite !seq_nth by lia. cbn [Nat.add].
    assert (Hn : 0 < INR ns) by (apply lt_0_INR; lia).
    assert (Hv : 0 < 1 / (INR ns * (tint / fs))).
    { apply Rdiv_lt_0_compat; [lra|]. apply Rmult_lt_0_compat; assumption. }
    assert (Hh : (2 * (ns / 2) <= ns)%nat) by (apply Nat.Div0.mul_div_le).
    destruct (Nat.le_gt_cases (ns / 2) j) as [H|H].
    - left. apply Rmult_le_pos; [|lra]. apply IZR_le. lia.
    - right. apply Rmult_le_pos; [|lra]. apply IZR_le. lia. }
  replace 1.0 with 1 by lra.
  destruct (Rltb (nth j f 0) (kv * c_min) && Rltb (nth j f 0) (- kv * c_min)) eqn:A1;
  destruct (Rltb (nth j f 0) (kv * c_max) && Rltb (nth j f 0) (- kv * c_max)) eqn:A2;
  destruct (Rltb (nth (ns - 1 - j) f 0) (kv * c_min)
            && Rltb (nth (ns - 1 - j) f 0) (- kv * c_min)) eqn:B1;
  destruct (Rltb (nth (ns - 1 - j) f 0) (kv * c_max)
            && Rltb (nth (ns - 1 - j) f 0) (- kv * c_max)) eqn:B2;
  cbv iota;
  repeat match goal with
         | H : _ && _ = true |- _ => apply cone_indicator in H
         | H : _ && _ = false |- _ => apply cone_indicator_false in H
         end;
  first [left; lra | right; lra | exfalso; lra | exfalso; destruct Hf; lra].
Qed.

Lemma fk_filt_presmooth_values_witness :
  item (fk_filt_presmooth 4 8 1 10 1 2 1400 3500) 1 2 = 0 \/
  item (fk_filt_presmooth 4 8 1 10 1 2 1400 3500) 1 2 = 1.
Proof.
  apply (fk_filt_presmooth_values 4 8 1 10 1 2 1400 3500 1 2).
  - lra.
  - rewrite !Rabs_pos_eq by lra. lra.
  - lia.
Defined.

(** X21.  Before the smoothing, the filter of [fk_filt] is unchanged by
    a left-right flip: the columns [j] and [ns - 1 - j] are equal. *)
Theorem fk_filt_presmooth_flip_symmetric
    (nx ns : nat) (tint fs xint dx c_min c_max : R) (i j : nat) :
  (j < ns)%nat ->
  item (np.fliplr (fk_filt_presmooth nx ns tint fs xint dx c_min c_max)) i j =
  item (fk_filt_presmooth nx ns tint fs xint dx c_min c_max) i j.
Proof.
  intros Hj. unfold np.fliplr, ncols. cbn [item].
  rewrite fk_filt_presmooth_shape. cbn [snd].
  rewrite !fk_filt_presmooth_item. cbv zeta.
  replace (ns - 1 - (ns - 1 - j))%nat with j by lia. ring.
Qed.

Lemma fk_filt_presmooth_flip_symmetric_witness :
  item (np.fliplr (fk_filt_presmooth 4 8 1 10 1 2 1400 3500)) 1 2 =
  item (fk_filt_presmooth 4 8 1 10 1 2 1400 3500) 1 2.
Proof.
  apply (fk_filt_presmooth_flip_symmetric 4 8 1 10 1 2 1400 3500 1 2). lia.
Defined.

Lemma fold_left_Rmin_le (l : list R) :
  forall x y, In y (x :: l) -> fold_left Rmin l x <= y.
Proof.
  induction l as [|z l IH]; intros x y H; cbn [fold_left].
  - destruct H as [->|[]]. lra.
  - destruct H as [->|[->|H]].
    + apply Rle_trans with (Rmin y z); [apply IH; now left | apply Rmin_l].
    + apply Rle_trans with (Rmin x y); [apply IH; now left | apply Rmin_r].
    + apply IH. now right.
Qed.

Lemma fold_left_Rmax_ge (l : list R) :
  forall x y, In y (x :: l) -> y <= fold_left Rmax l x.
Proof.
  induction l as [|z l IH]; intros x y H; cbn [fold_left].
  - destruct H as [->|[]]. lra.
  - destruct H as [->|[->|H]].
    + apply Rle_trans with (Rmax y z); [apply Rmax_l | apply IH; now left].
    + apply Rle_trans with (Rmax x y); [apply Rmax_r | apply IH; now left].
    + apply IH. now right.
Qed.

Lemma fold_left_Rmin_In (l : list R) :
  forall x, In (fold_left Rmin l x) (x :: l).
Proof.
  induction l as [|z l IH]; intros x; cbn [fold_left]; [now left|].
  destruct (IH (Rmin x z)) as [H|H]; [|right; now right].
  rewrite <- H. unfold Rmin. destruct (Rle_dec x z); [now left | right; now left].
Qed.

Lemma fold_left_Rmax_In (l : list R) :
  forall x, In (fold_left Rmax l x) (x :: l).
Proof.
  induction l as [|z l IH]; intros x; cbn [fold_left]; [now left|].
  destruct (IH (Rmax x z)) as [H|H]; [|right; now right].
  rewrite <- H. unfold Rmax. destruct (Rle_dec x z); [right; now left | now left].
Qed.

Lemma entries_In (a : ndarray R) (v : R) :
  In v (np.entries a) <->
  exists i j, (i < nrows a)%nat /\ (j < ncols a)%nat /\ v = item a i j.
Proof.
  unfold np.entries. rewrite in_flat_map. split.
  - intros [i [Hi H]]. apply in_map_iff in H. destruct H as [j [E Hj]].
    apply in_seq in Hi, Hj. exists i, j. repeat split; [lia | lia | now symmetry].
  - intros [i [j [Hi [Hj ->]]]]. exists i. split; [apply in_seq; lia|].
    apply in_map_iff. exists j. split; [reflexivity | apply in_seq; lia].
Qed.

Lemma amin_le (a : ndarray R) (i j : nat) :
  (i < nrows a)%nat -> (j < ncols a)%nat -> np.amin a <= item a i j.
Proof.
  intros Hi Hj.
  assert (H : In (item a i j) (np.entries a)) by (apply entries_In; eauto).
  unfold np.amin. destruct (np.entries a) as [|x l]; [destruct H|].
  now apply fold_left_Rmin_le.
Qed.

Lemma amax_ge (a : ndarray R) (i j : nat) :
  (i < nrows a)%nat -> (j < ncols a)%nat -> item a i j <= np.amax a.
Proof.
  intros Hi Hj.
  assert (H : In (item a i j) (np.entries a)) by (apply entries_In; eauto).
  unfold np.amax. destruct (np.entries a) as [|x l]; [destruct H|].
  now apply fold_left_Rmax_ge.
Qed.

Lemma amin_attained (a : ndarray R) :
  (0 < nrows a)%nat -> (0 < ncols a)%nat ->
  exists i j, (i < nrows a)%nat /\ (j < ncols a)%nat /\ np.amin a = item a i j.
Proof.
  intros Hr Hc. apply entries_In.
  assert (H : In (item a 0 0) (np.entries a)) by (apply entries_In; eauto).
  unfold np.amin. destruct (np.entries a) as [|x l]; [destruct H|].
  apply fold_left_Rmin_In.
Qed.

Lemma amax_attained (a : ndarray R) :
  (0 < nrows a)%nat -> (0 < ncols a)%nat ->
  exists i j, (i < nrows a)%nat /\ (j < ncols a)%nat /\ np.amax a = item a i j.
Proof.
  intros Hr Hc. apply entries_In.
  assert (H : In (item a 0 0) (np.entries a)) by (apply entries_In; eauto).
  unfold np.amax. destruct (np.entries a) as [|x l]; [destruct H|].
  apply fold_left_Rmax_In.
Qed.

(** X22.  Whatever the smoothing returns, as long as it is not a
    constant array, the normalisation of [fk_filt] maps it onto the
    interval from 0 to 1: every entry of the filter lies in it, and the
    values 0 and 1 are both taken. *)
Theorem fk_filt_mask_normalised
    (gaussian_filter : ndarray R -> R -> ndarray R)
    (nx ns : nat) (tint fs xint dx c_min c_max : R) :
  let g := gaussian_filter
             (fk_filt_presmooth nx ns tint fs xint dx c_min c_max) 20 in
  let mask := fk_filt_mask gaussian_filter nx ns tint fs xint dx c_min c_max in
  np.amin g < np.amax g ->
  shape mask = shape g /\
  (forall i j, (i < nrows g)%nat -> (j < ncols g)%nat ->
               0 <= item mask i j <= 1) /\
  (exists i j, (i < nrows g)%nat /\ (j < ncols g)%nat /\ item mask i j = 0) /\
  (exists i j, (i < nrows g)%nat /\ (j < ncols g)%nat /\ item mask i j = 1).
Proof.
  intros g mask Hlt. unfold mask, fk_filt_mask. fold g. cbn [shape item].
  assert (Hd : 0 < np.amax g - np.amin g) by lra.
  assert (Hne : (0 < nrows g)%nat /\ (0 < ncols g)%nat).
  { destruct (np.entries g) as [|x l] eqn:E.
    - unfold np.amin, np.amax in Hlt. rewrite E in Hlt. lra.
    - assert (H : In x (np.entries g)) by (rewrite E; now left).
      apply entries_In in H. destruct H as [i [j [Hi [Hj _]]]]. lia. }
  destruct Hne as [Hr Hc].
  split; [reflexivity|]. split; [|split].
  - intros i j Hi Hj.
    pose proof (amin_le g i j Hi Hj). pose proof (amax_ge g i j Hi Hj).
    split.
    + apply Rmult_le_pos; [lra | apply Rlt_le, Rinv_0_lt_compat, Hd].
    + apply Rmult_le_reg_r with (np.amax g - np.amin g); [exact Hd|].
      unfold Rdiv. rewrite Rmult_assoc, Rinv_l by lra. lra.
  - destruct (amin_attained g Hr Hc) as [i [j [Hi [Hj E]]]].
    exists i, j. repeat split; try assumption. rewrite <- E. unfold Rdiv. ring.
  - destruct (amax_attained g Hr Hc) as [i [j [Hi [Hj E]]]].
    exists i, j. repeat split; try assumption. rewrite <- E. field. lra.
Qed.

Lemma fk_filt_mask_normalised_witness :
  np.amin (fk_filt_presmooth 2 3 1 1 1 1 0 1) <
  np.amax (fk_filt_presmooth 2 3 1 1 1 1 0 1) /\
  exists i j,
    (i < 2)%nat /\ (j < 3)%nat /\
    item (fk_filt_mask (fun a _ => a) 2 3 1 1 1 1 0 1) i j = 1.
Proof.
  assert (Hlt : np.amin (fk_filt_presmooth 2 3 1 1 1 1 0 1) <
                np.amax (fk_filt_presmooth 2 3 1 1 1 1 0 1)).
  { apply Rle_lt_trans with (item (fk_filt_presmooth 2 3 1 1 1 1 0 1) 0 1).
    { apply amin_le; unfold nrows, ncols; rewrite fk_filt_presmooth_shape; cbn; lia. }
    apply Rlt_le_trans with (item (fk_filt_presmooth 2 3 1 1 1 1 0 1) 0 0).
    2:{ apply amax_ge; unfold nrows, ncols; rewrite fk_filt_presmooth_shape; cbn; lia. }
    rewrite !fk_filt_presmooth_item. cbv zeta. rewrite !fftshift_fftfreq.
    change (3 / 2)%nat with 1%nat. change (2 / 2)%nat with 1%nat.
    cbn [seq map nth Nat.sub Z.of_nat Z.sub Z.add Z.opp Pos.of_succ_nat Pos.succ
         Z.pos_sub INR].
    eval_cmp; cbn [andb]; lra. }
  split; [exact Hlt|].
  pose proof (fk_filt_mask_normalised (fun a _ => a) 2 3 1 1 1 1 0 1 Hlt) as H.
  cbv zeta in H. destruct H as [_ [_ [_ H]]].
  unfold nrows, ncols in H. rewrite fk_filt_presmooth_shape in H. exact H.
Defined.

(** X23.  For intervals and rates other than 0 ([tint], [fs] and
    [xint * dx], by which the axes divide), [fk_filt] fails on a trace
    without channels or without samples (the transform raises) and on
    every other trace it returns an array of the shape of the trace, for
    any smoothing that keeps the shape of its argument. *)
Theorem fk_filt_shape
    (gaussian_filter : ndarray R -> R -> ndarray R)
    (data : ndarray R) (tint fs xint dx c_min c_max : R) :
  (forall a sigma, shape (gaussian_filter a sigma) = shape a) ->
  tint <> 0 -> fs <> 0 -> xint * dx <> 0 ->
  if ((nrows data =? 0) || (ncols data =? 0))%nat
  then fk_filt gaussian_filter data tint fs xint dx c_min c_max
       = Err FFTPointsError
  else exists out,
         fk_filt gaussian_filter data tint fs xint dx c_min c_max = Ok out /\
         shape out = shape data.
Proof.
  intros Hg _ _ _. unfold fk_filt.
  destruct (Nat.eqb_spec (nrows data) 0) as [Er|Er];
    [|destruct (Nat.eqb_spec (ncols data) 0) as [Ec|Ec]]; cbn [orb].
  - rewrite fft2_empty; [reflexivity | now left].
  - rewrite fft2_empty; [reflexivity | now right].
  - rewrite fft2_ok
      by (unfold nrows, ncols, np.astype_complex in *; cbn [shape]; lia).
    cbn [bind].
    rewrite (multiply_ok _ _ (shape data)).
    2:{ unfold fk_filt_mask, np.fftshift2, np.astype_complex, nrows, ncols.
        cbn [shape]. rewrite Hg, fk_filt_presmooth_shape.
        rewrite <- surjective_pairing. apply broadcast_shapes_same. }
    cbn [bind].
    rewrite ifft2_ok
      by (unfold np.ifftshift2, nrows, ncols in *; cbn [shape]; lia).
    cbn [bind]. eexists. split; reflexivity.
Qed.

Lemma fk_filt_shape_witness :
  exists out,
    fk_filt (fun a _ => a) (mk_ndarray (2, 3)%nat (fun i j => INR (i + j)))
      1 10 1 2 1400 3500 = Ok out /\
    shape out = (2, 3)%nat.
Proof.
  apply (fk_filt_shape (fun a _ => a)
           (mk_ndarray (2, 3)%nat (fun i j => INR (i + j))) 1 10 1 2 1400 3500);
    try reflexivity; lra.
Defined.

(** ** Symmetrised masks *)

(** X24.  The mask of [hybrid_filter_design] is unchanged by a
    left-right flip: the columns [j] and [ns - 1 - j] are equal. *)
Theorem hybrid_filter_design_flip_symmetric
    (nnx nns start stop step : nat) (dx fs cs_min cp_min fmin fmax : R)
    (i j : nat) :
  (j < nns)%nat ->
  sparse.getitem (hybrid_filter_design (nnx, nns) (start, stop, step) dx fs
                    cs_min cp_min fmin fmax) i (nns - 1 - j) =
  sparse.getitem (hybrid_filter_design (nnx, nns) (start, stop, step) dx fs
                    cs_min cp_min fmin fmax) i j.
Proof.
  intros Hj. unfold hybrid_filter_design. rewrite !from_numpy_getitem.
  unfold nrows, ncols. rewrite hybrid_filter_dense_shape. cbn [fst snd].
  destruct (Nat.ltb_spec i nnx) as [Hi|Hi]; [|reflexivity].
  destruct (Nat.ltb_spec j nns) as [_|H]; [|lia].
  destruct (Nat.ltb_spec (nns - 1 - j) nns) as [_|H]; [|lia].
  cbn [andb]. rewrite !hybrid_filter_dense_item. cbv zeta.
  replace (nns - 1 - (nns - 1 - j))%nat with j by lia. ring.
Qed.

Lemma hybrid_filter_design_flip_symmetric_witness :
  sparse.getitem (hybrid_filter_design (3, 8)%nat (0, 3, 1)%nat 2 200
                    1400 1450 15 25) 1 (8 - 1 - 2) =
  sparse.getitem (hybrid_filter_design (3, 8)%nat (0, 3, 1)%nat 2 200
                    1400 1450 15 25) 1 2.
Proof.
  apply (hybrid_filter_design_flip_symmetric 3 8 0 3 1 2 200 1400 1450 15 25 1 2).
  lia.
Defined.

(** X25.  The mask of [hybrid_ninf_filter_design] is unchanged by a
    left-right flip and by an up-down flip. *)
Theorem hybrid_ninf_filter_design_flip_symmetric
    (nnx nns start stop step : nat)
    (dx fs cs_min cp_min cp_max cs_max fmin fmax : R) (i j : nat) :
  (i < nnx)%nat -> (j < nns)%nat ->
  sparse.getitem (hybrid_ninf_filter_design (nnx, nns) (start, stop, step) dx fs
                    cs_min cp_min cp_max cs_max fmin fmax) i (nns - 1 - j) =
  sparse.getitem (hybrid_ninf_filter_design (nnx, nns) (start, stop, step) dx fs
                    cs_min cp_min cp_max cs_max fmin fmax) i j /\
  sparse.getitem (hybrid_ninf_filter_design (nnx, nns) (start, stop, step) dx fs
                    cs_min cp_min cp_max cs_max fmin fmax) (nnx - 1 - i) j =
  sparse.getitem (hybrid_ninf_filter_design (nnx, nns) (start, stop, step) dx fs
                    cs_min cp_min cp_max cs_max fmin fmax) i j.
Proof.
  intros Hi Hj. unfold hybrid_ninf_filter_design. rewrite !from_numpy_getitem.
  unfold nrows, ncols. rewrite hybrid_ninf_filter_dense_shape. cbn [fst snd].
  destruct (Nat.ltb_spec i nnx) as [_|H]; [|lia].
  destruct (Nat.ltb_spec j nns) as [_|H]; [|lia].
  destruct (Nat.ltb_spec (nns - 1 - j) nns) as [_|H]; [|lia].
  destruct (Nat.ltb_spec (nnx - 1 - i) nnx) as [_|H]; [|lia].
  cbn [andb]. rewrite !hybrid_ninf_filter_dense_item. cbv zeta.
  replace (nns - 1 - (nns - 1 - j))%nat with j by lia.
  replace (nnx - 1 - (nnx - 1 - i))%nat with i by lia.
  split; ring.
Qed.

Lemma hybrid_ninf_filter_design_flip_symmetric_witness :
  sparse.getitem (hybrid_ninf_filter_design (3, 8)%nat (0, 3, 1)%nat 2 200
                    1350 1450 3300 3450 15 25) 1 (8 - 1 - 2) =
  sparse.getitem (hybrid_ninf_filter_design (3, 8)%nat (0, 3, 1)%nat 2 200
                    1350 1450 3300 3450 15 25) 1 2 /\
  sparse.getitem (hybrid_ninf_filter_design (3, 8)%nat (0, 3, 1)%nat 2 200
                    1350 1450 3300 3450 15 25) (3 - 1 - 1) 2 =
  sparse.getitem (hybrid_ninf_filter_design (3, 8)%nat (0, 3, 1)%nat 2 200
                    1350 1450 3300 3450 15 25) 1 2.
Proof.
  apply (hybrid_ninf_filter_design_flip_symmetric
           3 8 0 3 1 2 200 1350 1450 3300 3450 15 25 1 2); lia.
Defined.

(** X26.  [fk_filt] is the application of a mask without tapering
    ([fk_filter_filt]) to the normalised, smoothed filter it builds for
    the shape of the trace; the two fail on the same traces. *)
Theorem fk_filt_applies_its_mask
    (gaussian_filter : ndarray R -> R -> ndarray R)
    (data : ndarray R) (tint fs xint dx c_min c_max : R) :
  fk_filt gaussian_filter data tint fs xint dx c_min c_max =
  fk_filter_filt data
    (fk_filt_mask gaussian_filter (nrows data) (ncols data)
       tint fs xint dx c_min c_max)
    false.
Proof.
  unfold fk_filt, fk_filter_filt.
  destruct (Nat.eq_dec (nrows data) 0) as [Er|Er];
    [|destruct (Nat.eq_dec (ncols data) 0) as [Ec|Ec]].
  - rewrite fft2_empty; [reflexivity | now left].
  - rewrite fft2_empty; [reflexivity | now right].
  - rewrite fft2_ok
      by (unfold nrows, ncols, np.astype_complex in *; cbn [shape]; lia).
    reflexivity.
Qed.
